(** * Log-Analytics-Go-Kafka: alert engine, batch consumer and migration runner

    A shallow embedding of the Go sources

      - [internal/models]            ([Alert], [AlertRule], [Log])
      - [internal/database/alerts]   (the GORM alert repository)
      - [internal/services]          ([AlertService]: [CheckAlertRules],
                                      [evaluateRule], [buildQuery])
      - [internal/handlers]          (the HTTP resolve endpoint)
      - [internal/consumers]         ([ConsumeClaim], the batch consumer)
      - [internal/database/logs]     ([CreateLogBatch])
      - [cmd/migration]              ([ApplyMigration])

    The MySQL tables are explicit values that every operation takes and
    returns.  Whatever the outside world decides (the clock, the result of
    a SQL query, a failing driver call) is an argument of the operation
    that observes it. *)

From Stdlib Require Import ZArith NArith List String Ascii Bool Lia.
From Stdlib Require Import Floats.SpecFloat.
From Stdlib Require DecimalString.
From Stdlib Require Import Permutation Sorted OrdersEx.
Import ListNotations.

Open Scope Z_scope.

(* ================================================================= *)
(** ** Go base types *)

(** [uint] on the 64-bit targets the services are built for; primary keys
    are far from the wrap-around. *)
Definition uint := N.

(** [float64]: the IEEE-754 values, with the comparison of the standard
    (a NaN compares false with everything). *)
Definition float64 := spec_float.

(** Go [x >= y] on float64. *)
Definition float64_ge (x y : float64) : bool :=
  match SFcompare x y with
  | Some Gt | Some Eq => true
  | _ => false
  end.

(** Go [x < y] on float64. *)
Definition float64_lt (x y : float64) : bool :=
  match SFcompare x y with
  | Some Lt => true
  | _ => false
  end.

(** Go [x == y] on float64. *)
Definition float64_eq (x y : float64) : bool :=
  match SFcompare x y with
  | Some Eq => true
  | _ => false
  end.

(** A Go [error] value is kept as its message; [None] is [nil]. *)
Definition error := string.

(** [fmt.Errorf("<prefix>: %w", err)]. *)
Definition wrap_error (prefix : string) (err : error) : error :=
  (prefix ++ ": " ++ err)%string.

(* ================================================================= *)
(** ** package time *)

Module GoTime.

(** An instant, in nanoseconds since the Unix epoch.  [time.Time] covers
    a much wider range than an int64 of nanoseconds, so instants are not
    wrapped. *)
Definition Time := Z.

(** The zero [time.Time] (January 1, year 1, 00:00 UTC). *)
Definition zero_time : Time := -62135596800 * 1000000000.

Definition IsZero (t : Time) : bool := t =? zero_time.

(** [time.Duration] is an int64 count of nanoseconds; its arithmetic
    wraps around silently. *)
Definition Duration := Z.

Definition wrap64 (z : Z) : Z := (z + 2 ^ 63) mod 2 ^ 64 - 2 ^ 63.

Definition Second : Duration := 1000000000.
Definition Minute : Duration := 60 * Second.

(** Unary minus and product on int64. *)
Definition neg64 (d : Duration) : Duration := wrap64 (- d).
Definition mul64 (a b : Duration) : Duration := wrap64 (a * b).

(** [t.Add(d)]. *)
Definition Add (t : Time) (d : Duration) : Time := t + d.

End GoTime.

Export GoTime.

(* ================================================================= *)
(** ** internal/models *)

Module Models.

(** [models.AlertRule]. *)
Record AlertRule := {
  rule_ID : uint;
  Name : string;
  Description : string;
  Condition : string;        (* SQL condition for the alert *)
  Threshold : float64;
  TimeWindow : Z;            (* in minutes *)
  rule_Severity : string;
  Enabled : bool;
  rule_CreatedAt : Time;
  rule_UpdatedAt : Time
}.

(** [models.Alert], as a row of the [alerts] table.  [UpdatedAt] is the
    column [updated_at] of the table; the Go struct does not carry it,
    the repository writes it. *)
Record Alert := {
  ID : uint;
  RuleID : uint;
  Message : string;
  Severity : string;
  Value : float64;           (* actual value that triggered the alert *)
  Status : string;           (* active, resolved, acknowledged *)
  CreatedAt : Time;
  ResolvedAt : option Time;
  AcknowledgedAt : option Time;
  UpdatedAt : Time
}.

(** [models.AlertFilter]. *)
Record AlertFilter := {
  f_Status : option string;
  f_Severity : option string;
  f_RuleID : option uint;
  f_From : option Time;
  f_To : option Time;
  f_Limit : option Z;
  f_Offset : option Z
}.

(** [models.Log]. *)
Record Log := {
  log_ID : uint;
  Timestamp : Time;
  Level : string;
  Service : string;
  log_Message : string;
  TraceID : option string;
  UserID : option string;
  RequestMethod : option string;
  RequestPath : option string;
  ResponseStatus : option Z;
  ResponseTimeMs : option Z;
  log_CreatedAt : Time
}.

End Models.

Export Models.

(** What the program takes from the Go standard library and is not part of
    this repository. *)
Class GoRuntime := {
  (** [t.Format("2006-01-02 15:04:05")] *)
  time_Format : Time -> string;
  (** the verb [%.2f] of [fmt.Sprintf] *)
  fmt_f2 : float64 -> string;
  (** [fmt.Sprintf("%x", sha256.Sum256([]byte(content)))] *)
  sha256_hex : string -> string;
  (** [json.Unmarshal(value, &log)] on a [models.Log]; [None] is an error *)
  json_Unmarshal_Log : string -> option Log;
  (** [strings.ToUpper], with the case mapping of Unicode *)
  strings_ToUpper : string -> string
}.

(* ================================================================= *)
(** ** internal/database/alerts: the GORM alert repository *)

Module Alerts.

(** The [alerts] table: its rows in insertion order and the
    AUTO_INCREMENT counter of the primary key. *)
Record AlertsTable := {
  rows : list Alert;
  next_id : uint
}.

Definition empty_table : AlertsTable := {| rows := []; next_id := 1%N |}.

Definition insert_row (id : uint) (db_now : Time) (a : Alert) : Alert :=
  {| ID := id; RuleID := RuleID a; Message := Message a;
     Severity := Severity a; Value := Value a; Status := Status a;
     CreatedAt := CreatedAt a; ResolvedAt := ResolvedAt a;
     AcknowledgedAt := AcknowledgedAt a;
     UpdatedAt := db_now |}.

(** [CreateAlert]: [db.Create(alert)].  A zero primary key takes the
    next AUTO_INCREMENT value; [updated_at] takes its column default,
    the server's CURRENT_TIMESTAMP [db_now].  [db_err] is the failure of
    the driver call, if any. *)
Definition CreateAlert (db_err : option error) (db_now : Time)
    (alert : Alert) (db : AlertsTable) : option error * AlertsTable :=
  match db_err with
  | Some e => (Some e, db)
  | None =>
    if (ID alert =? 0)%N then
      (None, {| rows := rows db ++ [insert_row (next_id db) db_now alert];
                next_id := N.succ (next_id db) |})
    else if existsb (fun a => (ID a =? ID alert)%N) (rows db) then
      (Some "Duplicate entry for key 'PRIMARY'"%string, db)
    else
      (None, {| rows := rows db ++ [insert_row (ID alert) db_now alert];
                next_id := N.max (next_id db) (N.succ (ID alert)) |})
  end.

(** One [query.Where(...)] per filter field that is set. *)
Definition where_opt {A : Type} (o : option A) (p : A -> bool) : bool :=
  match o with
  | Some x => p x
  | None => true
  end.

(** The conditions of the WHERE clause.  The columns status and
    severity are ENUM columns, whose values are the literals of the
    schema: compared with one of these literals, a value is equal to it
    or not as the strings are.  A filter value that is not one of the
    literals is compared by the server under the collation
    utf8mb4_unicode_ci, which this definition does not follow.  The
    times of the filter are the times as the driver sends them. *)
Definition matches (f : AlertFilter) (a : Alert) : bool :=
  where_opt (f_Status f) (fun s => String.eqb (Status a) s)
  && where_opt (f_Severity f) (fun s => String.eqb (Severity a) s)
  && where_opt (f_RuleID f) (fun r => (RuleID a =? r)%N)
  && where_opt (f_From f) (fun t => t <=? CreatedAt a)
  && where_opt (f_To f) (fun t => CreatedAt a <=? t).

(** The literals of the two ENUM columns, as the schema writes them. *)
Definition status_literal (s : string) : bool :=
  String.eqb s "active" || String.eqb s "resolved" ||
  String.eqb s "acknowledged".

Definition severity_literal (s : string) : bool :=
  String.eqb s "low" || String.eqb s "medium" || String.eqb s "high" ||
  String.eqb s "critical".

(** The status and the severity of the filter, when set, are literals
    of their columns. *)
Definition literal_filter (f : AlertFilter) : bool :=
  where_opt (f_Status f) status_literal &&
  where_opt (f_Severity f) severity_literal.

(** [Order("created_at DESC")]. *)
Fixpoint insert_desc (a : Alert) (l : list Alert) : list Alert :=
  match l with
  | [] => [a]
  | b :: l' =>
    if CreatedAt b <? CreatedAt a then a :: b :: l'
    else b :: insert_desc a l'
  end.

Fixpoint order_created_desc (l : list Alert) : list Alert :=
  match l with
  | [] => []
  | a :: l' => insert_desc a (order_created_desc l')
  end.

(** [Limit] and [Offset]: GORM emits LIMIT for a non-negative limit and
    OFFSET for a positive offset. *)
Definition paginate (limit offset : option Z) (l : list Alert) : list Alert :=
  let skipped :=
    match offset with
    | Some m => if 0 <? m then skipn (Z.to_nat m) l else l
    | None => l
    end in
  match limit with
  | Some n => if 0 <=? n then firstn (Z.to_nat n) skipped else skipped
  | None => skipped
  end.

(** [GetAlerts]. *)
Definition GetAlerts (db_err : option error) (f : AlertFilter)
    (db : AlertsTable) : list Alert * option error :=
  match db_err with
  | Some e => ([], Some e)
  | None =>
    (paginate (f_Limit f) (f_Offset f)
       (order_created_desc (filter (matches f) (rows db))), None)
  end.

(** [Model(&Alert{}).Where("id = ?", id).Updates(...)]: every row whose
    primary key is [id] is rewritten; matching no row is not an error. *)
Definition update_where_id (id : uint) (upd : Alert -> Alert)
    (db : AlertsTable) : AlertsTable :=
  {| rows := map (fun a => if (ID a =? id)%N then upd a else a) (rows db);
     next_id := next_id db |}.

Definition resolve_row (now : Time) (a : Alert) : Alert :=
  {| ID := ID a; RuleID := RuleID a; Message := Message a;
     Severity := Severity a; Value := Value a;
     Status := "resolved";
     CreatedAt := CreatedAt a;
     ResolvedAt := Some now;
     AcknowledgedAt := AcknowledgedAt a;
     UpdatedAt := now |}.

Definition acknowledge_row (now : Time) (a : Alert) : Alert :=
  {| ID := ID a; RuleID := RuleID a; Message := Message a;
     Severity := Severity a; Value := Value a;
     Status := "acknowledged";
     CreatedAt := CreatedAt a;
     ResolvedAt := ResolvedAt a;
     AcknowledgedAt := Some now;
     UpdatedAt := now |}.

(** [ResolveAlert]; [now] is its [time.Now()], as the DATETIME columns
    resolved_at and updated_at keep it. *)
Definition ResolveAlert (db_err : option error) (now : Time) (id : uint)
    (db : AlertsTable) : option error * AlertsTable :=
  match db_err with
  | Some e => (Some e, db)
  | None => (None, update_where_id id (resolve_row now) db)
  end.

(** [AcknowledgeAlert]. *)
Definition AcknowledgeAlert (db_err : option error) (now : Time) (id : uint)
    (db : AlertsTable) : option error * AlertsTable :=
  match db_err with
  | Some e => (Some e, db)
  | None => (None, update_where_id id (acknowledge_row now) db)
  end.

(** [GetAlertByID]: [First(&alert, id)] is the row with that primary key,
    or gorm.ErrRecordNotFound. *)
Definition ErrRecordNotFound : error := "record not found"%string.

Definition GetAlertByID (db_err : option error) (id : uint)
    (db : AlertsTable) : option Alert * option error :=
  match db_err with
  | Some e => (None, Some e)
  | None =>
    match find (fun a => (ID a =? id)%N) (rows db) with
    | Some a => (Some a, None)
    | None => (None, Some ErrRecordNotFound)
    end
  end.

(** [GetActiveAlerts]. *)
Definition GetActiveAlerts (db_err : option error) (db : AlertsTable)
    : list Alert * option error :=
  match db_err with
  | Some e => ([], Some e)
  | None =>
    (order_created_desc
       (filter (fun a => String.eqb (Status a) "active") (rows db)), None)
  end.

(** [models.AlertStats]. *)
Record AlertStats := {
  TotalAlerts : Z;
  ActiveAlerts : Z;
  ResolvedAlerts : Z;
  CriticalAlerts : Z;
  HighAlerts : Z;
  MediumAlerts : Z;
  LowAlerts : Z
}.

(** [Model(&Alert{}).Where(...).Count(&n)]. *)
Definition count_where (p : Alert -> bool) (db : AlertsTable) : Z :=
  Z.of_nat (List.length (filter p (rows db))).

Definition has_status (s : string) (a : Alert) : bool := String.eqb (Status a) s.
Definition has_severity (s : string) (a : Alert) : bool := String.eqb (Severity a) s.

(** [GetAlertStats]: seven counts, one query each, outside any
    transaction; [query_err k] is the failure of the k-th query, the
    first failure being returned, and [db_at k] is the table as the k-th
    query finds it. *)
Definition GetAlertStats (query_err : nat -> option error)
    (db_at : nat -> AlertsTable) : option AlertStats * option error :=
  match query_err 0%nat with Some e => (None, Some e) | None =>
  match query_err 1%nat with Some e => (None, Some e) | None =>
  match query_err 2%nat with Some e => (None, Some e) | None =>
  match query_err 3%nat with Some e => (None, Some e) | None =>
  match query_err 4%nat with Some e => (None, Some e) | None =>
  match query_err 5%nat with Some e => (None, Some e) | None =>
  match query_err 6%nat with Some e => (None, Some e) | None =>
    (Some {| TotalAlerts := count_where (fun _ => true) (db_at 0%nat);
             ActiveAlerts := count_where (has_status "active") (db_at 1%nat);
             ResolvedAlerts := count_where (has_status "resolved") (db_at 2%nat);
             CriticalAlerts := count_where (has_severity "critical") (db_at 3%nat);
             HighAlerts := count_where (has_severity "high") (db_at 4%nat);
             MediumAlerts := count_where (has_severity "medium") (db_at 5%nat);
             LowAlerts := count_where (has_severity "low") (db_at 6%nat) |}, None)
  end end end end end end end.

End Alerts.

Export Alerts.

(* ================================================================= *)
(** ** internal/services: the alert evaluation engine *)

Module Services.

(** What [db.QueryRowContext(ctx, query).Scan(&result)] gives. *)
Inductive QueryOutcome :=
| QValue (result : float64)
| QNoRows                      (* sql.ErrNoRows *)
| QError (e : error).

(** A line of the structured logger: the message and the id it is
    about, with the error for [logger.Error]. *)
Inductive LogLine :=
| LInfo (msg : string) (id : uint)
| LError (msg : string) (err : error) (id : uint).

(** What one call of [evaluateRule] observes of the outside world. *)
Record EvalEnv := {
  build_now : Time;                     (* time.Now() of buildQuery *)
  query_row : string -> QueryOutcome;   (* the aggregate query, by its text *)
  get_alerts_fail : option error;       (* failure of GetAlerts *)
  create_now : Time;                    (* time.Now() of the new alert *)
  create_db_now : Time;                 (* CURRENT_TIMESTAMP at the insert *)
  create_fail : option error;           (* failure of CreateAlert *)
  resolve_now : uint -> Time;           (* time.Now() of ResolveAlert(id) *)
  resolve_fail : uint -> option error   (* failure of ResolveAlert(id) *)
}.

Definition nl : string := String (ascii_of_nat 10) EmptyString.
Definition tab : string := String (ascii_of_nat 9) EmptyString.

(** [time.Now().Add(-time.Duration(rule.TimeWindow) * time.Minute)]. *)
Definition window_start (rule : AlertRule) (now : Time) : Time :=
  Add now (mul64 (neg64 (TimeWindow rule)) Minute).

(** The largest window, in minutes, whose length in nanoseconds fits a
    [time.Duration]. *)
Definition max_window_minutes : Z := 153722867.

(** The text of the query before the condition. *)
Definition select_prefix : string := (nl ++ tab ++ tab ++ "SELECT ")%string.

(** [needle] occurs in [hay]. *)
Fixpoint contains (needle hay : string) : bool :=
  String.prefix needle hay ||
  match hay with
  | EmptyString => false
  | String _ hay' => contains needle hay'
  end.

Section WithRuntime.
Context {rt : GoRuntime}.

(** [buildQuery]: the condition and the formatted window start are
    written into the text of the query by [fmt.Sprintf]. *)
Definition buildQuery (rule : AlertRule) (now : Time) : string :=
  let timeWindow := window_start rule now in
  (nl ++ tab ++ tab ++ "SELECT " ++ Condition rule ++ " " ++
   nl ++ tab ++ tab ++ "FROM logs " ++
   nl ++ tab ++ tab ++ "WHERE created_at >= '" ++ time_Format timeWindow ++ "'" ++
   nl ++ tab)%string.

(** The text of the query after the condition, for a window start. *)
Definition from_where_suffix (start : Time) : string :=
  (" " ++ nl ++ tab ++ tab ++ "FROM logs " ++
   nl ++ tab ++ tab ++ "WHERE created_at >= '" ++ time_Format start ++ "'" ++
   nl ++ tab)%string.

Definition active_filter (rule_id : uint) : AlertFilter :=
  {| f_Status := Some "active"%string; f_Severity := None;
     f_RuleID := Some rule_id; f_From := None; f_To := None;
     f_Limit := None; f_Offset := None |}.

Definition alert_message (rule : AlertRule) (result : float64) : string :=
  ("Alert rule '" ++ Name rule ++ "' triggered: " ++ Condition rule ++
   " = " ++ fmt_f2 result ++ " (threshold: " ++ fmt_f2 (Threshold rule) ++ ")")%string.

Definition new_alert (env : EvalEnv) (rule : AlertRule) (result : float64) : Alert :=
  {| ID := 0%N;
     RuleID := rule_ID rule;
     Message := alert_message rule result;
     Severity := rule_Severity rule;
     Value := result;
     Status := "active";
     CreatedAt := create_now env;
     ResolvedAt := None;
     AcknowledgedAt := None;
     UpdatedAt := create_db_now env |}.

(** The loop over [activeAlerts] of the else branch: a failing
    [ResolveAlert] is logged and the loop goes on. *)
Fixpoint resolve_each (env : EvalEnv) (activeAlerts : list Alert)
    (db : AlertsTable) : AlertsTable * list LogLine :=
  match activeAlerts with
  | [] => (db, [])
  | alert :: rest =>
    match ResolveAlert (resolve_fail env (ID alert))
            (resolve_now env (ID alert)) (ID alert) db with
    | (Some e, db') =>
      let '(db'', lg) := resolve_each env rest db' in
      (db'', LError "Failed to resolve alert" e (ID alert) :: lg)
    | (None, db') =>
      let '(db'', lg) := resolve_each env rest db' in
      (db'', LInfo "Alert resolved" (ID alert) :: lg)
    end
  end.

(** [evaluateRule]. *)
Definition evaluateRule (env : EvalEnv) (rule : AlertRule)
    (db : AlertsTable) : option error * AlertsTable * list LogLine :=
  let query := buildQuery rule (build_now env) in
  match query_row env query with
  | QNoRows => (None, db, [])
  | QError e => (Some (wrap_error "failed to execute alert query" e), db, [])
  | QValue result =>
    if float64_ge result (Threshold rule) then
      match GetAlerts (get_alerts_fail env) (active_filter (rule_ID rule)) db with
      | (_, Some e) =>
        (Some (wrap_error "failed to check existing alerts" e), db, [])
      | (activeAlerts, None) =>
        if (List.length activeAlerts =? 0)%nat then
          match CreateAlert (create_fail env) (create_db_now env)
                  (new_alert env rule result) db with
          | (Some e, db') =>
            (Some (wrap_error "failed to create alert" e), db', [])
          | (None, db') =>
            (None, db', [LInfo "Alert created" (rule_ID rule)])
          end
        else (None, db, [])
      end
    else
      match GetAlerts (get_alerts_fail env) (active_filter (rule_ID rule)) db with
      | (_, Some e) =>
        (Some (wrap_error "failed to check existing alerts" e), db, [])
      | (activeAlerts, None) =>
        let '(db', lg) := resolve_each env activeAlerts db in
        (None, db', lg)
      end
  end.

(** The loop of [CheckAlertRules]; [envs i] is what the evaluation of
    the rule at position [i] of the list observes. *)
Fixpoint check_rules (envs : nat -> EvalEnv) (i : nat)
    (rules : list AlertRule) (db : AlertsTable)
    : AlertsTable * list LogLine :=
  match rules with
  | [] => (db, [])
  | rule :: rest =>
    if negb (Enabled rule) then check_rules envs (S i) rest db
    else
      let '(err, db', lg) := evaluateRule (envs i) rule db in
      let lg' :=
        match err with
        | Some e =>
          lg ++ [LError "Failed to evaluate alert rule" e (rule_ID rule)]
        | None => lg
        end in
      let '(db'', lg'') := check_rules envs (S i) rest db' in
      (db'', lg' ++ lg'')
  end.

(** [CheckAlertRules]; [get_rules] is the result of
    [alertRuleRepo.GetAlertRules]. *)
Definition CheckAlertRules (get_rules : list AlertRule * option error)
    (envs : nat -> EvalEnv) (db : AlertsTable)
    : option error * AlertsTable * list LogLine :=
  match get_rules with
  | (_, Some e) => (Some (wrap_error "failed to get alert rules" e), db, [])
  | (rules, None) =>
    let '(db', lg) := check_rules envs 0 rules db in
    (None, db', lg)
  end.

(** What the select of [StartAlertChecker] receives: a tick, with what
    the cycle it starts observes, or the end of the context. *)
Inductive CheckerEvent :=
| Tick (get_rules : list AlertRule * option error) (envs : nat -> EvalEnv)
| CtxDone.

(** The loop of [StartAlertChecker]; the boolean tells whether it has
    returned. *)
Fixpoint checker_loop (events : list CheckerEvent) (db : AlertsTable)
    : AlertsTable * list LogLine * bool :=
  match events with
  | [] => (db, [], false)
  | CtxDone :: _ => (db, [LInfo "Alert checker stopped" 0%N], true)
  | Tick get_rules envs :: rest =>
    let '(err, db', lg) := CheckAlertRules get_rules envs db in
    let lg' :=
      match err with
      | Some e => lg ++ [LError "Failed to check alert rules" e 0%N]
      | None => lg
      end in
    let '(db'', lg'', returned) := checker_loop rest db' in
    (db'', lg' ++ lg'', returned)
  end.

(** [StartAlertChecker]. *)
Definition StartAlertChecker (events : list CheckerEvent) (db : AlertsTable)
    : AlertsTable * list LogLine * bool :=
  let '(db', lg, returned) := checker_loop events db in
  (db', LInfo "Alert checker started" 0%N :: lg, returned).

Definition is_tick (ev : CheckerEvent) : bool :=
  match ev with
  | Tick _ _ => true
  | CtxDone => false
  end.

End WithRuntime.

End Services.

Export Services.

(* ================================================================= *)
(** ** packages strings and strconv, on byte strings *)

Module GoStrings.

Definition is_digit (c : ascii) : bool :=
  ((48 <=? nat_of_ascii c) && (nat_of_ascii c <=? 57))%nat.

Definition digit_value (c : ascii) : N := N.of_nat (nat_of_ascii c - 48).

Fixpoint parse_digits (s : string) (acc : N) : option N :=
  match s with
  | EmptyString => Some acc
  | String c s' =>
    if is_digit c then parse_digits s' (acc * 10 + digit_value c)%N
    else None
  end.

(** [strconv.ParseUint(s, 10, bitSize)]: [None] stands for a non-nil
    error (empty input, a byte that is not a decimal digit, or a value
    that does not fit [bitSize] bits). *)
Definition ParseUint (s : string) (bitSize : N) : option N :=
  match s with
  | EmptyString => None
  | _ =>
    match parse_digits s 0 with
    | Some n => if (n <? 2 ^ bitSize)%N then Some n else None
    | None => None
    end
  end.

(** [%d] of a non-negative int. *)
Definition Itoa (n : nat) : string :=
  DecimalString.NilZero.string_of_uint (Nat.to_uint n).

(** The ASCII white space of [unicode.IsSpace]. *)
Definition is_space (c : ascii) : bool :=
  let n := nat_of_ascii c in
  ((n =? 9) || (n =? 10) || (n =? 11) || (n =? 12) || (n =? 13) || (n =? 32))%nat.

(** The white space of [unicode.IsSpace] beyond ASCII, by the bytes of
    its UTF-8 encoding: U+0085 and U+00A0 take two bytes. *)
Definition space2 (a b : ascii) : bool :=
  ((nat_of_ascii a =? 194) &&
   ((nat_of_ascii b =? 133) || (nat_of_ascii b =? 160)))%nat.

(** U+1680, U+2000 to U+200A, U+2028, U+2029, U+202F, U+205F and U+3000
    take three bytes. *)
Definition space3 (a b c : ascii) : bool :=
  let x := nat_of_ascii a in
  let y := nat_of_ascii b in
  let z := nat_of_ascii c in
  (((x =? 225) && (y =? 154) && (z =? 128)) ||
   ((x =? 226) && (y =? 128) &&
    (((128 <=? z) && (z <=? 138)) || (z =? 168) || (z =? 169) || (z =? 175))) ||
   ((x =? 226) && (y =? 129) && (z =? 159)) ||
   ((x =? 227) && (y =? 128) && (z =? 128)))%nat.

Section Trim.

(** The encodings of two and of three bytes, in the order in which the
    bytes are met. *)
Variable two : ascii -> ascii -> bool.
Variable three : ascii -> ascii -> ascii -> bool.

(** The string starts with a white-space rune. *)
Definition starts_with_space (s : string) : bool :=
  match s with
  | EmptyString => false
  | String a s1 =>
    is_space a ||
    match s1 with
    | EmptyString => false
    | String b s2 =>
      two a b ||
      match s2 with
      | EmptyString => false
      | String c _ => three a b c
      end
    end
  end.

(** The string without the white-space runes it starts with. *)
Fixpoint trim_start (s : string) : string :=
  match s with
  | EmptyString => EmptyString
  | String a s1 =>
    if is_space a then trim_start s1
    else
      match s1 with
      | EmptyString => s
      | String b s2 =>
        if two a b then trim_start s2
        else
          match s2 with
          | EmptyString => s
          | String c s3 => if three a b c then trim_start s3 else s
          end
      end
  end.

End Trim.

Fixpoint string_rev (s : string) : string :=
  match s with
  | EmptyString => EmptyString
  | String a s' => (string_rev s' ++ String a EmptyString)%string
  end.

(** [strings.TrimLeftFunc(s, unicode.IsSpace)]. *)
Definition trim_left (s : string) : string := trim_start space2 space3 s.

(** [strings.TrimRightFunc(s, unicode.IsSpace)]: from the end of the
    string the bytes of a rune are met last byte first. *)
Definition trim_right (s : string) : string :=
  string_rev
    (trim_start (fun a b => space2 b a) (fun a b c => space3 c b a)
       (string_rev s)).

(** [strings.TrimSpace]: the white space of [unicode.IsSpace] is removed
    at both ends; a byte that is not part of a valid encoding of one of
    its runes is kept. *)
Definition TrimSpace (s : string) : string := trim_right (trim_left s).

(** No white-space rune occurs in the string. *)
Fixpoint no_space (s : string) : bool :=
  match s with
  | EmptyString => true
  | String _ s' => negb (starts_with_space space2 space3 s) && no_space s'
  end.


(** [strings.Split(s, sep)] for a separator of one byte. *)
Fixpoint Split (s : string) (sep : ascii) : list string :=
  match s with
  | EmptyString => [EmptyString]
  | String c s' =>
    if Ascii.eqb c sep then EmptyString :: Split s' sep
    else
      match Split s' sep with
      | h :: t => String c h :: t
      | [] => [String c EmptyString]
      end
  end.

(** [strings.Join]. *)
Definition Join (l : list string) (sep : string) : string := String.concat sep l.

(** [strings.HasPrefix(s, p)]. *)
Definition HasPrefix (s p : string) : bool := String.prefix p s.

Definition to_upper (c : ascii) : ascii :=
  let n := nat_of_ascii c in
  if ((97 <=? n) && (n <=? 122))%nat then ascii_of_nat (n - 32) else c.

(** What [strings.ToUpper] returns for a string of ASCII bytes. *)
Fixpoint ToUpper_ascii (s : string) : string :=
  match s with
  | EmptyString => EmptyString
  | String c s' => String (to_upper c) (ToUpper_ascii s')
  end.

Definition is_empty (s : string) : bool :=
  match s with
  | EmptyString => true
  | _ => false
  end.

(** [strings.HasSuffix(s, suffix)]. *)
Definition HasSuffix (s suffix : string) : bool :=
  let n := String.length s in
  let k := String.length suffix in
  ((k <=? n)%nat && String.eqb (substring (n - k) k s) suffix)%bool.

(** The byte [c] occurs in [s]. *)
Fixpoint has_byte (c : ascii) (s : string) : bool :=
  match s with
  | EmptyString => false
  | String a s' => Ascii.eqb a c || has_byte c s'
  end.

(** The text of [s] before the first [c], all of [s] if there is none. *)
Fixpoint before_byte (c : ascii) (s : string) : string :=
  match s with
  | EmptyString => EmptyString
  | String a s' => if Ascii.eqb a c then EmptyString else String a (before_byte c s')
  end.

(** [strconv.Atoi]: an optional sign and decimal digits, within the
    64 bits of an int; [None] stands for a non-nil error. *)
Definition Atoi (s : string) : option Z :=
  let '(negative, digits) :=
    match s with
    | String c s' =>
      if Ascii.eqb c (ascii_of_nat 45) then (true, s')
      else if Ascii.eqb c (ascii_of_nat 43) then (false, s')
      else (false, s)
    | EmptyString => (false, s)
    end in
  match digits with
  | EmptyString => None
  | _ =>
    match parse_digits digits 0 with
    | Some n =>
      let z := if negative then (- Z.of_N n)%Z else Z.of_N n in
      if ((- 2 ^ 63 <=? z) && (z <=? 2 ^ 63 - 1))%Z then Some z else None
    | None => None
    end
  end.

(** Every byte of [s] satisfies [p]. *)
Fixpoint all_bytes (p : ascii -> bool) (s : string) : bool :=
  match s with
  | EmptyString => true
  | String a s' => p a && all_bytes p s'
  end.

(** The number of bytes [c] in [s]. *)
Fixpoint count_byte (c : ascii) (s : string) : nat :=
  match s with
  | EmptyString => O
  | String a s' => (if Ascii.eqb a c then 1 else 0) + count_byte c s'
  end.

End GoStrings.

(* ================================================================= *)
(** ** internal/handlers: the HTTP resolve endpoint *)

Module Handlers.

(** The status code and the one field of the JSON body. *)
Record Response := {
  code : Z;
  body_key : string;
  body_text : string
}.

Definition StatusOK : Z := 200.
Definition StatusBadRequest : Z := 400.
Definition StatusInternalServerError : Z := 500.

(** [AlertHandler.ResolveAlert]; [idStr] is [c.Param("id")]. *)
Definition ResolveAlert (idStr : string) (db_err : option error) (now : Time)
    (db : AlertsTable) : Response * AlertsTable * list LogLine :=
  match GoStrings.ParseUint idStr 32 with
  | None =>
    ({| code := StatusBadRequest; body_key := "error";
        body_text := "Invalid alert ID" |}, db, [])
  | Some id =>
    match Alerts.ResolveAlert db_err now id db with
    | (Some e, db') =>
      ({| code := StatusInternalServerError; body_key := "error";
          body_text := "Failed to resolve alert" |}, db',
       [LError "Failed to resolve alert" e id])
    | (None, db') =>
      ({| code := StatusOK; body_key := "message";
          body_text := "Alert resolved successfully" |}, db', [])
    end
  end.

(** [AlertHandler.AcknowledgeAlert]. *)
Definition AcknowledgeAlert (idStr : string) (db_err : option error) (now : Time)
    (db : AlertsTable) : Response * AlertsTable * list LogLine :=
  match GoStrings.ParseUint idStr 32 with
  | None =>
    ({| code := StatusBadRequest; body_key := "error";
        body_text := "Invalid alert ID" |}, db, [])
  | Some id =>
    match Alerts.AcknowledgeAlert db_err now id db with
    | (Some e, db') =>
      ({| code := StatusInternalServerError; body_key := "error";
          body_text := "Failed to acknowledge alert" |}, db',
       [LError "Failed to acknowledge alert" e id])
    | (None, db') =>
      ({| code := StatusOK; body_key := "message";
          body_text := "Alert acknowledged successfully" |}, db', [])
    end
  end.

Definition StatusNotFound : Z := 404.

(** [AlertHandler.GetAlertByID]: the status code with the alert of the
    body, or with the text of the error body.  Every error of the
    repository is answered 404. *)
Definition GetAlertByID (idStr : string) (db_err : option error)
    (db : AlertsTable) : Z * (option Alert + string) * list LogLine :=
  match GoStrings.ParseUint idStr 32 with
  | None => (StatusBadRequest, inr "Invalid alert ID"%string, [])
  | Some id =>
    match Alerts.GetAlertByID db_err id db with
    | (_, Some e) =>
      (StatusNotFound, inr "Alert not found"%string,
       [LError "Failed to get alert" e id])
    | (alert, None) => (StatusOK, inl alert, [])
    end
  end.

End Handlers.

(* ================================================================= *)
(** ** internal/database/logs and the batch path of the log handler *)

Module Logs.

(** The [logs] table as the INSERT statements it received, each with
    its rows in order. *)
Definition LogsTable := list (list Log).

(** The slices of [CreateInBatches(value, batchSize)]. *)
Fixpoint chunk_fuel (fuel : nat) (size : nat) (l : list Log) : list (list Log) :=
  match fuel with
  | O => []
  | S fuel' =>
    match l with
    | [] => []
    | _ => firstn size l :: chunk_fuel fuel' size (skipn size l)
    end
  end.

Definition CreateInBatches (l : list Log) (size : nat) : list (list Log) :=
  chunk_fuel (List.length l) size l.

(** [CreateLogBatch]: nothing is sent for an empty slice; otherwise the
    INSERTs of [CreateInBatches(logs, 100)] run in one transaction. *)
Definition CreateLogBatch (db_err : option error) (logs : list Log)
    (db : LogsTable) : option error * LogsTable :=
  if (List.length logs =? 0)%nat then (None, db)
  else
    match db_err with
    | Some e => (Some (wrap_error "failed to create log batch" e), db)
    | None => (None, db ++ CreateInBatches logs 100)
    end.

(** [LogHandler.HandleLogBatch]. *)
Definition HandleLogBatch (db_err : option error) (logs : list Log)
    (db : LogsTable) : option error * LogsTable * list LogLine :=
  match CreateLogBatch db_err logs db with
  | (Some e, db') =>
    (Some e, db',
     [LError "Failed to store log batch" e (N.of_nat (List.length logs))])
  | (None, db') =>
    (None, db',
     [LInfo "Log batch processed successfully" (N.of_nat (List.length logs))])
  end.

(** The rows of the table, in insertion order. *)
Definition log_rows (db : LogsTable) : list Log := List.concat db.

(** [models.LogFilter]. *)
Record LogFilter := {
  lf_Level : option string;
  lf_Service : option string;
  lf_TraceID : option string;
  lf_UserID : option string;
  lf_StartTime : option Time;
  lf_EndTime : option Time;
  lf_Search : option string;
  lf_Limit : Z;
  lf_Offset : Z
}.

(** [Order("timestamp DESC")]. *)
Fixpoint insert_newest_first (l : Log) (logs : list Log) : list Log :=
  match logs with
  | [] => [l]
  | b :: logs' =>
    if Timestamp b <? Timestamp l then l :: b :: logs'
    else b :: insert_newest_first l logs'
  end.

Fixpoint order_timestamp_desc (logs : list Log) : list Log :=
  match logs with
  | [] => []
  | l :: logs' => insert_newest_first l (order_timestamp_desc logs')
  end.

(** [b] has no later timestamp than [a]. *)
Definition not_later (a b : Log) : Prop := Timestamp b <= Timestamp a.

Section Queries.

(** What the server decides: [column = ?] on strings, under the
    collation of the column, and
    [MATCH(message) AGAINST(? IN BOOLEAN MODE)]. *)
Variable sql_eq : string -> string -> bool.
Variable match_against : string -> string -> bool.

(** [column = ?] on a column that can be NULL. *)
Definition sql_eq_nullable (column : option string) (v : string) : bool :=
  match column with
  | Some c => sql_eq c v
  | None => false
  end.

(** The WHERE clauses of [GetLogs], one per filter field that is set. *)
Definition log_matches (f : LogFilter) (l : Log) : bool :=
  where_opt (lf_Level f) (fun v => sql_eq (Level l) v)
  && where_opt (lf_Service f) (fun v => sql_eq (Service l) v)
  && where_opt (lf_TraceID f) (fun v => sql_eq_nullable (TraceID l) v)
  && where_opt (lf_UserID f) (fun v => sql_eq_nullable (UserID l) v)
  && where_opt (lf_StartTime f) (fun t => t <=? Timestamp l)
  && where_opt (lf_EndTime f) (fun t => Timestamp l <=? t)
  && where_opt (lf_Search f) (fun v => match_against (log_Message l) v).

(** [GetLogs] of the repository: LIMIT for a positive limit, OFFSET for
    a positive offset. *)
Definition GetLogs (db_err : option error) (f : LogFilter) (db : LogsTable)
    : list Log * option error :=
  match db_err with
  | Some e => ([], Some (wrap_error "failed to get logs" e))
  | None =>
    let found := order_timestamp_desc (filter (log_matches f) (log_rows db)) in
    let skipped :=
      if 0 <? lf_Offset f then skipn (Z.to_nat (lf_Offset f)) found else found in
    (if 0 <? lf_Limit f then firstn (Z.to_nat (lf_Limit f)) skipped else skipped,
     None)
  end.

End Queries.

End Logs.

(* ================================================================= *)
(** ** internal/handlers: the log query endpoint *)

Module LogHandler.

Import Logs.

Section Queries.

Variable sql_eq : string -> string -> bool.
Variable match_against : string -> string -> bool.

(** [time.Parse(time.RFC3339, s)]. *)
Variable time_Parse : string -> option Time.

(** A query parameter that is set. *)
Definition param (query : string -> string) (key : string) : option string :=
  if GoStrings.is_empty (query key) then None else Some (query key).

(** The filter [LogHandler.GetLogs] builds; [query key] is
    [c.Query(key)], empty for a parameter that is not given. *)
Definition parse_filter (query : string -> string) : LogFilter :=
  {| lf_Level := param query "level";
     lf_Service := param query "service";
     lf_TraceID := param query "trace_id";
     lf_UserID := param query "user_id";
     lf_StartTime :=
       if GoStrings.is_empty (query "start_time"%string) then None
       else time_Parse (query "start_time"%string);
     lf_EndTime :=
       if GoStrings.is_empty (query "end_time"%string) then None
       else time_Parse (query "end_time"%string);
     lf_Search := param query "search";
     lf_Limit :=
       if GoStrings.is_empty (query "limit"%string) then 100
       else
         match GoStrings.Atoi (query "limit"%string) with
         | Some limit => if 0 <? limit then limit else 0
         | None => 0
         end;
     lf_Offset :=
       if GoStrings.is_empty (query "offset"%string) then 0
       else
         match GoStrings.Atoi (query "offset"%string) with
         | Some offset => if 0 <=? offset then offset else 0
         | None => 0
         end |}.

(** The body of the 200 answer of [LogHandler.GetLogs]. *)
Record LogsBody := {
  body_logs : list Log;
  body_count : Z;
  body_filter : LogFilter
}.

(** [LogHandler.GetLogs]: the status code with the body, or with the
    text of the error body. *)
Definition GetLogs (query : string -> string) (db_err : option error)
    (db : LogsTable) : Z * (LogsBody + string) * list LogLine :=
  let f := parse_filter query in
  match Logs.GetLogs sql_eq match_against db_err f db with
  | (_, Some e) =>
    (500, inr "Failed to retrieve logs"%string,
     [LError "Failed to get logs" e 0%N])
  | (responseLogs, None) =>
    (200,
     inl {| body_logs := responseLogs;
            body_count := Z.of_nat (List.length responseLogs);
            body_filter := f |}, [])
  end.

End Queries.

End LogHandler.

(* ================================================================= *)
(** ** internal/consumers: the batch consumer *)

Module Consumers.

Import Logs.

Definition DefaultBatchSize : Z := 20.

(** What one iteration of the select loop of [ConsumeClaim] receives. *)
Inductive Event :=
| Message (value : string) (now_ts now_created : Time)
    (* <-claim.Messages(), with the two readings of time.Now() *)
| TimerFired                      (* <-timer.C *)
| ContextDone.                    (* <-session.Context().Done() *)

Record ClaimState := {
  batch : list Log;                 (* the buffer *)
  marked : list string;             (* session.MarkMessage, in order *)
  flush_calls : list (list Log);    (* the arguments of processBatch *)
  logs_db : LogsTable;
  out : list LogLine
}.

Definition init_state (db : LogsTable) : ClaimState :=
  {| batch := []; marked := []; flush_calls := []; logs_db := db; out := [] |}.

(** The metadata added to a decoded record. *)
Definition stamp (log : Log) (now_ts now_created : Time) : Log :=
  {| log_ID := log_ID log;
     Timestamp := if IsZero (Timestamp log) then now_ts else Timestamp log;
     Level := Level log; Service := Service log;
     log_Message := log_Message log;
     TraceID := TraceID log; UserID := UserID log;
     RequestMethod := RequestMethod log; RequestPath := RequestPath log;
     ResponseStatus := ResponseStatus log;
     ResponseTimeMs := ResponseTimeMs log;
     log_CreatedAt :=
       if IsZero (log_CreatedAt log) then now_created else log_CreatedAt log |}.

(** [s.processBatch(ctx, batch)] and the logging of its error;
    [flush_fail k] is the failure of the k-th call, if any.  The buffer
    is left as it is. *)
Definition processBatch (flush_fail : nat -> option error) (what : string)
    (st : ClaimState) : ClaimState :=
  let k := List.length (flush_calls st) in
  let '(err, db', lg) := HandleLogBatch (flush_fail k) (batch st) (logs_db st) in
  {| batch := batch st;
     marked := marked st;
     flush_calls := flush_calls st ++ [batch st];
     logs_db := db';
     out := out st ++ lg ++
            match err with
            | Some e => [LError what e (N.of_nat (List.length (batch st)))]
            | None => []
            end |}.

(** [batch = batch[:0]]. *)
Definition clear (st : ClaimState) : ClaimState :=
  {| batch := []; marked := marked st; flush_calls := flush_calls st;
     logs_db := logs_db st; out := out st |}.

Section WithRuntime.
Context {rt : GoRuntime}.

(** The case [message := <-claim.Messages()]. *)
Definition on_message (batchSize : Z) (flush_fail : nat -> option error)
    (value : string) (now_ts now_created : Time) (st : ClaimState)
    : ClaimState :=
  match json_Unmarshal_Log value with
  | None =>
    {| batch := batch st; marked := marked st ++ [value];
       flush_calls := flush_calls st; logs_db := logs_db st;
       out := out st ++ [LError "Failed to unmarshal log" "invalid JSON"%string 0%N] |}
  | Some log =>
    let st1 :=
      {| batch := batch st ++ [stamp log now_ts now_created];
         marked := marked st ++ [value];
         flush_calls := flush_calls st; logs_db := logs_db st;
         out := out st |} in
    if batchSize <=? Z.of_nat (List.length (batch st1)) then
      clear (processBatch flush_fail "Failed to process batch" st1)
    else st1
  end.

(** The case [<-timer.C]. *)
Definition on_timer (flush_fail : nat -> option error) (st : ClaimState)
    : ClaimState :=
  if (0 <? List.length (batch st))%nat then
    clear (processBatch flush_fail "Failed to process batch on timeout" st)
  else st.

(** The case [<-session.Context().Done()]. *)
Definition on_done (flush_fail : nat -> option error) (st : ClaimState)
    : ClaimState :=
  if (0 <? List.length (batch st))%nat then
    processBatch flush_fail "Failed to process final batch" st
  else st.

(** [ConsumeClaim] over the events its select receives, in order.  The
    boolean tells whether the function has returned; with no event
    left it is waiting in the select. *)
Fixpoint consume (batchSize : Z) (flush_fail : nat -> option error)
    (events : list Event) (st : ClaimState) : ClaimState * bool :=
  match events with
  | [] => (st, false)
  | Message value now_ts now_created :: rest =>
    consume batchSize flush_fail rest
      (on_message batchSize flush_fail value now_ts now_created st)
  | TimerFired :: rest =>
    consume batchSize flush_fail rest (on_timer flush_fail st)
  | ContextDone :: _ => (on_done flush_fail st, true)
  end.

Definition ConsumeClaim (batchSize : Z) (flush_fail : nat -> option error)
    (events : list Event) (db : LogsTable) : ClaimState * bool :=
  consume batchSize flush_fail events (init_state db).

(** The records that enter the buffer: the messages that decode, with
    their metadata, in arrival order. *)
Fixpoint records_of (events : list Event) : list Log :=
  match events with
  | [] => []
  | Message value now_ts now_created :: rest =>
    match json_Unmarshal_Log value with
    | Some log => stamp log now_ts now_created :: records_of rest
    | None => records_of rest
    end
  | _ :: rest => records_of rest
  end.

End WithRuntime.

Definition is_message (e : Event) : bool :=
  match e with
  | Message _ _ _ => true
  | _ => false
  end.

(** A flushed batch holds exactly [batchSize] records. *)
Definition full (batchSize : Z) (b : list Log) : Prop := Z.of_nat (List.length b) = batchSize.

(** Between two events: the buffer is below the maximum and every batch
    flushed so far was full. *)
Definition accumulating (batchSize : Z) (st : ClaimState) : Prop :=
  Z.of_nat (List.length (batch st)) < batchSize /\ Forall (full batchSize) (flush_calls st).

(** Every flush so far reached the table as one INSERT of its batch. *)
Definition stored (db : LogsTable) (st : ClaimState) : Prop :=
  logs_db st = (db ++ flush_calls st)%list.

(** The flush of the last event, a timer tick or the end of the session. *)
Definition final_flush (st : ClaimState) : list (list Log) :=
  if (0 <? List.length (batch st))%nat
  then (flush_calls st ++ [batch st])%list
  else flush_calls st.

(** The values of the messages received, in order. *)
Definition values_of (events : list Event) : list string :=
  flat_map (fun e =>
              match e with
              | Message value _ _ => [value]
              | _ => []
              end) events.

Definition is_done (e : Event) : bool :=
  match e with
  | ContextDone => true
  | _ => false
  end.

(** The batches among [calls], the calls numbered from [k], whose insert
    did not fail. *)
Fixpoint succeeded (flush_fail : nat -> option error) (k : nat)
    (calls : list (list Log)) : list (list Log) :=
  match calls with
  | [] => []
  | b :: rest =>
    match flush_fail k with
    | None => b :: succeeded flush_fail (S k) rest
    | Some _ => succeeded flush_fail (S k) rest
    end
  end.

(** Between two events, whatever their order: the buffer is below the
    maximum, the batches flushed so far are not empty and not above it,
    the batches and the buffer together are the records [recs] received
    so far, the messages marked are [vals], and the table has gained the
    batches whose insert did not fail. *)
Definition settled (batchSize : Z) (flush_fail : nat -> option error)
    (db : LogsTable) (recs : list Log) (vals : list string)
    (st : ClaimState) : Prop :=
  Z.of_nat (List.length (batch st)) < batchSize /\
  (forall b, In b (flush_calls st) ->
     b <> [] /\ Z.of_nat (List.length b) <= batchSize) /\
  (List.concat (flush_calls st) ++ batch st)%list = recs /\
  marked st = vals /\
  log_rows (logs_db st) =
    (log_rows db ++ List.concat (succeeded flush_fail 0 (flush_calls st)))%list.

(** Two states of the loop with the same buffer, flushes and table. *)
Definition same_work (st st' : ClaimState) : Prop :=
  batch st' = batch st /\ flush_calls st' = flush_calls st /\
  logs_db st' = logs_db st.

End Consumers.

(* ================================================================= *)
(** ** cmd/migration: the migration runner *)

Module Migration.

Import GoStrings.

Record Migration := {
  mig_ID : string;
  Filename : string;
  Content : string
}.

(** What the server has executed: a statement sent on the connection
    outside any transaction, or a committed transaction with its
    operations in order. *)
Inductive TxOp :=
| TxExec (statement : string)
| TxRecord (id filename checksum : string).
    (* INSERT INTO migrations (id, filename, checksum) VALUES (?, ?, ?) *)

Inductive DbEvent :=
| Direct (statement : string)
| Committed (ops : list TxOp).

Definition History := list DbEvent.

(** The failures of the driver calls of one [ApplyMigration]. *)
Record MigEnv := {
  begin_err : option error;
  exec_err : nat -> string -> option error;   (* by statement index and text *)
  record_err : option error;
  commit_err : option error
}.

Definition semicolon : ascii := ascii_of_nat 59.
Definition newline : ascii := ascii_of_nat 10.

Definition keep_nonempty_trimmed (l : list string) : list string :=
  filter (fun s => negb (is_empty s)) (map TrimSpace l).

(** [splitSQLStatements]. *)
Definition splitSQLStatements (content : string) : list string :=
  let lines := Split content newline in
  let cleanLines :=
    filter (fun line => negb (is_empty line || HasPrefix line "--"))
           (map TrimSpace lines) in
  let cleanContent := Join cleanLines " " in
  let statements := Split cleanContent semicolon in
  keep_nonempty_trimmed statements.

Section WithRuntime.
Context {rt : GoRuntime}.

(** [executeStatement]: a USE statement goes to the connection, any other
    statement into the transaction.  The result is the error and what
    was added to either. *)
Definition executeStatement (err : option error) (statement : string)
    : option error * list DbEvent * list TxOp :=
  let statement := TrimSpace statement in
  if is_empty statement then (None, [], [])
  else if HasPrefix (strings_ToUpper statement) "USE " then
    match err with
    | Some e => (Some (wrap_error "failed to execute USE statement" e), [], [])
    | None => (None, [Direct statement], [])
    end
  else
    match err with
    | Some e => (Some (wrap_error "failed to execute statement" e), [], [])
    | None => (None, [], [TxExec statement])
    end.

(** The loop over the statements, from index [i]. *)
Fixpoint exec_statements (env : MigEnv) (id : string) (i : nat)
    (statements : list string)
    : option error * list DbEvent * list TxOp :=
  match statements with
  | [] => (None, [], [])
  | statement :: rest =>
    let statement := TrimSpace statement in
    if is_empty statement then exec_statements env id (S i) rest
    else
      match executeStatement (exec_err env i statement) statement with
      | (Some e, direct, tx) =>
        (Some (wrap_error
                 ("failed to execute migration " ++ id ++ " statement " ++
                  Itoa (i + 1))%string e), direct, tx)
      | (None, direct, tx) =>
        let '(err, direct', tx') := exec_statements env id (S i) rest in
        (err, direct ++ direct', tx ++ tx')
      end
  end.

Definition commit (env : MigEnv) (id : string) (h : History) (tx : list TxOp)
    : option error * History :=
  match commit_err env with
  | Some e =>
    (Some (wrap_error ("failed to commit migration " ++ id)%string e), h)
  | None => (None, h ++ [Committed tx])
  end.

(** [generateChecksum]. *)
Definition generateChecksum (content : string) : string := sha256_hex content.

(** [ApplyMigration].  The deferred [tx.Rollback()] drops the pending
    operations on every error path. *)
Definition ApplyMigration (env : MigEnv) (migration : Migration)
    (h : History) : option error * History :=
  match begin_err env with
  | Some e => (Some (wrap_error "failed to begin transaction" e), h)
  | None =>
    let statements := splitSQLStatements (Content migration) in
    match exec_statements env (mig_ID migration) 0 statements with
    | (Some e, direct, _) => (Some e, h ++ direct)
    | (None, direct, tx) =>
      if String.eqb (mig_ID migration) "000" then
        commit env (mig_ID migration) (h ++ direct) tx
      else if String.eqb (mig_ID migration) "001" then
        commit env (mig_ID migration) (h ++ direct) tx
      else
        match record_err env with
        | Some e =>
          (Some (wrap_error
                   ("failed to record migration " ++ mig_ID migration)%string e),
           h ++ direct)
        | None =>
          commit env (mig_ID migration) (h ++ direct)
            (tx ++ [TxRecord (mig_ID migration) (Filename migration)
                      (generateChecksum (Content migration))])
        end
    end
  end.

(** The test of [executeStatement] for a USE statement. *)
Definition is_use (statement : string) : bool :=
  HasPrefix (strings_ToUpper statement) "USE ".

(** The migration is recorded in the same transaction as its statements:
    one committed transaction of the history holds every statement of
    the migration and the insert into the tracking table. *)
Definition recorded_with_statements (m : Migration) (h : History) : Prop :=
  exists ops,
    In (Committed ops) h /\
    In (TxRecord (mig_ID m) (Filename m) (generateChecksum (Content m))) ops /\
    forall statement,
      In statement (splitSQLStatements (Content m)) -> In (TxExec statement) ops.

End WithRuntime.

(** The rows of the [migrations] tracking table. *)
Definition records_of_tx (ops : list TxOp) : list (string * string * string) :=
  flat_map (fun op =>
              match op with
              | TxRecord id fn cs => [(id, fn, cs)]
              | TxExec _ => []
              end) ops.

Definition tracking (h : History) : list (string * string * string) :=
  flat_map (fun ev =>
              match ev with
              | Committed ops => records_of_tx ops
              | Direct _ => []
              end) h.

(** The statements the server has executed, in order. *)
Definition statements_of_tx (ops : list TxOp) : list string :=
  flat_map (fun op =>
              match op with
              | TxExec s => [s]
              | TxRecord _ _ _ => []
              end) ops.

Definition executed (h : History) : list string :=
  flat_map (fun ev =>
              match ev with
              | Committed ops => statements_of_tx ops
              | Direct s => [s]
              end) h.

(** No driver call of the [ApplyMigration] fails. *)
Definition no_failure (env : MigEnv) : Prop :=
  begin_err env = None /\
  (forall i statement, exec_err env i statement = None) /\
  record_err env = None /\
  commit_err env = None.

Definition is_direct (ev : DbEvent) : Prop :=
  match ev with
  | Direct _ => True
  | Committed _ => False
  end.

Definition is_exec (op : TxOp) : Prop :=
  match op with
  | TxExec _ => True
  | TxRecord _ _ _ => False
  end.

(** A statement as [splitSQLStatements] returns it. *)
Definition trimmed (s : string) : Prop :=
  TrimSpace s = s /\ is_empty s = false.

(** An entry of [ioutil.ReadDir], with what [ioutil.ReadFile] gives for
    it. *)
Record DirEntry := {
  file_Name : string;
  file_IsDir : bool;
  read_content : string;
  read_err : option error
}.

Definition underscore : ascii := ascii_of_nat 95.

(** The loop of [LoadMigrations] over the entries; [migrations] is the
    slice built so far. *)
Fixpoint load_files (files : list DirEntry) (migrations : list Migration)
    : list Migration * option error :=
  match files with
  | [] => (migrations, None)
  | file :: rest =>
    if file_IsDir file || negb (HasSuffix (file_Name file) ".sql") then
      load_files rest migrations
    else
      let parts := Split (file_Name file) underscore in
      if (List.length parts <? 2)%nat then load_files rest migrations
      else
        let migrationID := hd EmptyString parts in
        match read_err file with
        | Some e =>
          ([], Some (wrap_error
                       ("failed to read migration file " ++ file_Name file)%string e))
        | None =>
          load_files rest
            (migrations ++
             [{| mig_ID := migrationID; Filename := file_Name file;
                 Content := read_content file |}])
        end
  end.

(** The [less] of the [sort.Slice] call: by id, as byte strings. *)
Definition id_less (a b : Migration) : bool := String.ltb (mig_ID a) (mig_ID b).

(** [LoadMigrations]; [read_dir] is the result of [ioutil.ReadDir] and
    [sort_Slice] is [sort.Slice]. *)
Definition LoadMigrations
    (sort_Slice : list Migration -> (Migration -> Migration -> bool) -> list Migration)
    (read_dir : list DirEntry * option error)
    : list Migration * option error :=
  match read_dir with
  | (_, Some e) => ([], Some (wrap_error "failed to read migrations directory" e))
  | (files, None) =>
    match load_files files [] with
    | (_, Some e) => ([], Some e)
    | (migrations, None) => (sort_Slice migrations id_less, None)
    end
  end.

(** The ids of the rows of the tracking table. *)
Definition applied_ids (h : History) : list string :=
  map (fun row => fst (fst row)) (tracking h).

(** [GetAppliedMigrations]: the ids of [SELECT id FROM migrations], the
    keys of the map it builds; [err] is the failure of the query. *)
Definition GetAppliedMigrations (err : option error) (h : History)
    : list string * option error :=
  match err with
  | Some e => ([], Some e)
  | None => (applied_ids h, None)
  end.

(** [applied[id]]. *)
Definition is_applied (applied : list string) (id : string) : bool :=
  existsb (String.eqb id) applied.

Definition is_bootstrap (id : string) : bool :=
  String.eqb id "000" || String.eqb id "001".

(** What one [RunMigrations] observes of the outside world. *)
Record RunEnv := {
  mig_env : nat -> MigEnv;           (* ApplyMigration of the i-th migration *)
  reconnect_err : option error;      (* reconnectToDatabase *)
  applied_err : nat -> option error  (* GetAppliedMigrations: 0 before the
                                        loop, S i at the i-th migration *)
}.

(** A migration as the files name it. *)
Definition migration_of (file : DirEntry) : Migration :=
  {| mig_ID := before_byte underscore (file_Name file);
     Filename := file_Name file;
     Content := read_content file |}.

(** The entries [LoadMigrations] takes: files named *.sql with an
    underscore in the name. *)
Definition is_migration_file (file : DirEntry) : bool :=
  negb (file_IsDir file) && HasSuffix (file_Name file) ".sql" &&
  has_byte underscore (file_Name file).

(** [b] does not sort before [a]. *)
Definition id_not_after (a b : Migration) : Prop := id_less b a = false.

Section Runner.
Context {rt : GoRuntime}.

(** The loop of [RunMigrations], from index [i], with the set [applied]
    as it is at that point. *)
Fixpoint run_pending (env : RunEnv) (i : nat) (migrations : list Migration)
    (applied : list string) (h : History) : option error * History :=
  match migrations with
  | [] => (None, h)
  | migration :: rest =>
    if (i <=? 1)%nat && is_bootstrap (mig_ID migration) then
      match ApplyMigration (mig_env env i) migration h with
      | (Some e, h') =>
        (Some (wrap_error
                 ("failed to apply migration " ++ mig_ID migration)%string e), h')
      | (None, h') =>
        if (i =? 0)%nat && String.eqb (mig_ID migration) "000" then
          match reconnect_err env with
          | Some e =>
            (Some (wrap_error "failed to reconnect to database" e), h')
          | None => run_pending env (S i) rest applied h'
          end
        else run_pending env (S i) rest applied h'
      end
    else
      match
        (if (List.length applied =? 0)%nat
         then GetAppliedMigrations (applied_err env (S i)) h
         else (applied, None))
      with
      | (_, Some e) =>
        (Some (wrap_error "failed to get applied migrations" e), h)
      | (applied', None) =>
        if is_applied applied' (mig_ID migration) then
          run_pending env (S i) rest applied' h
        else
          match ApplyMigration (mig_env env i) migration h with
          | (Some e, h') =>
            (Some (wrap_error
                     ("failed to apply migration " ++ mig_ID migration)%string e),
             h')
          | (None, h') => run_pending env (S i) rest applied' h'
          end
      end
  end.

(** [RunMigrations]; [loaded] is the result of [LoadMigrations]. *)
Definition RunMigrations (env : RunEnv)
    (loaded : list Migration * option error) (h : History)
    : option error * History :=
  match loaded with
  | (_, Some e) => (Some (wrap_error "failed to load migrations" e), h)
  | ([], None) => (None, h)
  | (first :: rest, None) =>
    if is_bootstrap (mig_ID first) then
      run_pending env 0 (first :: rest) [] h
    else
      match GetAppliedMigrations (applied_err env 0) h with
      | (_, Some e) =>
        (Some (wrap_error "failed to get applied migrations" e), h)
      | (applied, None) => run_pending env 0 (first :: rest) applied h
      end
  end.

(** The row [ApplyMigration] records for a migration. *)
Definition record_of (m : Migration) : string * string * string :=
  (mig_ID m, Filename m, generateChecksum (Content m)).

End Runner.

(** [ShowStatus]: the id, the file name and the status of each line it
    logs.  A failing reconnect is taken for a missing database. *)
Definition ShowStatus (loaded : list Migration * option error)
    (reconnect : option error) (applied_query : option error) (h : History)
    : option error * list (string * string * string) :=
  match loaded with
  | (_, Some e) => (Some (wrap_error "failed to load migrations" e), [])
  | (migrations, None) =>
    match reconnect with
    | Some _ =>
      (None, map (fun m => (mig_ID m, Filename m, "PENDING"%string)) migrations)
    | None =>
      match GetAppliedMigrations applied_query h with
      | (_, Some e) =>
        (Some (wrap_error "failed to get applied migrations" e), [])
      | (applied, None) =>
        (None,
         map (fun m =>
                (mig_ID m, Filename m,
                 if is_applied applied (mig_ID m)
                 then "APPLIED"%string else "PENDING"%string)) migrations)
      end
    end
  end.

(** A migration that [RunMigrations] has to record: not one of the two
    bootstrap ids and not in the tracking table [h] has. *)
Definition pending (h : History) (m : Migration) : bool :=
  negb (is_bootstrap (mig_ID m)) && negb (is_applied (applied_ids h) (mig_ID m)).

(** The set [applied] the loop of [RunMigrations] holds is empty (and
    will be read again) or tells for every migration still to come
    whether the tracking table has it. *)
Definition applied_is_current (applied : list string) (h : History)
    (rest : list Migration) : Prop :=
  applied = [] \/
  forall m, In m rest ->
    is_applied applied (mig_ID m) = is_applied (applied_ids h) (mig_ID m).

End Migration.

(* ================================================================= *)
(** ** internal/config: values from the environment *)

Module Config.

Import GoStrings.

Definition comma : ascii := ascii_of_nat 44.

(** [getEnv]; [getenv] is [os.Getenv]. *)
Definition getEnv (getenv : string -> string) (key defaultValue : string)
    : string :=
  if is_empty (getenv key) then defaultValue else getenv key.

(** [getEnvAsInt]. *)
Definition getEnvAsInt (getenv : string -> string) (key : string)
    (defaultValue : Z) : Z :=
  if is_empty (getenv key) then defaultValue
  else
    match Atoi (getenv key) with
    | Some intValue => intValue
    | None => defaultValue
    end.

(** [getEnvAsSlice]. *)
Definition getEnvAsSlice (getenv : string -> string) (key : string)
    (defaultValue : list string) : list string :=
  if is_empty (getenv key) then defaultValue
  else map TrimSpace (Split (getenv key) comma).


End Config.

(* ================================================================= *)
(** ** The alert lifecycle as a transition system *)

Module Lifecycle.

(** The alert is active and references the rule. *)
Definition is_active_for (rule_id : uint) (a : Alert) : bool :=
  (RuleID a =? rule_id)%N && String.eqb (Status a) "active".

Definition active_alerts (rule_id : uint) (db : AlertsTable) : list Alert :=
  filter (is_active_for rule_id) (rows db).

(** At most one alert with status active per rule. *)
Definition one_active_per_rule (db : AlertsTable) : Prop :=
  forall rule_id, (List.length (active_alerts rule_id db) <= 1)%nat.

(** The primary keys are below the AUTO_INCREMENT counter and pairwise
    distinct. *)
Definition well_keyed (db : AlertsTable) : Prop :=
  NoDup (map ID (rows db)) /\
  forall a, In a (rows db) -> (ID a < next_id db)%N.

(** The operations that write the [alerts] table: the evaluator, one rule
    or one whole cycle at a time, and the two API calls. *)
Inductive Op :=
| OpEvaluate (env : EvalEnv) (rule : AlertRule)
| OpCheckRules (get_rules : list AlertRule * option error) (envs : nat -> EvalEnv)
| OpResolve (db_err : option error) (now : Time) (id : uint)
| OpAcknowledge (db_err : option error) (now : Time) (id : uint).

(** The fields of an alert that ResolveAlert never writes. *)
Definition same_but_resolution (a a' : Alert) : Prop :=
  ID a' = ID a /\ RuleID a' = RuleID a /\ Message a' = Message a /\
  Severity a' = Severity a /\ Value a' = Value a /\
  CreatedAt a' = CreatedAt a /\ AcknowledgedAt a' = AcknowledgedAt a.

(** The status is one of the three of the column's enum. *)
Definition valid_status (a : Alert) : Prop :=
  Status a = "active"%string \/ Status a = "resolved"%string \/
  Status a = "acknowledged"%string.

Definition statuses_valid (db : AlertsTable) : Prop :=
  Forall valid_status (rows db).

(** The fields of an alert that are set when it is created. *)
Definition same_identity (a a' : Alert) : Prop :=
  ID a' = ID a /\ RuleID a' = RuleID a /\ Message a' = Message a /\
  Severity a' = Severity a /\ Value a' = Value a /\ CreatedAt a' = CreatedAt a.

(** [db'] keeps the history of [db]: every row of [db] is still at its
    place with the fields of its creation, and a row that is active in
    [db'] is the row of [db] unchanged. *)
Definition keeps_history (db db' : AlertsTable) : Prop :=
  forall i a, nth_error (rows db) i = Some a ->
    exists a', nth_error (rows db') i = Some a' /\
      same_identity a a' /\
      (Status a' = "active"%string -> a' = a).

(** [b] is not newer than [a]. *)
Definition not_newer (a b : Alert) : Prop := CreatedAt b <= CreatedAt a.

(** The alerts of [l] whose ResolveAlert call does not fail. *)
Definition resolve_ok (env : EvalEnv) (a : Alert) : bool :=
  match resolve_fail env (ID a) with
  | None => true
  | Some _ => false
  end.

(** The row [b] once ResolveAlert has run for the ids of the alerts
    of [l]. *)
Definition resolved_by (env : EvalEnv) (l : list Alert) (b : Alert) : Alert :=
  if existsb (fun a => (ID a =? ID b)%N) l
  then resolve_row (resolve_now env (ID b)) b
  else b.

Section WithRuntime.
Context {rt : GoRuntime}.

(** The alert a triggered rule inserts. *)
Definition created_alert (env : EvalEnv) (rule : AlertRule) (v : float64)
    (db : AlertsTable) : Alert :=
  insert_row (next_id db) (create_db_now env) (new_alert env rule v).

Definition with_created (env : EvalEnv) (rule : AlertRule) (v : float64)
    (db : AlertsTable) : AlertsTable :=
  {| rows := rows db ++ [created_alert env rule v db];
     next_id := N.succ (next_id db) |}.

Definition run_op (op : Op) (db : AlertsTable) : AlertsTable :=
  match op with
  | OpEvaluate env rule => snd (fst (evaluateRule env rule db))
  | OpCheckRules get_rules envs => snd (fst (CheckAlertRules get_rules envs db))
  | OpResolve db_err now id => snd (ResolveAlert db_err now id db)
  | OpAcknowledge db_err now id => snd (AcknowledgeAlert db_err now id db)
  end.

(** What [evaluateRule] has decided once its reads (the aggregate query
    and [GetAlerts]) have returned, before it writes. *)
Inductive Decision :=
| DNothing                              (* no rows, or an alert is active *)
| DFail (e : error)
| DCreate (result : float64)
| DResolve (activeAlerts : list Alert).

(** The reads of [evaluateRule]. *)
Definition decision_of (env : EvalEnv) (rule : AlertRule) (db : AlertsTable)
    : Decision :=
  match query_row env (buildQuery rule (build_now env)) with
  | QNoRows => DNothing
  | QError e => DFail (wrap_error "failed to execute alert query" e)
  | QValue result =>
    match GetAlerts (get_alerts_fail env) (active_filter (rule_ID rule)) db with
    | (_, Some e) => DFail (wrap_error "failed to check existing alerts" e)
    | (activeAlerts, None) =>
      if float64_ge result (Threshold rule) then
        if (List.length activeAlerts =? 0)%nat then DCreate result else DNothing
      else DResolve activeAlerts
    end
  end.

(** The writes of [evaluateRule], on the table as it is when they run. *)
Definition carry_out (env : EvalEnv) (rule : AlertRule) (d : Decision)
    (db : AlertsTable) : option error * AlertsTable * list LogLine :=
  match d with
  | DNothing => (None, db, [])
  | DFail e => (Some e, db, [])
  | DCreate result =>
    match CreateAlert (create_fail env) (create_db_now env)
            (new_alert env rule result) db with
    | (Some e, db') => (Some (wrap_error "failed to create alert" e), db', [])
    | (None, db') => (None, db', [LInfo "Alert created" (rule_ID rule)])
    end
  | DResolve activeAlerts =>
    let '(db', lg) := resolve_each env activeAlerts db in
    (None, db', lg)
  end.

(** The calls of the API, which run in the server beside the evaluator. *)
Definition is_api (op : Op) : bool :=
  match op with
  | OpResolve _ _ _ | OpAcknowledge _ _ _ => true
  | _ => false
  end.

Definition run_ops (ops : list Op) (db : AlertsTable) : AlertsTable :=
  fold_left (fun db op => run_op op db) ops db.

(** The cycles the ticks of the checker start, as operations on the
    table. *)
Definition cycles_of (events : list CheckerEvent) : list Op :=
  flat_map (fun ev =>
              match ev with
              | Tick get_rules envs => [OpCheckRules get_rules envs]
              | CtxDone => []
              end) events.

(** The operation is a cycle in which the rule with the id [rule_id]
    is disabled: it is among the rules read, and not enabled. *)
Definition disabled_in (rule_id : uint) (op : Op) : Prop :=
  match op with
  | OpCheckRules (rules, _) _ =>
    (exists rule, In rule rules /\ rule_ID rule = rule_id) /\
    forall rule, In rule rules -> rule_ID rule = rule_id -> Enabled rule = false
  | _ => False
  end.

(** The states of the table when the operations run one after the
    other, from the empty table the schema migration creates. *)
Inductive reachable : AlertsTable -> Prop :=
| reachable_empty : reachable empty_table
| reachable_step : forall op db,
    reachable db -> reachable (run_op op db).

End WithRuntime.

End Lifecycle.

Export Lifecycle.

(* ================================================================= *)
(** ** Sample data *)

Module Samples.

Definition show_Z (z : Z) : string :=
  DecimalString.NilZero.string_of_int (Z.to_int z).

Definition sample_log (message : string) : Log :=
  {| log_ID := 0%N; Timestamp := zero_time; Level := "ERROR";
     Service := "api-gateway"; log_Message := message;
     TraceID := None; UserID := None; RequestMethod := None;
     RequestPath := None; ResponseStatus := None; ResponseTimeMs := None;
     log_CreatedAt := zero_time |}.

(** A stand-in for the Go standard library: an instant prints as its
    whole seconds since the epoch, a float as a fixed text, the checksum
    as the tagged content, and every message but "{" decodes. *)
Definition sample_runtime : GoRuntime :=
  {| time_Format := fun t => show_Z (t / Second);
     fmt_f2 := fun _ => "0.00"%string;
     sha256_hex := fun content => ("sha256:" ++ content)%string;
     json_Unmarshal_Log :=
       fun value => if String.eqb value "{" then None else Some (sample_log value);
     strings_ToUpper := GoStrings.ToUpper_ascii |}.

(** 3.0, 5.0 and 6.0 as binary64. *)
Definition f64_3 : float64 := S754_finite false 6755399441055744 (-51).
Definition f64_5 : float64 := S754_finite false 5629499534213120 (-50).
Definition f64_6 : float64 := S754_finite false 6755399441055744 (-50).

Definition sample_now : Time := 1700000000 * Second.

(** Two of the rules of the sample-rules migration. *)
Definition high_error_count : AlertRule :=
  {| rule_ID := 6%N; Name := "High Error Count";
     Description := "Alert when error count exceeds 5 in the last 5 minutes";
     Condition := "COUNT(CASE WHEN level = 'error' THEN 1 END)";
     Threshold := f64_5; TimeWindow := 5; rule_Severity := "high";
     Enabled := true; rule_CreatedAt := 0; rule_UpdatedAt := 0 |}.

(** The same rule once it has been disabled. *)
Definition high_error_count_disabled : AlertRule :=
  {| rule_ID := 6%N; Name := "High Error Count";
     Description := "Alert when error count exceeds 5 in the last 5 minutes";
     Condition := "COUNT(CASE WHEN level = 'error' THEN 1 END)";
     Threshold := f64_5; TimeWindow := 5; rule_Severity := "high";
     Enabled := false; rule_CreatedAt := 0; rule_UpdatedAt := 0 |}.

Definition fatal_errors : AlertRule :=
  {| rule_ID := 3%N; Name := "Fatal Errors";
     Description := "Alert when any fatal errors occur in the last 5 minutes";
     Condition := "COUNT(CASE WHEN level = 'fatal' THEN 1 END)";
     Threshold := f64_3; TimeWindow := 5; rule_Severity := "critical";
     Enabled := true; rule_CreatedAt := 0; rule_UpdatedAt := 0 |}.

(** A rule with a window of 153722868 minutes (about 292 years), which a
    MySQL INT column holds. *)
Definition wide_window_rule : AlertRule :=
  {| rule_ID := 9%N; Name := "All Time Errors"; Description := "";
     Condition := "COUNT(*)";
     Threshold := f64_5; TimeWindow := 153722868; rule_Severity := "low";
     Enabled := true; rule_CreatedAt := 0; rule_UpdatedAt := 0 |}.

(** A rule whose condition is more than an aggregate expression. *)
Definition injected_rule : AlertRule :=
  {| rule_ID := 10%N; Name := "Injected"; Description := "";
     Condition := "1; DROP TABLE alerts; --";
     Threshold := f64_5; TimeWindow := 5; rule_Severity := "low";
     Enabled := true; rule_CreatedAt := 0; rule_UpdatedAt := 0 |}.

(** An evaluation whose query returns [v] and whose calls all succeed. *)
Definition env_value (v : float64) : EvalEnv :=
  {| build_now := sample_now;
     query_row := fun _ => QValue v;
     get_alerts_fail := None;
     create_now := sample_now + 1;
     create_db_now := sample_now + 2;
     create_fail := None;
     resolve_now := fun id => sample_now + 3 + Z.of_N id;
     resolve_fail := fun _ => None |}.

(** An evaluation whose query fails. *)
Definition env_query_error : EvalEnv :=
  {| build_now := sample_now;
     query_row := fun _ => QError "connection refused"%string;
     get_alerts_fail := None;
     create_now := sample_now + 1;
     create_db_now := sample_now + 2;
     create_fail := None;
     resolve_now := fun id => sample_now + 3 + Z.of_N id;
     resolve_fail := fun _ => None |}.

(** An evaluation whose query returns no row. *)
Definition env_no_rows : EvalEnv :=
  {| build_now := sample_now;
     query_row := fun _ => QNoRows;
     get_alerts_fail := None;
     create_now := sample_now + 1;
     create_db_now := sample_now + 2;
     create_fail := None;
     resolve_now := fun id => sample_now + 3 + Z.of_N id;
     resolve_fail := fun _ => None |}.

(** A cycle over two rules: the first evaluation fails, the second
    returns 6. *)
Definition envs_fail_then_six (i : nat) : EvalEnv :=
  match i with
  | O => env_query_error
  | _ => env_value f64_6
  end.

(** The active alert of scenario A. *)
Definition alert_one : Alert :=
  {| ID := 1%N; RuleID := 6%N; Message := "Alert rule 'High Error Count' triggered";
     Severity := "high"; Value := f64_6; Status := "active";
     CreatedAt := sample_now - 60 * Second; ResolvedAt := None;
     AcknowledgedAt := None; UpdatedAt := sample_now - 60 * Second |}.

Definition one_active : AlertsTable := {| rows := [alert_one]; next_id := 2%N |}.

(** Four messages, the second malformed. *)
Definition four_messages : list Consumers.Event :=
  [Consumers.Message "a" 10 11; Consumers.Message "{" 20 21;
   Consumers.Message "b" 30 31; Consumers.Message "c" 40 41].

Definition never_fails (k : nat) : option error := None.

Definition always_fails (k : nat) : option error :=
  Some "server has gone away"%string.

Definition line_feed : string := String (ascii_of_nat 10) EmptyString.

(** U+00A0, the no-break space, in UTF-8. *)
Definition no_break_space : string :=
  String (ascii_of_nat 194) (String (ascii_of_nat 160) EmptyString).

(** A migration with a comment, a USE statement and two other
    statements. *)
Definition sample_content : string :=
  ("-- sample" ++ line_feed ++
   "CREATE TABLE t (id INT);" ++ line_feed ++
   "use log_analytics;" ++ line_feed ++
   "  INSERT INTO t VALUES (1) ;  " ++ line_feed)%string.

Definition migration_000 : Migration.Migration :=
  {| Migration.mig_ID := "000"; Migration.Filename := "000_create_database.sql";
     Migration.Content := sample_content |}.

Definition migration_002 : Migration.Migration :=
  {| Migration.mig_ID := "002"; Migration.Filename := "002_initial_schema.sql";
     Migration.Content := sample_content |}.

Definition all_succeed : Migration.MigEnv :=
  {| Migration.begin_err := None;
     Migration.exec_err := fun _ _ => None;
     Migration.record_err := None;
     Migration.commit_err := None |}.

(** A run of the migrations in which no call fails. *)
Definition run_all_succeed : Migration.RunEnv :=
  {| Migration.mig_env := fun _ => all_succeed;
     Migration.reconnect_err := None;
     Migration.applied_err := fun _ => None |}.

(** A migrations directory: a directory, the two migration files, a
    text file and an SQL file with no underscore in its name. *)
Definition sample_files : list Migration.DirEntry :=
  [ {| Migration.file_Name := "archive"; Migration.file_IsDir := true;
       Migration.read_content := ""; Migration.read_err := None |};
    {| Migration.file_Name := "002_initial_schema.sql";
       Migration.file_IsDir := false;
       Migration.read_content := sample_content; Migration.read_err := None |};
    {| Migration.file_Name := "README.md"; Migration.file_IsDir := false;
       Migration.read_content := "notes"; Migration.read_err := None |};
    {| Migration.file_Name := "000_create_database.sql";
       Migration.file_IsDir := false;
       Migration.read_content := sample_content; Migration.read_err := None |};
    {| Migration.file_Name := "scratch.sql"; Migration.file_IsDir := false;
       Migration.read_content := "SELECT 1;"; Migration.read_err := None |} ].

(** A stand-in for [sort.Slice]: insertion sort. *)
Fixpoint insert_sorted (less : Migration.Migration -> Migration.Migration -> bool)
    (m : Migration.Migration) (l : list Migration.Migration)
    : list Migration.Migration :=
  match l with
  | [] => [m]
  | b :: l' => if less m b then m :: b :: l' else b :: insert_sorted less m l'
  end.

Fixpoint insertion_sort (l : list Migration.Migration)
    (less : Migration.Migration -> Migration.Migration -> bool)
    : list Migration.Migration :=
  match l with
  | [] => []
  | a :: l' => insert_sorted less a (insertion_sort l' less)
  end.

(** An evaluation whose query returns [v] and whose ResolveAlert calls
    fail. *)
Definition env_resolve_fails (v : float64) : EvalEnv :=
  {| build_now := sample_now;
     query_row := fun _ => QValue v;
     get_alerts_fail := None;
     create_now := sample_now + 1;
     create_db_now := sample_now + 2;
     create_fail := None;
     resolve_now := fun id => sample_now + 3 + Z.of_N id;
     resolve_fail := fun _ => Some "deadlock found"%string |}.

(** An alert whose id does not fit 32 bits. *)
Definition alert_far : Alert :=
  {| ID := 4294967296%N; RuleID := 6%N;
     Message := "Alert rule 'High Error Count' triggered";
     Severity := "high"; Value := f64_6; Status := "active";
     CreatedAt := sample_now; ResolvedAt := None;
     AcknowledgedAt := None; UpdatedAt := sample_now |}.

Definition far_table : AlertsTable :=
  {| rows := [alert_far]; next_id := 4294967297%N |}.

End Samples.

(* ================================================================= *)
(** * Properties *)

(** ** float64 comparison *)

Lemma float64_eq_ge : forall x y, float64_eq x y = true -> float64_ge x y = true.
Proof.
  unfold float64_eq, float64_ge. intros x y.
  destruct (SFcompare x y) as [[ | | ]|]; congruence.
Qed.

Lemma float64_lt_not_ge : forall x y, float64_lt x y = true -> float64_ge x y = false.
Proof.
  unfold float64_lt, float64_ge. intros x y.
  destruct (SFcompare x y) as [[ | | ]|]; congruence.
Qed.

(** ** The alert repository *)

Section RepositoryFacts.

Lemma insert_desc_length : forall a l,
  List.length (insert_desc a l) = S (List.length l).
Proof.
  intros a l. induction l as [|b l IH]; simpl; [reflexivity|].
  destruct (CreatedAt b <? CreatedAt a); simpl; congruence.
Qed.

Lemma order_created_desc_length : forall l,
  List.length (order_created_desc l) = List.length l.
Proof.
  induction l as [|a l IH]; simpl; [reflexivity|].
  rewrite insert_desc_length. congruence.
Qed.

Lemma insert_desc_In : forall x a l,
  In x (insert_desc a l) <-> x = a \/ In x l.
Proof.
  intros x a l. induction l as [|b l IH]; simpl.
  - intuition congruence.
  - destruct (CreatedAt b <? CreatedAt a); simpl; [intuition congruence|].
    rewrite IH. intuition congruence.
Qed.

Lemma order_created_desc_In : forall x l,
  In x (order_created_desc l) <-> In x l.
Proof.
  intros x l. induction l as [|a l IH]; simpl; [tauto|].
  rewrite insert_desc_In, IH. intuition congruence.
Qed.

Lemma matches_active_filter : forall rule_id a,
  matches (active_filter rule_id) a = is_active_for rule_id a.
Proof.
  intros rule_id a. unfold matches, active_filter, is_active_for; simpl.
  rewrite !andb_true_r. apply andb_comm.
Qed.

(** The engine's lookup: exactly the active alerts of the rule, newest
    first. *)
Lemma GetAlerts_active : forall rule_id db,
  GetAlerts None (active_filter rule_id) db =
  (order_created_desc (active_alerts rule_id db), None).
Proof.
  intros rule_id db. unfold GetAlerts, active_alerts, paginate; simpl.
  f_equal. f_equal. apply filter_ext. intro a. apply matches_active_filter.
Qed.

Lemma filter_map_length_le : forall (p : Alert -> bool) (f : Alert -> Alert) l,
  (forall a, p (f a) = true -> p a = true) ->
  (List.length (filter p (map f l)) <= List.length (filter p l))%nat.
Proof.
  intros p f l Hpf. induction l as [|a l IH]; simpl; [lia|].
  destruct (p (f a)) eqn:Hfa.
  - rewrite (Hpf a Hfa). simpl. lia.
  - destruct (p a); simpl; lia.
Qed.

Lemma resolve_row_not_active : forall rule_id now a,
  is_active_for rule_id (resolve_row now a) = false.
Proof.
  intros. unfold is_active_for, resolve_row; simpl. apply andb_false_r.
Qed.

Lemma acknowledge_row_not_active : forall rule_id now a,
  is_active_for rule_id (acknowledge_row now a) = false.
Proof.
  intros. unfold is_active_for, acknowledge_row; simpl. apply andb_false_r.
Qed.

(** An update that makes no row active does not add an active alert. *)
Lemma update_where_id_active_le : forall rule_id id upd db,
  (forall a, is_active_for rule_id (upd a) = false) ->
  (List.length (active_alerts rule_id (update_where_id id upd db))
   <= List.length (active_alerts rule_id db))%nat.
Proof.
  intros rule_id id upd db Hupd. unfold active_alerts, update_where_id; simpl.
  apply filter_map_length_le. intros a.
  destruct (ID a =? id)%N; [rewrite Hupd; discriminate | trivial].
Qed.

Lemma ResolveAlert_active_le : forall rule_id db_err now id db,
  (List.length (active_alerts rule_id (snd (ResolveAlert db_err now id db)))
   <= List.length (active_alerts rule_id db))%nat.
Proof.
  intros. unfold ResolveAlert. destruct db_err; simpl; [lia|].
  apply update_where_id_active_le. intro a. apply resolve_row_not_active.
Qed.

Lemma AcknowledgeAlert_active_le : forall rule_id db_err now id db,
  (List.length (active_alerts rule_id (snd (AcknowledgeAlert db_err now id db)))
   <= List.length (active_alerts rule_id db))%nat.
Proof.
  intros. unfold AcknowledgeAlert. destruct db_err; simpl; [lia|].
  apply update_where_id_active_le. intro a. apply acknowledge_row_not_active.
Qed.

End RepositoryFacts.

(** ** The evaluation engine and the uniqueness of the active alert *)

Section EngineFacts.
Context {rt : GoRuntime}.

Lemma resolve_each_active_le : forall env rule_id l db,
  (List.length (active_alerts rule_id (fst (resolve_each env l db)))
   <= List.length (active_alerts rule_id db))%nat.
Proof.
  intros env rule_id l. induction l as [|a l IH]; intros db; simpl; [lia|].
  pose proof (ResolveAlert_active_le rule_id (resolve_fail env (ID a))
                (resolve_now env (ID a)) (ID a) db) as Hstep.
  destruct (ResolveAlert (resolve_fail env (ID a)) (resolve_now env (ID a))
              (ID a) db) as [[e|] db'] eqn:Hres; simpl in Hstep;
    specialize (IH db');
    destruct (resolve_each env l db') as [db'' lg]; simpl in *; lia.
Qed.

Lemma new_alert_active_for : forall env rule v id db_now rule_id,
  is_active_for rule_id (insert_row id db_now (new_alert env rule v))
  = (rule_ID rule =? rule_id)%N.
Proof.
  intros. unfold is_active_for, insert_row, new_alert; simpl.
  apply andb_true_r.
Qed.

Lemma active_alerts_app : forall rule_id l a n n',
  active_alerts rule_id {| rows := l ++ [a]; next_id := n |} =
  active_alerts rule_id {| rows := l; next_id := n' |} ++
  (if is_active_for rule_id a then [a] else []).
Proof.
  intros. unfold active_alerts; simpl. rewrite filter_app. reflexivity.
Qed.

(** One evaluation of one rule keeps at most one active alert per rule. *)
Lemma evaluateRule_preserves : forall env rule db,
  one_active_per_rule db ->
  one_active_per_rule (snd (fst (evaluateRule env rule db))).
Proof.
  intros env rule db Hinv. unfold evaluateRule.
  destruct (query_row env (buildQuery rule (build_now env))) as [v| |e];
    [|exact Hinv|exact Hinv].
  destruct (get_alerts_fail env) as [e|] eqn:Hget.
  { destruct (float64_ge v (Threshold rule)); exact Hinv. }
  rewrite GetAlerts_active, order_created_desc_length.
  destruct (float64_ge v (Threshold rule)).
  - destruct (List.length (active_alerts (rule_ID rule) db) =? 0)%nat eqn:Hlen;
      [|exact Hinv].
    apply Nat.eqb_eq in Hlen.
    unfold CreateAlert.
    destruct (create_fail env) as [e|]; [exact Hinv|].
    change (ID (new_alert env rule v) =? 0)%N with true. cbv iota.
    intro rule_id. cbn [fst snd].
    rewrite (active_alerts_app rule_id (rows db) _ _ (next_id db)).
    rewrite new_alert_active_for, length_app.
    replace {| rows := rows db; next_id := next_id db |} with db
      by (destruct db; reflexivity).
    destruct (rule_ID rule =? rule_id)%N eqn:Heq; simpl.
    + apply N.eqb_eq in Heq. subst rule_id. rewrite Hlen. lia.
    + specialize (Hinv rule_id). lia.
  - intro rule_id.
    pose proof (resolve_each_active_le env rule_id
                  (order_created_desc (active_alerts (rule_ID rule) db))
                  db) as Hle.
    destruct (resolve_each env _ db) as [db' lg]; simpl in *.
    specialize (Hinv rule_id). lia.
Qed.

Lemma check_rules_preserves : forall envs rules i db,
  one_active_per_rule db ->
  one_active_per_rule (fst (check_rules envs i rules db)).
Proof.
  intros envs rules. induction rules as [|rule rest IH]; intros i db Hinv;
    simpl; [exact Hinv|].
  destruct (negb (Enabled rule)); [apply IH; exact Hinv|].
  pose proof (evaluateRule_preserves (envs i) rule db Hinv) as Hstep.
  destruct (evaluateRule (envs i) rule db) as [[err db'] lg]; simpl in Hstep.
  specialize (IH (S i) db' Hstep).
  destruct (check_rules envs (S i) rest db') as [db'' lg'']; exact IH.
Qed.

Lemma CheckAlertRules_preserves : forall get_rules envs db,
  one_active_per_rule db ->
  one_active_per_rule (snd (fst (CheckAlertRules get_rules envs db))).
Proof.
  intros [rules [e|]] envs db Hinv; simpl; [exact Hinv|].
  pose proof (check_rules_preserves envs rules 0 db Hinv) as H.
  destruct (check_rules envs 0 rules db) as [db' lg]; exact H.
Qed.

Lemma run_op_preserves : forall op db,
  one_active_per_rule db -> one_active_per_rule (run_op op db).
Proof.
  intros [env rule|get_rules envs|db_err now id|db_err now id] db Hinv; simpl.
  - apply evaluateRule_preserves; exact Hinv.
  - apply CheckAlertRules_preserves; exact Hinv.
  - intro rule_id.
    pose proof (ResolveAlert_active_le rule_id db_err now id db).
    specialize (Hinv rule_id). lia.
  - intro rule_id.
    pose proof (AcknowledgeAlert_active_le rule_id db_err now id db).
    specialize (Hinv rule_id). lia.
Qed.

Lemma empty_table_one_active : one_active_per_rule empty_table.
Proof. intro rule_id. simpl. lia. Qed.

(** C1.  With the operations on the alerts table running one after the
    other (a single serialized evaluator), every reachable table holds at
    most one active alert per rule, and each operation (the evaluation of
    one rule, a whole evaluation cycle, ResolveAlert, AcknowledgeAlert)
    keeps it so, whatever the queries return and whichever driver calls
    fail. *)
Theorem active_alert_unique_per_rule :
  (forall db, reachable db -> one_active_per_rule db) /\
  (forall op db, one_active_per_rule db -> one_active_per_rule (run_op op db)).
Proof.
  split.
  - intros db Hreach. induction Hreach as [|op db Hreach IH].
    + apply empty_table_one_active.
    + apply run_op_preserves; exact IH.
  - apply run_op_preserves.
Qed.

End EngineFacts.

(** ** What one evaluation does to the table *)

Section EvaluationFacts.
Context {rt : GoRuntime}.

Lemma table_eta : forall db : AlertsTable,
  {| rows := rows db; next_id := next_id db |} = db.
Proof. intros [rs n]; reflexivity. Qed.

Lemma evaluateRule_create : forall env rule db v,
  query_row env (buildQuery rule (build_now env)) = QValue v ->
  float64_ge v (Threshold rule) = true ->
  get_alerts_fail env = None ->
  create_fail env = None ->
  active_alerts (rule_ID rule) db = [] ->
  evaluateRule env rule db =
    (None, with_created env rule v db, [LInfo "Alert created" (rule_ID rule)]).
Proof.
  intros env rule db v Hq Hge Hget Hcreate Hnone.
  unfold evaluateRule. rewrite Hq, Hge, Hget, GetAlerts_active.
  rewrite order_created_desc_length, Hnone.
  change (List.length (@nil Alert) =? 0)%nat with true. cbv iota.
  unfold CreateAlert. rewrite Hcreate.
  change (ID (new_alert env rule v) =? 0)%N with true. reflexivity.
Qed.

Lemma evaluateRule_keep : forall env rule db v,
  query_row env (buildQuery rule (build_now env)) = QValue v ->
  float64_ge v (Threshold rule) = true ->
  get_alerts_fail env = None ->
  active_alerts (rule_ID rule) db <> [] ->
  evaluateRule env rule db = (None, db, []).
Proof.
  intros env rule db v Hq Hge Hget Hsome.
  unfold evaluateRule. rewrite Hq, Hge, Hget, GetAlerts_active.
  rewrite order_created_desc_length.
  destruct (active_alerts (rule_ID rule) db) as [|a l]; [congruence|].
  reflexivity.
Qed.

Lemma active_with_created : forall env rule db v,
  active_alerts (rule_ID rule) db = [] ->
  active_alerts (rule_ID rule) (with_created env rule v db)
  = [created_alert env rule v db].
Proof.
  intros env rule db v Hnone. unfold with_created.
  rewrite (active_alerts_app _ (rows db) _ _ (next_id db)), table_eta, Hnone.
  unfold created_alert. rewrite new_alert_active_for, N.eqb_refl. reflexivity.
Qed.

(** C2.  When the aggregate query of a rule returns [v] with
    [v >= threshold] (equality included) and the repository calls
    succeed: with no active alert for the rule, evaluateRule inserts
    exactly one row, active, with the rule's id and severity and the
    value [v], and it is then the only active alert of the rule; with an
    active alert present, the table is returned as it was. *)
Theorem evaluateRule_at_or_above_threshold : forall env rule db v,
  query_row env (buildQuery rule (build_now env)) = QValue v ->
  float64_ge v (Threshold rule) = true \/ float64_eq v (Threshold rule) = true ->
  get_alerts_fail env = None ->
  create_fail env = None ->
  let created := created_alert env rule v db in
  let db' :=
    {| rows := rows db ++ [created]; next_id := N.succ (next_id db) |} in
  (active_alerts (rule_ID rule) db = [] ->
     evaluateRule env rule db =
       (None, db', [LInfo "Alert created" (rule_ID rule)]) /\
     RuleID created = rule_ID rule /\
     Status created = "active"%string /\
     Severity created = rule_Severity rule /\
     Value created = v /\
     CreatedAt created = create_now env /\
     active_alerts (rule_ID rule) db' = [created]) /\
  (active_alerts (rule_ID rule) db <> [] ->
     evaluateRule env rule db = (None, db, [])).
Proof.
  intros env rule db v Hq Hge Hget Hcreate created db'.
  assert (Hge' : float64_ge v (Threshold rule) = true)
    by (destruct Hge as [H|H]; [exact H | apply float64_eq_ge; exact H]).
  split.
  - intro Hnone. split; [|repeat split].
    + apply evaluateRule_create; assumption.
    + apply (active_with_created env rule db v Hnone).
  - intro Hsome. eapply evaluateRule_keep; eassumption.
Qed.

Lemma resolved_by_step : forall env a rest b,
  resolved_by env rest
    (if (ID b =? ID a)%N then resolve_row (resolve_now env (ID a)) b else b)
  = resolved_by env (a :: rest) b.
Proof.
  intros env a rest b. unfold resolved_by at 2. simpl existsb.
  rewrite (N.eqb_sym (ID a) (ID b)).
  destruct (ID b =? ID a)%N eqn:Heq.
  - apply N.eqb_eq in Heq. simpl orb. unfold resolved_by.
    change (ID (resolve_row (resolve_now env (ID a)) b)) with (ID b).
    rewrite Heq.
    destruct (existsb (fun a0 => (ID a0 =? ID a)%N) rest); reflexivity.
  - reflexivity.
Qed.

(** The table after the resolve loop, whichever calls fail: the rows
    whose id was resolved successfully are rewritten, in place. *)
Lemma resolve_each_table : forall env l db,
  fst (resolve_each env l db) =
    {| rows := map (resolved_by env (filter (resolve_ok env) l)) (rows db);
       next_id := next_id db |}.
Proof.
  intros env l. induction l as [|a rest IH]; intros db.
  - simpl. rewrite <- (table_eta db) at 1. f_equal. symmetry. apply map_id.
  - destruct (resolve_fail env (ID a)) as [e|] eqn:Hf.
    + assert (Hflt : filter (resolve_ok env) (a :: rest)
                     = filter (resolve_ok env) rest)
        by (simpl; unfold resolve_ok at 1; rewrite Hf; reflexivity).
      rewrite Hflt. simpl resolve_each. rewrite Hf. unfold ResolveAlert.
      specialize (IH db). destruct (resolve_each env rest db) as [db'' lg].
      exact IH.
    + assert (Hflt : filter (resolve_ok env) (a :: rest)
                     = a :: filter (resolve_ok env) rest)
        by (simpl; unfold resolve_ok at 1; rewrite Hf; reflexivity).
      rewrite Hflt. simpl resolve_each. rewrite Hf. unfold ResolveAlert.
      specialize (IH (update_where_id (ID a)
                        (resolve_row (resolve_now env (ID a))) db)).
      destruct (resolve_each env rest _) as [db'' lg].
      simpl in IH |- *. rewrite IH. f_equal.
      rewrite map_map. apply map_ext. intro b. apply resolved_by_step.
Qed.

Lemma resolve_each_log_ok : forall env l db,
  (forall id, resolve_fail env id = None) ->
  snd (resolve_each env l db) = map (fun a => LInfo "Alert resolved" (ID a)) l.
Proof.
  intros env l. induction l as [|a rest IH]; intros db Hok; [reflexivity|].
  simpl resolve_each. rewrite Hok. unfold ResolveAlert.
  specialize (IH (update_where_id (ID a)
                    (resolve_row (resolve_now env (ID a))) db) Hok).
  destruct (resolve_each env rest _) as [db'' lg]. simpl in *. congruence.
Qed.

Lemma filter_all : forall (p : Alert -> bool) l,
  (forall a, p a = true) -> filter p l = l.
Proof.
  intros p l H. induction l as [|a l IH]; simpl; [reflexivity|].
  rewrite H, IH. reflexivity.
Qed.

Lemma resolve_each_ok : forall env l db,
  (forall id, resolve_fail env id = None) ->
  resolve_each env l db =
    ({| rows := map (resolved_by env l) (rows db); next_id := next_id db |},
     map (fun a => LInfo "Alert resolved" (ID a)) l).
Proof.
  intros env l db Hok.
  pose proof (resolve_each_table env l db) as Ht.
  pose proof (resolve_each_log_ok env l db Hok) as Hl.
  rewrite filter_all in Ht by (intro a; unfold resolve_ok; rewrite Hok; reflexivity).
  destruct (resolve_each env l db) as [db' lg]. simpl in *. congruence.
Qed.

Lemma existsb_order_created_desc : forall (p : Alert -> bool) l,
  existsb p (order_created_desc l) = existsb p l.
Proof.
  intros p l. apply eq_true_iff_eq. rewrite !existsb_exists.
  split; intros [x [Hin Hp]]; exists x; split; trivial;
    apply order_created_desc_In; exact Hin.
Qed.

Lemma resolved_by_order : forall env l b,
  resolved_by env (order_created_desc l) b = resolved_by env l b.
Proof.
  intros. unfold resolved_by. rewrite existsb_order_created_desc. reflexivity.
Qed.

Lemma NoDup_ID_inj : forall (l : list Alert) a b,
  NoDup (map ID l) -> In a l -> In b l -> ID a = ID b -> a = b.
Proof.
  induction l as [|x l IH]; intros a b Hnd Ha Hb Hid; [contradiction|].
  simpl in Hnd. inversion Hnd as [|? ? Hnotin Hnd']; subst.
  destruct Ha as [Ha|Ha], Hb as [Hb|Hb]; subst.
  - reflexivity.
  - exfalso. apply Hnotin. rewrite Hid. apply in_map. exact Hb.
  - exfalso. apply Hnotin. rewrite <- Hid. apply in_map. exact Ha.
  - apply IH; assumption.
Qed.

Lemma resolved_by_active : forall env rule_id db a,
  In a (rows db) -> is_active_for rule_id a = true ->
  resolved_by env (active_alerts rule_id db) a
  = resolve_row (resolve_now env (ID a)) a.
Proof.
  intros env rule_id db a Hin Hact. unfold resolved_by.
  replace (existsb (fun a0 => (ID a0 =? ID a)%N) (active_alerts rule_id db))
    with true; [reflexivity|].
  symmetry. apply existsb_exists. exists a. split.
  - apply filter_In. split; assumption.
  - apply N.eqb_refl.
Qed.

Lemma resolved_by_not_active : forall env rule_id db b,
  In b (rows db) ->
  is_active_for rule_id (resolved_by env (active_alerts rule_id db) b) = false.
Proof.
  intros env rule_id db b Hin.
  destruct (is_active_for rule_id b) eqn:Hact.
  - rewrite (resolved_by_active env rule_id db b Hin Hact).
    apply resolve_row_not_active.
  - unfold resolved_by. destruct (existsb _ _).
    + apply resolve_row_not_active.
    + exact Hact.
Qed.

(** With distinct primary keys, resolving a sublist of the active
    alerts of a rule touches these alerts only. *)
Lemma resolved_by_cases : forall env rule_id db l b,
  NoDup (map ID (rows db)) ->
  (forall a, In a l -> In a (active_alerts rule_id db)) ->
  In b (rows db) ->
  resolved_by env l b = b \/
  (resolved_by env l b = resolve_row (resolve_now env (ID b)) b /\
   is_active_for rule_id b = true).
Proof.
  intros env rule_id db l b Hnd Hsub Hin. unfold resolved_by.
  destruct (existsb _ _) eqn:Hex; [right|left; reflexivity].
  split; [reflexivity|].
  apply existsb_exists in Hex. destruct Hex as [a [Ha Hid]].
  apply Hsub, filter_In in Ha. destruct Ha as [Ha Haact].
  apply N.eqb_eq in Hid.
  assert (a = b) by (apply (NoDup_ID_inj (rows db)); assumption).
  subst a. exact Haact.
Qed.

Lemma resolved_by_frame : forall env rule_id db b,
  NoDup (map ID (rows db)) ->
  In b (rows db) -> is_active_for rule_id b = false ->
  resolved_by env (active_alerts rule_id db) b = b.
Proof.
  intros env rule_id db b Hnd Hin Hact.
  destruct (resolved_by_cases env rule_id db (active_alerts rule_id db) b Hnd
              (fun a H => H) Hin) as [H|[_ H]]; [exact H|congruence].
Qed.

Lemma filter_none : forall (p : Alert -> bool) l,
  (forall a, In a l -> p a = false) -> filter p l = [].
Proof.
  intros p l H. induction l as [|a l IH]; simpl; [reflexivity|].
  rewrite (H a (or_introl eq_refl)). apply IH.
  intros b Hb. apply H. right. exact Hb.
Qed.

(** C3.  When the aggregate query of a rule returns [v] with
    [v < threshold] and the repository calls succeed, evaluateRule
    rewrites the rows in place: every alert of the rule that was active
    is now resolved, with resolved_at the time of its ResolveAlert call;
    no row is added; no active alert of the rule is left; and, the
    primary keys being distinct, every other row is as it was. *)
Theorem evaluateRule_below_threshold : forall env rule db v,
  query_row env (buildQuery rule (build_now env)) = QValue v ->
  float64_lt v (Threshold rule) = true ->
  get_alerts_fail env = None ->
  (forall id, resolve_fail env id = None) ->
  exists db' lg,
    evaluateRule env rule db = (None, db', lg) /\
    rows db' = map (resolved_by env (active_alerts (rule_ID rule) db)) (rows db) /\
    next_id db' = next_id db /\
    List.length (rows db') = List.length (rows db) /\
    (forall i a, nth_error (rows db) i = Some a ->
       is_active_for (rule_ID rule) a = true ->
       exists a', nth_error (rows db') i = Some a' /\
         a' = resolve_row (resolve_now env (ID a)) a /\
         Status a' = "resolved"%string /\
         ResolvedAt a' = Some (resolve_now env (ID a))) /\
    active_alerts (rule_ID rule) db' = [] /\
    (NoDup (map ID (rows db)) ->
     forall i b, nth_error (rows db) i = Some b ->
       is_active_for (rule_ID rule) b = false ->
       nth_error (rows db') i = Some b).
Proof.
  intros env rule db v Hq Hlt Hget Hres.
  unfold evaluateRule.
  rewrite Hq, (float64_lt_not_ge _ _ Hlt), Hget, GetAlerts_active.
  rewrite (resolve_each_ok env _ db Hres).
  eexists. eexists. split; [reflexivity|]. cbn [rows next_id].
  assert (Hmap : map (resolved_by env
                        (order_created_desc (active_alerts (rule_ID rule) db)))
                     (rows db)
                 = map (resolved_by env (active_alerts (rule_ID rule) db))
                     (rows db))
    by (apply map_ext; intro b; apply resolved_by_order).
  rewrite Hmap. clear Hmap.
  split; [reflexivity|]. split; [reflexivity|].
  split; [apply length_map|].
  split; [|split].
  - intros i a Hnth Hact.
    exists (resolve_row (resolve_now env (ID a)) a).
    split; [|repeat split].
    rewrite nth_error_map, Hnth. simpl. f_equal.
    apply (resolved_by_active env (rule_ID rule) db a); [|exact Hact].
    eapply nth_error_In; exact Hnth.
  - unfold active_alerts at 1. cbn [rows]. apply filter_none.
    intros a Ha. apply in_map_iff in Ha. destruct Ha as [b [Hb Hin]].
    subst a. apply resolved_by_not_active. exact Hin.
  - intros Hnd i b Hnth Hact.
    rewrite nth_error_map, Hnth. simpl. f_equal.
    apply resolved_by_frame; trivial.
    eapply nth_error_In; exact Hnth.
Qed.

End EvaluationFacts.

(** ** One evaluation cycle *)

Section CycleFacts.
Context {rt : GoRuntime}.

(** The three shapes of the table after one evaluation: untouched, one
    alert inserted for a rule that had no active alert, or some of the
    active alerts of the rule resolved. *)
Lemma evaluateRule_shape : forall env rule db,
  let db' := snd (fst (evaluateRule env rule db)) in
  db' = db \/
  (exists v, active_alerts (rule_ID rule) db = [] /\
             db' = with_created env rule v db) \/
  (exists l, (forall a, In a l -> In a (active_alerts (rule_ID rule) db)) /\
             db' = {| rows := map (resolved_by env l) (rows db);
                      next_id := next_id db |}).
Proof.
  intros env rule db. unfold evaluateRule.
  destruct (query_row env (buildQuery rule (build_now env))) as [v| |e];
    [|left; reflexivity|left; reflexivity].
  destruct (get_alerts_fail env) as [e|] eqn:Hget.
  { destruct (float64_ge v (Threshold rule)); left; reflexivity. }
  rewrite GetAlerts_active, order_created_desc_length.
  destruct (float64_ge v (Threshold rule)).
  - destruct (active_alerts (rule_ID rule) db) as [|a l] eqn:Hact;
      [|left; reflexivity].
    change (List.length (@nil Alert) =? 0)%nat with true. cbv iota.
    unfold CreateAlert. destruct (create_fail env) as [e|]; [left; reflexivity|].
    right. left. exists v. split; reflexivity.
  - right. right.
    exists (filter (resolve_ok env)
              (order_created_desc (active_alerts (rule_ID rule) db))).
    split.
    + intros a Ha. apply filter_In in Ha. destruct Ha as [Ha _].
      apply order_created_desc_In. exact Ha.
    + pose proof (resolve_each_table env
                    (order_created_desc (active_alerts (rule_ID rule) db)) db) as Ht.
      destruct (resolve_each env _ db) as [db' lg]. exact Ht.
Qed.

Lemma NoDup_snoc : forall (l : list N) x,
  NoDup l -> ~ In x l -> NoDup (l ++ [x]).
Proof.
  induction l as [|y l IH]; intros x Hnd Hx; simpl.
  - constructor; [intros []|constructor].
  - inversion Hnd as [|? ? Hy Hnd']; subst. constructor.
    + rewrite in_app_iff. intros [H|[H|[]]]; [contradiction|].
      subst. apply Hx. left. reflexivity.
    + apply IH; [exact Hnd'|]. intro H. apply Hx. right. exact H.
Qed.

Lemma resolved_by_ID : forall env l b, ID (resolved_by env l b) = ID b.
Proof. intros. unfold resolved_by. destruct (existsb _ _); reflexivity. Qed.

Lemma evaluateRule_well_keyed : forall env rule db,
  well_keyed db -> well_keyed (snd (fst (evaluateRule env rule db))).
Proof.
  intros env rule db [Hnd Hlt].
  destruct (evaluateRule_shape env rule db) as [H|[[v [_ H]]|[l [_ H]]]];
    rewrite H; clear H.
  - split; assumption.
  - unfold with_created, well_keyed. cbn [rows next_id]. split.
    + rewrite map_app. apply NoDup_snoc; [exact Hnd|].
      cbn [map created_alert insert_row ID]. intro Hin.
      apply in_map_iff in Hin. destruct Hin as [a [Hid Ha]].
      specialize (Hlt a Ha). lia.
    + intros a Ha. apply in_app_iff in Ha. destruct Ha as [Ha|[Ha|[]]].
      * specialize (Hlt a Ha). lia.
      * subst a. cbn. lia.
  - unfold well_keyed. cbn [rows next_id]. split.
    + rewrite map_map.
      rewrite (map_ext _ ID (fun b => resolved_by_ID env l b)). exact Hnd.
    + intros a Ha. apply in_map_iff in Ha. destruct Ha as [b [Hb Hin]].
      subst a. rewrite resolved_by_ID. apply Hlt. exact Hin.
Qed.

Lemma filter_map_same : forall (p : Alert -> bool) (f : Alert -> Alert) l,
  (forall b, In b l -> f b = b \/ (p (f b) = false /\ p b = false)) ->
  filter p (map f l) = filter p l.
Proof.
  intros p f l H. induction l as [|b l IH]; simpl; [reflexivity|].
  rewrite IH by (intros c Hc; apply H; right; exact Hc).
  destruct (H b (or_introl eq_refl)) as [Hb|[Hfb Hb]].
  - rewrite Hb. reflexivity.
  - rewrite Hfb, Hb. reflexivity.
Qed.

Lemma is_active_for_other_rule : forall r1 r2 a,
  r1 <> r2 -> is_active_for r1 a = true -> is_active_for r2 a = false.
Proof.
  unfold is_active_for. intros r1 r2 a Hne H.
  apply andb_true_iff in H. destruct H as [H _]. apply N.eqb_eq in H.
  apply andb_false_iff. left. apply N.eqb_neq. congruence.
Qed.

(** The evaluation of a rule leaves the active alerts of every other
    rule as they are. *)
Lemma evaluateRule_frame : forall env rule db rule_id,
  well_keyed db -> rule_ID rule <> rule_id ->
  active_alerts rule_id (snd (fst (evaluateRule env rule db)))
  = active_alerts rule_id db.
Proof.
  intros env rule db rule_id [Hnd Hlt] Hne.
  destruct (evaluateRule_shape env rule db) as [H|[[v [_ H]]|[l [Hsub H]]]];
    rewrite H; clear H.
  - reflexivity.
  - unfold with_created.
    rewrite (active_alerts_app rule_id (rows db) _ _ (next_id db)), table_eta.
    unfold created_alert. rewrite new_alert_active_for.
    apply N.eqb_neq in Hne. rewrite Hne. apply app_nil_r.
  - unfold active_alerts. cbn [rows]. apply filter_map_same.
    intros b Hb.
    destruct (resolved_by_cases env (rule_ID rule) db l b Hnd Hsub Hb)
      as [Hsame|[Hres Hact]]; [left; exact Hsame|right].
    rewrite Hres, resolve_row_not_active. split; [reflexivity|].
    apply (is_active_for_other_rule (rule_ID rule)); assumption.
Qed.

Lemma check_rules_well_keyed : forall envs rules i db,
  well_keyed db -> well_keyed (fst (check_rules envs i rules db)).
Proof.
  intros envs rules. induction rules as [|rule rest IH]; intros i db Hwk;
    simpl; [exact Hwk|].
  destruct (negb (Enabled rule)); [apply IH; exact Hwk|].
  pose proof (evaluateRule_well_keyed (envs i) rule db Hwk) as Hstep.
  destruct (evaluateRule (envs i) rule db) as [[err db'] lg]; simpl in Hstep.
  specialize (IH (S i) db' Hstep).
  destruct (check_rules envs (S i) rest db') as [db'' lg'']; exact IH.
Qed.

Lemma check_rules_frame : forall envs rules i db rule_id,
  well_keyed db ->
  (forall r, In r rules -> rule_ID r <> rule_id) ->
  active_alerts rule_id (fst (check_rules envs i rules db))
  = active_alerts rule_id db.
Proof.
  intros envs rules. induction rules as [|rule rest IH];
    intros i db rule_id Hwk Hne; simpl; [reflexivity|].
  assert (Hrest : forall r, In r rest -> rule_ID r <> rule_id)
    by (intros r Hr; apply Hne; right; exact Hr).
  destruct (negb (Enabled rule)); [apply IH; assumption|].
  pose proof (evaluateRule_well_keyed (envs i) rule db Hwk) as Hwk'.
  pose proof (evaluateRule_frame (envs i) rule db rule_id Hwk
                (Hne rule (or_introl eq_refl))) as Hfr.
  destruct (evaluateRule (envs i) rule db) as [[err db'] lg];
    simpl in Hwk', Hfr.
  specialize (IH (S i) db' rule_id Hwk' Hrest).
  destruct (check_rules envs (S i) rest db') as [db'' lg''].
  simpl in *. congruence.
Qed.

(** The loop over a list is the loop over its first part followed by
    the loop over the rest, on the table the first part left: nothing in
    the first part can stop the second. *)
Lemma check_rules_app : forall envs l1 l2 i db,
  check_rules envs i (l1 ++ l2) db =
  (fst (check_rules envs (i + List.length l1) l2 (fst (check_rules envs i l1 db))),
   snd (check_rules envs i l1 db) ++
   snd (check_rules envs (i + List.length l1) l2 (fst (check_rules envs i l1 db)))).
Proof.
  intros envs l1. induction l1 as [|rule rest IH]; intros l2 i db.
  - simpl. rewrite Nat.add_0_r. destruct (check_rules envs i l2 db); reflexivity.
  - simpl. replace (i + S (List.length rest))%nat
      with (S i + List.length rest)%nat by lia.
    destruct (negb (Enabled rule)); [apply IH|].
    destruct (evaluateRule (envs i) rule db) as [[err db'] lg].
    rewrite IH.
    destruct (check_rules envs (S i) rest db') as [db'' lg''].
    simpl. rewrite app_assoc. reflexivity.
Qed.

(** An evaluation that returns an error has written nothing. *)
Lemma evaluateRule_error : forall env rule db e,
  fst (fst (evaluateRule env rule db)) = Some e ->
  evaluateRule env rule db = (Some e, db, []).
Proof.
  intros env rule db e. unfold evaluateRule.
  destruct (query_row env (buildQuery rule (build_now env))) as [v| |e0];
    simpl; try congruence.
  destruct (get_alerts_fail env) as [e1|] eqn:Hget.
  { destruct (float64_ge v (Threshold rule)); simpl; congruence. }
  rewrite GetAlerts_active.
  destruct (float64_ge v (Threshold rule)).
  - destruct (_ =? 0)%nat; [|simpl; congruence].
    unfold CreateAlert. destruct (create_fail env) as [e2|]; simpl; congruence.
  - destruct (resolve_each env _ db) as [db' lg]. simpl. congruence.
Qed.

(** The step of the loop on an enabled rule. *)
Lemma check_rules_cons : forall envs i rule rest db,
  Enabled rule = true ->
  check_rules envs i (rule :: rest) db =
  (fst (check_rules envs (S i) rest (snd (fst (evaluateRule (envs i) rule db)))),
   (snd (evaluateRule (envs i) rule db) ++
    match fst (fst (evaluateRule (envs i) rule db)) with
    | Some e => [LError "Failed to evaluate alert rule" e (rule_ID rule)]
    | None => []
    end) ++
   snd (check_rules envs (S i) rest (snd (fst (evaluateRule (envs i) rule db))))).
Proof.
  intros envs i rule rest db Hen. simpl. rewrite Hen. simpl.
  destruct (evaluateRule (envs i) rule db) as [[[e|] db'] lg]; simpl;
    destruct (check_rules envs (S i) rest db') as [db'' lg''];
    rewrite ?app_nil_r; reflexivity.
Qed.

(** C5.  In a cycle over [pre ++ failing :: rest], let the evaluation of
    the enabled rule [failing] return an error (a query or a write error).
    Then CheckAlertRules returns nil, the error is logged with the id of
    the failing rule, and the rules of [rest] are evaluated on the table
    as [failing] found it.  Moreover a rule [ok] of [rest] whose aggregate
    is at or above its threshold, whose repository calls succeed and which
    had no active alert (the other rules of the list having other ids) has
    its alert, active, in the table at the end of the same cycle. *)
Theorem cycle_failure_isolation : forall envs pre failing rest db e,
  let i := List.length pre in
  let db1 := fst (check_rules envs 0 pre db) in
  Enabled failing = true ->
  fst (fst (evaluateRule (envs i) failing db1)) = Some e ->
  exists db' lg,
    CheckAlertRules (pre ++ failing :: rest, None) envs db = (None, db', lg) /\
    db' = fst (check_rules envs (S i) rest db1) /\
    In (LError "Failed to evaluate alert rule" e (rule_ID failing)) lg /\
    (forall mid ok post v,
       let j := (List.length pre + 1 + List.length mid)%nat in
       rest = (mid ++ ok :: post)%list ->
       well_keyed db ->
       Enabled ok = true ->
       query_row (envs j) (buildQuery ok (build_now (envs j))) = QValue v ->
       float64_ge v (Threshold ok) = true ->
       get_alerts_fail (envs j) = None ->
       create_fail (envs j) = None ->
       active_alerts (rule_ID ok) db = [] ->
       (forall r, In r (pre ++ failing :: mid ++ post) -> rule_ID r <> rule_ID ok) ->
       In (LInfo "Alert created" (rule_ID ok)) lg /\
       exists a,
         active_alerts (rule_ID ok) db' = [a] /\
         Status a = "active"%string /\
         Value a = v /\
         Severity a = rule_Severity ok /\
         CreatedAt a = create_now (envs j)).
Proof.
  intros envs pre failing rest db e i db1 Hen1 Hfail.
  pose proof (evaluateRule_error _ _ _ _ Hfail) as Hfail'.
  assert (Hall : check_rules envs 0 (pre ++ failing :: rest) db =
                 (fst (check_rules envs (S i) rest db1),
                  snd (check_rules envs 0 pre db) ++
                  ([] ++ [LError "Failed to evaluate alert rule" e
                            (rule_ID failing)]) ++
                  snd (check_rules envs (S i) rest db1))).
  { rewrite check_rules_app. fold db1.
    change (0 + List.length pre)%nat with i.
    rewrite (check_rules_cons envs i failing _ db1 Hen1). rewrite Hfail'.
    reflexivity. }
  exists (fst (check_rules envs (S i) rest db1)). eexists.
  split; [unfold CheckAlertRules; rewrite Hall; reflexivity|].
  split; [reflexivity|]. split.
  { apply in_or_app. right. apply in_or_app. left. simpl. left. reflexivity. }
  intros mid ok post v j Hrest Hwk Hen2 Hq Hge Hget Hcreate Hnone Hother.
  subst rest.
  (* the table when each part of the list starts *)
  assert (Hwk1 : well_keyed db1) by (apply check_rules_well_keyed; exact Hwk).
  assert (Hnone1 : active_alerts (rule_ID ok) db1 = []).
  { unfold db1. rewrite check_rules_frame; [exact Hnone|exact Hwk|].
    intros r Hr. apply Hother. apply in_or_app. left. exact Hr. }
  set (db2 := fst (check_rules envs (S i) mid db1)).
  assert (Hwk2 : well_keyed db2) by (apply check_rules_well_keyed; exact Hwk1).
  assert (Hnone2 : active_alerts (rule_ID ok) db2 = []).
  { unfold db2. rewrite check_rules_frame; [exact Hnone1|exact Hwk1|].
    intros r Hr. apply Hother. apply in_or_app. right. right.
    apply in_or_app. left. exact Hr. }
  assert (Hj : (S i + List.length mid)%nat = j) by (unfold i, j; lia).
  pose proof (evaluateRule_create (envs j) ok db2 v Hq Hge Hget Hcreate Hnone2)
    as Hok.
  set (db3 := with_created (envs j) ok v db2) in *.
  assert (Hwk3 : well_keyed db3).
  { pose proof (evaluateRule_well_keyed (envs j) ok db2 Hwk2) as H.
    rewrite Hok in H. exact H. }
  assert (Hact3 : active_alerts (rule_ID ok) db3
                  = [created_alert (envs j) ok v db2])
    by (apply active_with_created; exact Hnone2).
  assert (Hsplit : check_rules envs (S i) (mid ++ ok :: post) db1 =
                   (fst (check_rules envs (S j) post db3),
                    snd (check_rules envs (S i) mid db1) ++
                    ([LInfo "Alert created" (rule_ID ok)] ++ []) ++
                    snd (check_rules envs (S j) post db3))).
  { rewrite check_rules_app. fold db2. rewrite Hj.
    rewrite (check_rules_cons envs j ok post db2 Hen2). rewrite Hok.
    reflexivity. }
  split.
  - apply in_or_app. right. apply in_or_app. right. rewrite Hsplit.
    cbn [snd]. apply in_or_app. right. apply in_or_app. left.
    simpl. left. reflexivity.
  - exists (created_alert (envs j) ok v db2). split; [|repeat split].
    rewrite Hsplit. cbn [fst].
    rewrite check_rules_frame; [exact Hact3|exact Hwk3|].
    intros r Hr. apply Hother. apply in_or_app. right. right.
    apply in_or_app. right. exact Hr.
Qed.

End CycleFacts.

(** ** The query of a rule *)

Section QueryFacts.
Context {rt : GoRuntime}.

Lemma wrap64_small : forall z, - 2 ^ 63 <= z < 2 ^ 63 -> wrap64 z = z.
Proof.
  intros z Hz. unfold wrap64. rewrite Z.mod_small; lia.
Qed.

Lemma wrap64_range : forall z, - 2 ^ 63 <= wrap64 z < 2 ^ 63.
Proof.
  intro z. unfold wrap64.
  pose proof (Z.mod_pos_bound (z + 2 ^ 63) (2 ^ 64) ltac:(lia)). lia.
Qed.

Lemma window_start_exact : forall rule now,
  - max_window_minutes <= TimeWindow rule <= max_window_minutes ->
  window_start rule now = now - TimeWindow rule * Minute.
Proof.
  intros rule now Hw. unfold window_start, Add, mul64, neg64.
  unfold max_window_minutes in Hw.
  rewrite (wrap64_small (- TimeWindow rule)) by lia.
  rewrite wrap64_small; unfold Minute, Second; lia.
Qed.

Lemma append_assoc : forall a b c : string,
  ((a ++ b) ++ c = a ++ (b ++ c))%string.
Proof.
  induction a as [|x a IH]; intros b c; simpl; [reflexivity|].
  rewrite IH. reflexivity.
Qed.

Lemma buildQuery_text : forall rule now,
  buildQuery rule now =
  (select_prefix ++ Condition rule ++ from_where_suffix (window_start rule now))%string.
Proof.
  intros rule now. unfold buildQuery, select_prefix, from_where_suffix.
  rewrite !append_assoc. reflexivity.
Qed.

(** The window start of buildQuery is [now] minus [time_window] minutes
    exactly for the rules whose window is at most 153722867 minutes in
    absolute value; for these the query is the rule's condition selected
    from the logs table under the single filter
    [created_at >= '<window start>'], and a window that is not negative
    starts at or before [now]. *)
Theorem buildQuery_trailing_window : forall rule now,
  (window_start rule now = now - TimeWindow rule * Minute <->
   - max_window_minutes <= TimeWindow rule <= max_window_minutes) /\
  (- max_window_minutes <= TimeWindow rule <= max_window_minutes ->
   buildQuery rule now =
     (nl ++ tab ++ tab ++ "SELECT " ++ Condition rule ++ " " ++
      nl ++ tab ++ tab ++ "FROM logs " ++
      nl ++ tab ++ tab ++ "WHERE created_at >= '" ++
      time_Format (now - TimeWindow rule * Minute) ++ "'" ++ nl ++ tab)%string /\
   (0 <= TimeWindow rule -> window_start rule now <= now)).
Proof.
  intros rule now. split; [split|].
  - intro Heq. unfold window_start, Add, mul64 in Heq.
    pose proof (wrap64_range (neg64 (TimeWindow rule) * Minute)) as Hr.
    unfold max_window_minutes, Minute, Second in *. lia.
  - apply window_start_exact.
  - intro Hw. pose proof (window_start_exact rule now Hw) as Hs. split.
    + unfold buildQuery. rewrite Hs. reflexivity.
    + intro Hpos. rewrite Hs. unfold Minute, Second. lia.
Qed.

Lemma prefix_append : forall a b, String.prefix a (a ++ b) = true.
Proof.
  induction a as [|x a IH]; intro b; simpl.
  - destruct b; reflexivity.
  - destruct (ascii_dec x x) as [_|Hne]; [apply IH|congruence].
Qed.

Lemma contains_prefix : forall needle hay,
  String.prefix needle hay = true -> contains needle hay = true.
Proof.
  intros needle hay H. destruct hay; unfold contains; fold contains;
    rewrite H; reflexivity.
Qed.

Lemma contains_append : forall pre needle post,
  contains needle (pre ++ needle ++ post) = true.
Proof.
  induction pre as [|x pre IH]; intros needle post.
  - apply contains_prefix.
    change (String.prefix needle (needle ++ post) = true).
    apply prefix_append.
  - change (String x pre ++ needle ++ post)%string
      with (String x (pre ++ needle ++ post)%string).
    unfold contains; fold contains. rewrite IH. apply orb_true_r.
Qed.

Lemma append_length : forall a b : string,
  String.length (a ++ b) = (String.length a + String.length b)%nat.
Proof.
  induction a as [|x a IH]; intro b; simpl; [reflexivity|].
  rewrite IH. reflexivity.
Qed.

Lemma append_inv_head : forall a b c : string,
  (a ++ b = a ++ c)%string -> b = c.
Proof.
  induction a as [|x a IH]; intros b c H; simpl in H; [exact H|].
  injection H as H. apply IH. exact H.
Qed.

Lemma append_inv_tail : forall a b c : string,
  (a ++ c = b ++ c)%string -> a = b.
Proof.
  induction a as [|x a IH]; intros b c H.
  - destruct b as [|y b]; [reflexivity|].
    apply (f_equal String.length) in H. simpl in H.
    rewrite append_length in H. lia.
  - destruct b as [|y b].
    + apply (f_equal String.length) in H. simpl in H.
      rewrite append_length in H. lia.
    + simpl in H. injection H as Hxy H. subst y. f_equal.
      apply (IH b c H).
Qed.

(** C8 (as the code has it).  buildQuery writes the condition of the
    rule, as it is, into the text of the query, between "SELECT " and the
    FROM and WHERE clauses; the text of the query therefore contains the
    condition and determines it: two rules with the same window start
    and different conditions get different query texts.  There is no
    typed expression and no bound parameter. *)
Theorem buildQuery_interpolates_condition : forall rule now,
  buildQuery rule now =
    (select_prefix ++ Condition rule ++
     from_where_suffix (window_start rule now))%string /\
  contains (Condition rule) (buildQuery rule now) = true /\
  (forall rule',
     window_start rule' now = window_start rule now ->
     buildQuery rule' now = buildQuery rule now ->
     Condition rule' = Condition rule).
Proof.
  intros rule now. split; [apply buildQuery_text|]. split.
  - rewrite buildQuery_text. apply contains_append.
  - intros rule' Hstart Heq. rewrite !buildQuery_text, Hstart in Heq.
    apply append_inv_head in Heq. apply append_inv_tail in Heq. exact Heq.
Qed.

End QueryFacts.

(** ** Resolving through the repository and through the API *)

Section ResolveFacts.

Lemma map_update_absent : forall id (upd : Alert -> Alert) l,
  (forall a, In a l -> ID a <> id) ->
  map (fun a => if (ID a =? id)%N then upd a else a) l = l.
Proof.
  intros id upd l H. induction l as [|a l IH]; simpl; [reflexivity|].
  assert (Ha : (ID a =? id)%N = false)
    by (apply N.eqb_neq; apply H; left; reflexivity).
  rewrite Ha, IH; [reflexivity|].
  intros b Hb. apply H. right. exact Hb.
Qed.

Lemma update_where_id_absent : forall id upd db,
  (forall a, In a (rows db) -> ID a <> id) ->
  update_where_id id upd db = db.
Proof.
  intros id upd [rs n] H. unfold update_where_id; simpl in *.
  rewrite map_update_absent by exact H. reflexivity.
Qed.

(** C10 (as the code has it).  For an id that no stored alert has, and
    a driver call that does not fail, the repository's ResolveAlert
    returns nil and the table as it was: an update matching no row is not
    an error.  The HTTP endpoint parses the id with 32 bits: for such an
    id written in decimal it answers 200 with the success message when
    the id is below 2^32, and 400 "Invalid alert ID" when it is 2^32 or
    more; in both cases the table is as it was and nothing is logged. *)
Theorem ResolveAlert_unknown_id : forall now id db,
  (forall a, In a (rows db) -> ID a <> id) ->
  Alerts.ResolveAlert None now id db = (None, db) /\
  (forall idStr,
     idStr <> EmptyString -> GoStrings.parse_digits idStr 0 = Some id ->
     ((id < 2 ^ 32)%N ->
        Handlers.ResolveAlert idStr None now db =
        ({| Handlers.code := Handlers.StatusOK;
            Handlers.body_key := "message";
            Handlers.body_text := "Alert resolved successfully" |}, db, [])) /\
     ((2 ^ 32 <= id)%N ->
        Handlers.ResolveAlert idStr None now db =
        ({| Handlers.code := Handlers.StatusBadRequest;
            Handlers.body_key := "error";
            Handlers.body_text := "Invalid alert ID" |}, db, []))).
Proof.
  intros now id db Habsent.
  assert (Hrepo : Alerts.ResolveAlert None now id db = (None, db))
    by (unfold Alerts.ResolveAlert; rewrite update_where_id_absent;
        [reflexivity|exact Habsent]).
  split; [exact Hrepo|].
  intros idStr Hne Hdigits.
  assert (Hparse : GoStrings.ParseUint idStr 32 =
                   if (id <? 2 ^ 32)%N then Some id else None).
  { unfold GoStrings.ParseUint. destruct idStr as [|c rest]; [contradiction|].
    rewrite Hdigits. reflexivity. }
  unfold Handlers.ResolveAlert. rewrite Hparse. split; intro Hid.
  - apply N.ltb_lt in Hid. rewrite Hid, Hrepo. reflexivity.
  - apply N.ltb_ge in Hid. rewrite Hid. reflexivity.
Qed.

Lemma update_resolve_twice : forall t1 t2 id db,
  update_where_id id (resolve_row t2) (update_where_id id (resolve_row t1) db)
  = update_where_id id (resolve_row t2) db.
Proof.
  intros t1 t2 id [rs n]. unfold update_where_id; simpl. f_equal.
  rewrite map_map. apply map_ext. intro a.
  destruct (ID a =? id)%N eqn:Heq.
  - change (ID (resolve_row t1 a)) with (ID a). rewrite Heq. reflexivity.
  - rewrite Heq. reflexivity.
Qed.

(** C6 (as the code has it).  A second ResolveAlert on the same id,
    the driver call not failing, returns nil; the table it leaves is the
    one a single call at the time of the second call leaves: same rows,
    same status, and on the alerts with that id resolved_at and
    updated_at now hold the time of the second call.  When the two calls
    store the same time, it is the table the first call left. *)
Theorem ResolveAlert_again : forall t1 t2 id db,
  let db1 := snd (Alerts.ResolveAlert None t1 id db) in
  Alerts.ResolveAlert None t2 id db1 =
    (None, snd (Alerts.ResolveAlert None t2 id db)) /\
  (forall i a, nth_error (rows db1) i = Some a ->
     exists a', nth_error (rows (snd (Alerts.ResolveAlert None t2 id db1))) i
                = Some a' /\
       same_but_resolution a a' /\ Status a' = Status a /\
       (ID a = id -> ResolvedAt a' = Some t2 /\ UpdatedAt a' = t2) /\
       (ID a <> id -> a' = a)) /\
  (t2 = t1 -> Alerts.ResolveAlert None t2 id db1 = (None, db1)).
Proof.
  intros t1 t2 id db db1. unfold db1, Alerts.ResolveAlert. cbn [snd].
  split; [rewrite update_resolve_twice; reflexivity|]. split.
  - intros i a Hnth. unfold update_where_id in *. cbn [rows] in *.
    rewrite nth_error_map in Hnth |- *.
    rewrite nth_error_map.
    destruct (nth_error (rows db) i) as [b|]; [|discriminate].
    simpl in Hnth. injection Hnth as Ha. simpl.
    eexists. split; [reflexivity|].
    destruct (ID b =? id)%N eqn:Hb.
    + subst a. change (ID (resolve_row t1 b)) with (ID b). rewrite Hb.
      unfold same_but_resolution. simpl. apply N.eqb_eq in Hb.
      repeat split; trivial; intros; congruence.
    + subst a. rewrite Hb. apply N.eqb_neq in Hb.
      unfold same_but_resolution. repeat split; trivial; intros; congruence.
  - intro Ht. subst t2. rewrite update_resolve_twice. reflexivity.
Qed.

End ResolveFacts.

(** ** The batch consumer *)

Section ConsumerFacts.
Context {rt : GoRuntime}.
Import Logs Consumers.

Variable batchSize : Z.
Variable flush_fail : nat -> option error.
Hypothesis batchSize_pos : 0 < batchSize.

Lemma processBatch_calls : forall what st,
  flush_calls (processBatch flush_fail what st) = flush_calls st ++ [batch st].
Proof.
  intros what st. unfold processBatch.
  destruct (HandleLogBatch _ _ _) as [[err db'] lg]. reflexivity.
Qed.

Lemma processBatch_batch : forall what st,
  batch (processBatch flush_fail what st) = batch st.
Proof.
  intros what st. unfold processBatch.
  destruct (HandleLogBatch _ _ _) as [[err db'] lg]. reflexivity.
Qed.

Lemma on_message_accumulating : forall value t1 t2 st,
  accumulating batchSize st ->
  let st' := on_message batchSize flush_fail value t1 t2 st in
  accumulating batchSize st' /\
  (List.concat (flush_calls st') ++ batch st' =
   (List.concat (flush_calls st) ++ batch st) ++
   records_of [Message value t1 t2])%list.
Proof.
  intros value t1 t2 st [Hlen Hfull]. unfold on_message. simpl records_of.
  destruct (json_Unmarshal_Log value) as [log|]; cbn zeta.
  - cbn [batch].
    destruct (batchSize <=? Z.of_nat (List.length (batch st ++ [stamp log t1 t2])))
      eqn:Hcmp.
    + apply Z.leb_le in Hcmp. rewrite length_app in Hcmp. simpl in Hcmp.
      unfold accumulating, clear. cbn [batch flush_calls].
      rewrite processBatch_calls. cbn [batch flush_calls].
      split; [split|].
      * simpl. lia.
      * apply Forall_app. split; [exact Hfull|].
        constructor; [|constructor]. unfold full.
        rewrite length_app. simpl. lia.
      * rewrite concat_app. simpl. rewrite !app_nil_r.
        rewrite app_assoc. reflexivity.
    + apply Z.leb_gt in Hcmp. unfold accumulating. cbn [batch flush_calls].
      split; [split; assumption|]. rewrite app_assoc. reflexivity.
  - unfold accumulating. cbn [batch flush_calls].
    split; [split; assumption|]. rewrite app_nil_r. reflexivity.
Qed.

(** A run of messages: no batch is flushed before it is full, and the
    flushed batches followed by the buffer are the records received, in
    arrival order. *)
Lemma consume_messages : forall events st,
  forallb is_message events = true ->
  accumulating batchSize st ->
  let st' := fst (consume batchSize flush_fail events st) in
  snd (consume batchSize flush_fail events st) = false /\
  accumulating batchSize st' /\
  (List.concat (flush_calls st') ++ batch st' =
   (List.concat (flush_calls st) ++ batch st) ++ records_of events)%list.
Proof.
  induction events as [|ev events IH]; intros st Hmsg Hacc.
  - simpl. split; [reflexivity|]. split; [exact Hacc|].
    rewrite app_nil_r. reflexivity.
  - destruct ev as [value t1 t2| |]; simpl in Hmsg; try discriminate.
    destruct (on_message_accumulating value t1 t2 st Hacc) as [Hacc' Heq].
    specialize (IH _ Hmsg Hacc'). cbn zeta in IH.
    destruct IH as [Hret [Hacc'' Heq']].
    simpl consume. split; [exact Hret|]. split; [exact Hacc''|].
    rewrite Heq', Heq. rewrite <- !app_assoc. f_equal. f_equal.
    simpl records_of. destruct (json_Unmarshal_Log value); reflexivity.
Qed.

Lemma consume_app : forall events rest st,
  forallb is_message events = true ->
  consume batchSize flush_fail (events ++ rest) st =
  consume batchSize flush_fail rest
    (fst (consume batchSize flush_fail events st)).
Proof.
  induction events as [|ev events IH]; intros rest st Hmsg; [reflexivity|].
  destruct ev as [value t1 t2| |]; simpl in Hmsg; try discriminate.
  simpl. apply IH. exact Hmsg.
Qed.

Lemma concat_full_length : forall l : list (list Log),
  Forall (full batchSize) l ->
  Z.of_nat (List.length (List.concat l)) = batchSize * Z.of_nat (List.length l).
Proof.
  induction l as [|b l IH]; intro H; simpl; [lia|].
  inversion H as [|? ? Hb Hl]; subst. rewrite length_app, Nat2Z.inj_add.
  unfold full in Hb. rewrite (IH Hl). lia.
Qed.

Lemma chunk_fuel_nil : forall fuel size, chunk_fuel fuel size [] = [].
Proof. intros [|fuel] size; reflexivity. Qed.

(** A slice of at most 100 records is one INSERT. *)
Lemma CreateInBatches_single : forall l : list Log,
  l <> [] -> (List.length l <= 100)%nat -> CreateInBatches l 100 = [l].
Proof.
  intros l Hne Hlen. unfold CreateInBatches.
  destruct l as [|a l]; [congruence|].
  cbn [List.length chunk_fuel].
  rewrite firstn_all2 by exact Hlen.
  rewrite skipn_all2 by exact Hlen.
  rewrite chunk_fuel_nil. reflexivity.
Qed.

Lemma processBatch_stored : forall db what st,
  (forall k, flush_fail k = None) ->
  batch st <> [] -> (List.length (batch st) <= 100)%nat ->
  stored db st -> stored db (processBatch flush_fail what st).
Proof.
  intros db what st Hok Hne Hlen Hst. unfold stored, processBatch in *.
  unfold HandleLogBatch, CreateLogBatch. rewrite Hok.
  destruct (batch st) as [|a l] eqn:Hb; [congruence|].
  change (List.length (a :: l) =? 0)%nat with false. cbv iota. cbn [logs_db flush_calls].
  rewrite CreateInBatches_single by (trivial; discriminate).
  rewrite Hst, app_assoc. reflexivity.
Qed.

Lemma on_message_stored : forall db value t1 t2 st,
  batchSize <= 100 ->
  (forall k, flush_fail k = None) ->
  accumulating batchSize st -> stored db st ->
  stored db (on_message batchSize flush_fail value t1 t2 st).
Proof.
  intros db value t1 t2 st Hmax Hok [Hlen _] Hst. unfold on_message.
  destruct (json_Unmarshal_Log value) as [log|]; cbn zeta; [|exact Hst].
  cbn [batch].
  destruct (batchSize <=? _) eqn:Hcmp; [|exact Hst].
  unfold clear, stored. cbn [logs_db flush_calls].
  apply processBatch_stored; trivial; cbn [batch].
  - destruct (batch st); discriminate.
  - rewrite length_app. simpl. lia.
Qed.

Lemma consume_messages_stored : forall db events st,
  batchSize <= 100 ->
  (forall k, flush_fail k = None) ->
  forallb is_message events = true ->
  accumulating batchSize st -> stored db st ->
  stored db (fst (consume batchSize flush_fail events st)).
Proof.
  intros db events. induction events as [|ev events IH];
    intros st Hmax Hok Hmsg Hacc Hst; [exact Hst|].
  destruct ev as [value t1 t2| |]; simpl in Hmsg; try discriminate.
  simpl consume. apply IH; trivial.
  - apply (on_message_accumulating value t1 t2 st Hacc).
  - apply on_message_stored; assumption.
Qed.

Lemma last_event_calls : forall fin st,
  fin = TimerFired \/ fin = ContextDone ->
  flush_calls (fst (consume batchSize flush_fail [fin] st)) = final_flush st /\
  (snd (consume batchSize flush_fail [fin] st) = true <-> fin = ContextDone).
Proof.
  intros fin st [Hfin|Hfin]; subst fin; simpl; unfold final_flush.
  - unfold on_timer. destruct (0 <? List.length (batch st))%nat.
    + unfold clear. cbn [flush_calls]. rewrite processBatch_calls.
      split; [reflexivity|]. split; discriminate.
    + split; [reflexivity|]. split; discriminate.
  - unfold on_done. destruct (0 <? List.length (batch st))%nat.
    + rewrite processBatch_calls. split; [reflexivity|]. split; reflexivity.
    + split; [reflexivity|]. split; reflexivity.
Qed.

Lemma last_event_stored : forall db fin st,
  batchSize <= 100 ->
  (forall k, flush_fail k = None) ->
  fin = TimerFired \/ fin = ContextDone ->
  accumulating batchSize st -> stored db st ->
  stored db (fst (consume batchSize flush_fail [fin] st)).
Proof.
  intros db fin st Hmax Hok [Hfin|Hfin] [Hlen _] Hst; subst fin; simpl.
  - unfold on_timer. destruct (0 <? List.length (batch st))%nat eqn:Hnz;
      [|exact Hst].
    apply Nat.ltb_lt in Hnz. unfold clear, stored. cbn [logs_db flush_calls].
    apply processBatch_stored; trivial; [|lia].
    destruct (batch st); [simpl in Hnz; lia|discriminate].
  - unfold on_done. destruct (0 <? List.length (batch st))%nat eqn:Hnz;
      [|exact Hst].
    apply Nat.ltb_lt in Hnz.
    apply processBatch_stored; trivial; [|lia].
    destruct (batch st); [simpl in Hnz; lia|discriminate].
Qed.

(** C7.  Let the consumer receive a run of messages and then, with no
    timer tick in between, a last event that flushes (the timer or the
    end of the session), and let N records have decoded.  Then
    processBatch has been called ceil(N / batchSize) times; the batches,
    one after the other, are the N records in arrival order; every batch
    but the last holds exactly batchSize records and the last at least
    one and at most batchSize; and, batchSize being at most 100 and no
    insert failing, each batch reached the logs table as one INSERT of
    exactly its records. *)
Theorem flush_calls_count_and_size : forall events fin db,
  forallb is_message events = true ->
  fin = TimerFired \/ fin = ContextDone ->
  let run := ConsumeClaim batchSize flush_fail (events ++ [fin]) db in
  let calls := flush_calls (fst run) in
  let n := Z.of_nat (List.length (records_of events)) in
  Z.of_nat (List.length calls) = (n + batchSize - 1) / batchSize /\
  List.concat calls = records_of events /\
  (forall k b, nth_error calls k = Some b ->
     (S k < List.length calls)%nat -> Z.of_nat (List.length b) = batchSize) /\
  (forall b, In b calls -> b <> [] /\ Z.of_nat (List.length b) <= batchSize) /\
  (snd run = true <-> fin = ContextDone) /\
  (batchSize <= 100 -> (forall k, flush_fail k = None) ->
     logs_db (fst run) = (db ++ calls)%list).
Proof.
  intros events fin db Hmsg Hfin run calls n.
  assert (Hinit : accumulating batchSize (init_state db))
    by (split; [simpl; lia|constructor]).
  destruct (consume_messages events (init_state db) Hmsg Hinit)
    as [_ [[Hlen Hfull] Hcat]].
  simpl in Hcat.
  set (st1 := fst (consume batchSize flush_fail events (init_state db))) in *.
  assert (Hrun : run = consume batchSize flush_fail [fin] st1)
    by (unfold run, ConsumeClaim; rewrite consume_app by exact Hmsg; reflexivity).
  destruct (last_event_calls fin st1 Hfin) as [Hcalls Hret].
  rewrite <- Hrun in Hcalls, Hret. fold calls in Hcalls.
  pose proof (concat_full_length _ Hfull) as Hq.
  assert (Hn : n = batchSize * Z.of_nat (List.length (flush_calls st1))
                   + Z.of_nat (List.length (batch st1))).
  { unfold n. rewrite <- Hcat, length_app, Nat2Z.inj_add, Hq. reflexivity. }
  unfold final_flush in Hcalls.
  destruct (0 <? List.length (batch st1))%nat eqn:Hnz.
  - apply Nat.ltb_lt in Hnz. rewrite Hcalls.
    split; [|split; [|split; [|split; [|split]]]].
    + rewrite length_app, Nat2Z.inj_add. simpl List.length.
      apply Z.div_unique with (r := Z.of_nat (List.length (batch st1)) - 1); lia.
    + rewrite concat_app. simpl. rewrite app_nil_r. exact Hcat.
    + intros k b Hk Hlt. rewrite length_app in Hlt. simpl in Hlt.
      rewrite nth_error_app1 in Hk by lia.
      apply nth_error_In in Hk.
      rewrite Forall_forall in Hfull. exact (Hfull b Hk).
    + intros b Hb. apply in_app_iff in Hb. destruct Hb as [Hb|[Hb|[]]].
      * rewrite Forall_forall in Hfull. specialize (Hfull b Hb).
        unfold full in Hfull. split; [|lia].
        intro He. subst b. simpl in Hfull. lia.
      * subst b. split; [|lia]. intro He. rewrite He in Hnz. simpl in Hnz. lia.
    + exact Hret.
    + intros Hmax Hok. rewrite <- Hcalls. unfold calls. rewrite Hrun.
      apply (last_event_stored db fin st1); trivial; [split; assumption|].
      apply consume_messages_stored; trivial.
      unfold stored. simpl. symmetry. apply app_nil_r.
  - apply Nat.ltb_ge in Hnz. rewrite Hcalls.
    assert (Hempty : batch st1 = [])
      by (destruct (batch st1); [reflexivity|simpl in Hnz; lia]).
    rewrite Hempty in *. simpl in Hn. rewrite app_nil_r in Hcat.
    split; [|split; [|split; [|split; [|split]]]].
    + apply Z.div_unique with (r := batchSize - 1); lia.
    + exact Hcat.
    + intros k b Hk _. apply nth_error_In in Hk.
      rewrite Forall_forall in Hfull. exact (Hfull b Hk).
    + intros b Hb. rewrite Forall_forall in Hfull. specialize (Hfull b Hb).
      unfold full in Hfull. split; [|lia].
      intro He. subst b. simpl in Hfull. lia.
    + exact Hret.
    + intros Hmax Hok. rewrite <- Hcalls. unfold calls. rewrite Hrun.
      apply (last_event_stored db fin st1); trivial;
        [split; [rewrite Hempty; simpl; lia|assumption]|].
      apply consume_messages_stored; trivial.
      unfold stored. simpl. symmetry. apply app_nil_r.
Qed.

(** X3.  A flush that fails is not retried: when the message that fills
    the buffer arrives and the insert of the batch fails, the error is
    logged, the table is unchanged, the buffer is emptied all the same, and
    the message is marked as consumed like those before it. *)
Theorem failed_flush_clears_buffer : forall value t1 t2 st log e,
  json_Unmarshal_Log value = Some log ->
  batchSize <= Z.of_nat (List.length (batch st)) + 1 ->
  flush_fail (List.length (flush_calls st)) = Some e ->
  let st' := on_message batchSize flush_fail value t1 t2 st in
  batch st' = [] /\
  marked st' = (marked st ++ [value])%list /\
  flush_calls st' = (flush_calls st ++ [batch st ++ [stamp log t1 t2]])%list /\
  logs_db st' = logs_db st /\
  In (LError "Failed to process batch"
        (wrap_error "failed to create log batch" e)
        (N.of_nat (List.length (batch st ++ [stamp log t1 t2])))) (out st').
Proof.
  intros value t1 t2 st log e Hdec Hfull Hfail. unfold on_message.
  rewrite Hdec. cbn zeta. cbn [batch].
  assert (Hcmp : (batchSize <=? Z.of_nat (List.length (batch st ++ [stamp log t1 t2])))
                 = true)
    by (apply Z.leb_le; rewrite length_app; simpl; lia).
  rewrite Hcmp. unfold clear, processBatch, HandleLogBatch, CreateLogBatch.
  cbn [batch flush_calls logs_db marked out]. rewrite Hfail.
  destruct (batch st ++ [stamp log t1 t2])%list as [|x l] eqn:Hb.
  - destruct (batch st); discriminate.
  - change (List.length (x :: l) =? 0)%nat with false. cbv iota.
    cbn [batch flush_calls logs_db marked out].
    repeat split. apply in_or_app. right. apply in_or_app. right.
    left. reflexivity.
Qed.

(** X6.  Fewer records than the batch size, then the timer: exactly one
    flush, of exactly the records that arrived, and an empty buffer. *)
Theorem timer_flushes_partial_batch : forall events db,
  forallb is_message events = true ->
  records_of events <> [] ->
  Z.of_nat (List.length (records_of events)) < batchSize ->
  let st := fst (ConsumeClaim batchSize flush_fail (events ++ [TimerFired]) db) in
  flush_calls st = [records_of events] /\ batch st = [].
Proof.
  intros events db Hmsg Hne Hlt.
  assert (Hinit : accumulating batchSize (init_state db))
    by (split; [simpl; lia|constructor]).
  destruct (consume_messages events (init_state db) Hmsg Hinit)
    as [_ [[Hlen Hfull] Hcat]].
  simpl in Hcat. unfold ConsumeClaim. rewrite consume_app by exact Hmsg.
  set (st1 := fst (consume batchSize flush_fail events (init_state db))) in *.
  pose proof (concat_full_length _ Hfull) as Hq.
  assert (Hnone : flush_calls st1 = []).
  { destruct (flush_calls st1) as [|b l] eqn:Hfc; [reflexivity|exfalso].
    rewrite <- Hcat, length_app, Nat2Z.inj_add, Hq in Hlt.
    simpl List.length in Hlt. nia. }
  rewrite Hnone in Hcat. simpl in Hcat.
  cbn zeta. simpl consume. unfold on_timer. rewrite Hcat.
  destruct (records_of events) as [|r l] eqn:Hrec; [congruence|].
  change (0 <? List.length (r :: l))%nat with true. cbv iota.
  unfold clear. cbn [fst flush_calls batch].
  rewrite processBatch_calls, Hnone, Hcat. split; reflexivity.
Qed.

End ConsumerFacts.

(** ** White space at the ends of a string *)

Section StringFacts.
Import GoStrings.

Lemma string_append_nil : forall s : string, (s ++ "")%string = s.
Proof. induction s as [|a s IH]; simpl; [reflexivity | rewrite IH; reflexivity]. Qed.

Lemma string_append_assoc : forall s1 s2 s3 : string,
  ((s1 ++ s2) ++ s3)%string = (s1 ++ (s2 ++ s3))%string.
Proof.
  induction s1 as [|a s1 IH]; intros s2 s3; simpl; [reflexivity|].
  rewrite IH. reflexivity.
Qed.

Lemma string_rev_append : forall s1 s2,
  string_rev (s1 ++ s2) = (string_rev s2 ++ string_rev s1)%string.
Proof.
  induction s1 as [|a s1 IH]; intro s2; simpl.
  - rewrite string_append_nil. reflexivity.
  - rewrite IH, string_append_assoc. reflexivity.
Qed.

Lemma string_rev_involutive : forall s, string_rev (string_rev s) = s.
Proof.
  induction s as [|a s IH]; simpl; [reflexivity|].
  rewrite string_rev_append, IH. reflexivity.
Qed.

Lemma has_byte_append : forall c s1 s2,
  has_byte c (s1 ++ s2) = has_byte c s1 || has_byte c s2.
Proof.
  intros c s1 s2. induction s1 as [|a s1 IH]; [reflexivity|].
  simpl. rewrite IH. apply orb_assoc.
Qed.

Lemma has_byte_rev : forall c s, has_byte c (string_rev s) = has_byte c s.
Proof.
  intros c s. induction s as [|a s IH]; [reflexivity|].
  simpl. rewrite has_byte_append, IH. simpl. rewrite orb_false_r. apply orb_comm.
Qed.

Lemma string_strong_ind : forall P : string -> Prop,
  (forall s, (forall t, (String.length t < String.length s)%nat -> P t) -> P s) ->
  forall s, P s.
Proof.
  intros P H s.
  assert (Hn : forall n t, (String.length t < n)%nat -> P t).
  { induction n as [|n IHn]; intros t Ht; [lia|].
    apply H. intros u Hu. apply IHn. lia. }
  apply (Hn (S (String.length s))). lia.
Qed.

Section TrimFacts.

Variable two : ascii -> ascii -> bool.
Variable three : ascii -> ascii -> ascii -> bool.

(** What is removed is a part of the string at its start. *)
Lemma trim_start_suffix : forall s,
  exists removed, s = (removed ++ trim_start two three s)%string.
Proof.
  intro s. induction s as [s IH] using string_strong_ind.
  destruct s as [|a s1]; [exists EmptyString; reflexivity|].
  cbn [trim_start]. destruct (is_space a).
  { destruct (IH s1) as [r Hr]; [simpl; lia|].
    exists (String a r). simpl. rewrite <- Hr. reflexivity. }
  destruct s1 as [|b s2]; [exists EmptyString; reflexivity|].
  destruct (two a b).
  { destruct (IH s2) as [r Hr]; [simpl; lia|].
    exists (String a (String b r)). simpl. rewrite <- Hr. reflexivity. }
  destruct s2 as [|c s3]; [exists EmptyString; reflexivity|].
  destruct (three a b c); [|exists EmptyString; reflexivity].
  destruct (IH s3) as [r Hr]; [simpl; lia|].
  exists (String a (String b (String c r))). simpl. rewrite <- Hr. reflexivity.
Qed.

Lemma trim_start_clean : forall s,
  starts_with_space two three (trim_start two three s) = false.
Proof.
  intro s. induction s as [s IH] using string_strong_ind.
  destruct s as [|a s1]; [reflexivity|].
  cbn [trim_start]. destruct (is_space a) eqn:Ha; [apply IH; simpl; lia|].
  destruct s1 as [|b s2]; [simpl; rewrite Ha; reflexivity|].
  destruct (two a b) eqn:Hab; [apply IH; simpl; lia|].
  destruct s2 as [|c s3]; [simpl; rewrite Ha, Hab; reflexivity|].
  destruct (three a b c) eqn:Habc; [apply IH; simpl; lia|].
  simpl. rewrite Ha, Hab, Habc. reflexivity.
Qed.

Lemma trim_start_of_clean : forall s,
  starts_with_space two three s = false -> trim_start two three s = s.
Proof.
  intros [|a [|b [|c s3]]] H; simpl in H |- *; try reflexivity.
  - apply orb_false_iff in H. destruct H as [Ha _]. rewrite Ha. reflexivity.
  - apply orb_false_iff in H. destruct H as [Ha H].
    apply orb_false_iff in H. destruct H as [Hab _].
    rewrite Ha, Hab. reflexivity.
  - apply orb_false_iff in H. destruct H as [Ha H].
    apply orb_false_iff in H. destruct H as [Hab Habc].
    rewrite Ha, Hab, Habc. reflexivity.
Qed.

Lemma trim_start_idem : forall s,
  trim_start two three (trim_start two three s) = trim_start two three s.
Proof. intro s. apply trim_start_of_clean, trim_start_clean. Qed.

(** A string that starts with white space still does when it is
    continued. *)
Lemma starts_with_space_app : forall s rest,
  starts_with_space two three s = true ->
  starts_with_space two three (s ++ rest) = true.
Proof.
  intros [|a [|b [|c s3]]] rest H; simpl in H |- *; try discriminate.
  - rewrite orb_false_r in H. rewrite H. reflexivity.
  - rewrite orb_false_r in H. apply orb_true_iff in H.
    destruct H as [H|H]; rewrite H; [reflexivity|].
    rewrite orb_true_l, orb_true_r. reflexivity.
  - exact H.
Qed.

End TrimFacts.

Lemma trim_right_prefix : forall s,
  exists removed, s = (trim_right s ++ removed)%string.
Proof.
  intro s. unfold trim_right.
  destruct (trim_start_suffix (fun a b => space2 b a)
              (fun a b c => space3 c b a) (string_rev s)) as [r Hr].
  exists (string_rev r).
  rewrite <- string_rev_append, <- Hr, string_rev_involutive. reflexivity.
Qed.

Lemma trim_right_idem : forall s, trim_right (trim_right s) = trim_right s.
Proof.
  intro s. unfold trim_right.
  rewrite string_rev_involutive, trim_start_idem. reflexivity.
Qed.

Lemma trim_left_after_right : forall s,
  starts_with_space space2 space3 s = false ->
  trim_left (trim_right s) = trim_right s.
Proof.
  intros s H. apply trim_start_of_clean.
  destruct (trim_right_prefix s) as [r Hr].
  destruct (starts_with_space space2 space3 (trim_right s)) eqn:Hs;
    [|reflexivity].
  rewrite Hr, (starts_with_space_app _ _ _ r Hs) in H. discriminate.
Qed.

Lemma TrimSpace_idem : forall s, TrimSpace (TrimSpace s) = TrimSpace s.
Proof.
  intro s. unfold TrimSpace.
  rewrite trim_left_after_right by apply trim_start_clean.
  apply trim_right_idem.
Qed.

Lemma has_byte_TrimSpace : forall c s,
  has_byte c s = false -> has_byte c (TrimSpace s) = false.
Proof.
  intros c s H. unfold TrimSpace.
  destruct (trim_start_suffix space2 space3 s) as [r1 H1].
  fold (trim_left s) in H1.
  destruct (trim_right_prefix (trim_left s)) as [r2 H2].
  rewrite H1, H2, !has_byte_append in H.
  apply orb_false_iff in H. destruct H as [_ H].
  apply orb_false_iff in H. apply H.
Qed.

End StringFacts.

(** ** The migration runner *)

Section MigrationFacts.
Context {rt : GoRuntime}.
Import GoStrings Migration.

Lemma keep_nonempty_trimmed_ok : forall l,
  Forall trimmed (keep_nonempty_trimmed l).
Proof.
  intro l. unfold keep_nonempty_trimmed. apply Forall_forall. intros s Hs.
  apply filter_In in Hs. destruct Hs as [Hin Hne].
  apply in_map_iff in Hin. destruct Hin as [s0 [Hs0 _]]. subst s. split.
  - apply TrimSpace_idem.
  - apply negb_true_iff. exact Hne.
Qed.

Lemma splitSQLStatements_trimmed : forall content,
  Forall trimmed (splitSQLStatements content).
Proof. intro content. apply keep_nonempty_trimmed_ok. Qed.

(** *** The loop over the statements *)

Lemma executeStatement_trimmed : forall err s,
  trimmed s ->
  executeStatement err s =
  match err with
  | Some e =>
    (Some (wrap_error (if is_use s then "failed to execute USE statement"
                       else "failed to execute statement")%string e), [], [])
  | None => if is_use s then (None, [Direct s], []) else (None, [], [TxExec s])
  end.
Proof.
  intros err s [Htrim Hne]. unfold executeStatement. rewrite Htrim, Hne.
  fold (is_use s). destruct (is_use s), err; reflexivity.
Qed.

Lemma exec_statements_kinds : forall env id statements i,
  Forall is_direct (snd (fst (exec_statements env id i statements))) /\
  Forall is_exec (snd (exec_statements env id i statements)).
Proof.
  intros env id statements.
  induction statements as [|s rest IH]; intro i; simpl;
    [split; constructor|].
  destruct (is_empty (TrimSpace s)); [apply IH|].
  unfold executeStatement.
  destruct (is_empty (TrimSpace (TrimSpace s))).
  { specialize (IH (S i)).
    destruct (exec_statements env id (S i) rest) as [[err d] t]. exact IH. }
  destruct (HasPrefix _ _);
    destruct (exec_err env i (TrimSpace s)) as [e|];
    try (split; constructor);
    specialize (IH (S i));
    destruct (exec_statements env id (S i) rest) as [[err d] t];
    simpl in *; destruct IH as [IHd IHt]; split; trivial;
    constructor; trivial; exact I.
Qed.

Lemma exec_statements_success : forall env id statements i,
  Forall trimmed statements ->
  fst (fst (exec_statements env id i statements)) = None ->
  exec_statements env id i statements =
  (None, map Direct (filter is_use statements),
   map TxExec (filter (fun s => negb (is_use s)) statements)).
Proof.
  intros env id statements.
  induction statements as [|s rest IH]; intros i Htr Hok; [reflexivity|].
  inversion Htr as [|? ? Hs Hrest]; subst.
  simpl exec_statements in *. destruct Hs as [Htrim Hne].
  rewrite Htrim, Hne in *.
  rewrite (executeStatement_trimmed _ s (conj Htrim Hne)) in *.
  simpl filter.
  destruct (exec_err env i s) as [e|]; [simpl in Hok; discriminate|].
  destruct (is_use s); simpl negb; cbv iota in *;
    specialize (IH (S i) Hrest);
    destruct (exec_statements env id (S i) rest) as [[err d] t];
    simpl in Hok; subst err; specialize (IH eq_refl);
    injection IH as Hd Ht; subst d t; reflexivity.
Qed.

Lemma exec_statements_no_failure : forall env id statements i,
  (forall k s, exec_err env k s = None) ->
  fst (fst (exec_statements env id i statements)) = None.
Proof.
  intros env id statements.
  induction statements as [|s rest IH]; intros i Hok; [reflexivity|].
  simpl. destruct (is_empty (TrimSpace s)); [apply IH; exact Hok|].
  unfold executeStatement. rewrite Hok.
  specialize (IH (S i) Hok).
  destruct (is_empty (TrimSpace (TrimSpace s))); [|destruct (HasPrefix _ _)];
    destruct (exec_statements env id (S i) rest) as [[err d] t]; exact IH.
Qed.

(** *** The tracking table *)

Lemma tracking_app : forall h1 h2, tracking (h1 ++ h2) = (tracking h1 ++ tracking h2)%list.
Proof. intros. unfold tracking. apply flat_map_app. Qed.

Lemma tracking_direct : forall d, Forall is_direct d -> tracking d = [].
Proof.
  induction d as [|ev d IH]; intro H; [reflexivity|].
  inversion H as [|? ? Hev Hd]; subst.
  destruct ev; [|contradiction]. simpl. apply IH. exact Hd.
Qed.

Lemma records_of_exec : forall tx, Forall is_exec tx -> records_of_tx tx = [].
Proof.
  induction tx as [|op tx IH]; intro H; [reflexivity|].
  inversion H as [|? ? Hop Htx]; subst.
  destruct op; [|contradiction]. simpl. apply IH. exact Htx.
Qed.

Lemma records_of_tx_app : forall t1 t2,
  records_of_tx (t1 ++ t2) = (records_of_tx t1 ++ records_of_tx t2)%list.
Proof. intros. unfold records_of_tx. apply flat_map_app. Qed.

Lemma later_id_not_bootstrap : forall id,
  String.ltb "001" id = true ->
  String.eqb id "000" = false /\ String.eqb id "001" = false.
Proof.
  intros id Hlt. split; apply String.eqb_neq; intro Heq; subst id;
    vm_compute in Hlt; discriminate.
Qed.

Lemma tracking_committed : forall h d tx,
  Forall is_direct d ->
  tracking ((h ++ d) ++ [Committed tx]) = (tracking h ++ records_of_tx tx)%list.
Proof.
  intros h d tx Hd. rewrite !tracking_app, (tracking_direct d Hd).
  simpl. rewrite !app_nil_r. reflexivity.
Qed.

Lemma tracking_rolled_back : forall h d,
  Forall is_direct d -> tracking (h ++ d) = tracking h.
Proof.
  intros h d Hd. rewrite tracking_app, (tracking_direct d Hd).
  apply app_nil_r.
Qed.

(** C9 (as the code has it).  ApplyMigration on a migration with id
    "000" or "001" never adds a row to the tracking table, whatever
    fails, and with no failure it returns nil with all the statements
    executed (the USE statements on the connection, the others in one
    committed transaction).  On a migration with a later id, when it
    returns nil the history has grown by the USE statements, sent on the
    connection outside the transaction, and then by one committed
    transaction that holds the statements other than USE, in order,
    followed by the insert of (id, filename, checksum) into the tracking
    table; when it returns an error no row is added; and with no failure
    it returns nil. *)
Theorem ApplyMigration_tracking : forall env m h,
  let statements := splitSQLStatements (Content m) in
  let use := map Direct (filter is_use statements) in
  let tx := map TxExec (filter (fun s => negb (is_use s)) statements) in
  let record :=
    TxRecord (mig_ID m) (Filename m) (generateChecksum (Content m)) in
  (mig_ID m = "000"%string \/ mig_ID m = "001"%string ->
     tracking (snd (ApplyMigration env m h)) = tracking h /\
     (no_failure env ->
        ApplyMigration env m h = (None, (h ++ use) ++ [Committed tx]))) /\
  (String.ltb "001" (mig_ID m) = true ->
     (fst (ApplyMigration env m h) = None ->
        snd (ApplyMigration env m h)
          = ((h ++ use) ++ [Committed (tx ++ [record])])%list /\
        tracking (snd (ApplyMigration env m h))
          = (tracking h ++
             [(mig_ID m, Filename m, generateChecksum (Content m))])%list) /\
     (fst (ApplyMigration env m h) <> None ->
        tracking (snd (ApplyMigration env m h)) = tracking h) /\
     (no_failure env -> fst (ApplyMigration env m h) = None)).
Proof.
  intros env m h statements use tx record.
  pose proof (splitSQLStatements_trimmed (Content m)) as Htr.
  fold statements in Htr.
  pose proof (exec_statements_kinds env (mig_ID m) statements 0) as [Hd Ht].
  pose proof (exec_statements_success env (mig_ID m) statements 0 Htr) as Hsucc.
  pose proof (exec_statements_no_failure env (mig_ID m) statements 0) as Hnf.
  fold use tx in Hsucc.
  unfold ApplyMigration. fold statements.
  destruct (exec_statements env (mig_ID m) 0 statements) as [[err d] t] eqn:Hex.
  simpl in Hd, Ht, Hsucc, Hnf.
  split.
  - (* the two bootstrap migrations *)
    intros Hid.
    assert (Hboot : (String.eqb (mig_ID m) "000"
                     || String.eqb (mig_ID m) "001")%bool = true).
    { destruct Hid as [Hid|Hid]; rewrite Hid; reflexivity. }
    split.
    + destruct (begin_err env) as [e|]; [reflexivity|].
      destruct err as [e|]; [apply tracking_rolled_back; exact Hd|].
      assert (Hc : tracking (snd (commit env (mig_ID m) (h ++ d) t)) = tracking h).
      { unfold commit. destruct (commit_err env) as [e|]; simpl.
        - apply tracking_rolled_back; exact Hd.
        - rewrite (tracking_committed h d t Hd), (records_of_exec t Ht).
          apply app_nil_r. }
      destruct (String.eqb (mig_ID m) "000"); [exact Hc|].
      destruct (String.eqb (mig_ID m) "001"); [exact Hc|discriminate].
    + intros [Hb [He [Hr Hc]]]. rewrite Hb.
      specialize (Hnf He). subst err. specialize (Hsucc eq_refl).
      injection Hsucc as Hd' Ht'. subst d t.
      assert (Hcm : commit env (mig_ID m) (h ++ use) tx
                    = (None, (h ++ use) ++ [Committed tx]))
        by (unfold commit; rewrite Hc; reflexivity).
      destruct (String.eqb (mig_ID m) "000"); [exact Hcm|].
      destruct (String.eqb (mig_ID m) "001"); [exact Hcm|discriminate].
  - (* the later migrations *)
    intros Hlater. destruct (later_id_not_bootstrap _ Hlater) as [H0 H1].
    rewrite H0, H1. split; [|split].
    + intro Hnil.
      destruct (begin_err env) as [e|]; [discriminate|].
      destruct err as [e|]; [discriminate|].
      specialize (Hsucc eq_refl). injection Hsucc as Hd' Ht'. subst d t.
      destruct (record_err env) as [e|]; [discriminate|].
      unfold commit in *. destruct (commit_err env) as [e|]; [discriminate|].
      cbn [snd]. split; [reflexivity|].
      rewrite (tracking_committed h use _ Hd), records_of_tx_app.
      rewrite (records_of_exec tx Ht). reflexivity.
    + intro Herr.
      destruct (begin_err env) as [e|]; [reflexivity|].
      destruct err as [e|]; [apply tracking_rolled_back; exact Hd|].
      destruct (record_err env) as [e|];
        [apply tracking_rolled_back; exact Hd|].
      unfold commit in *. destruct (commit_err env) as [e|];
        [apply tracking_rolled_back; exact Hd|].
      exfalso. apply Herr. reflexivity.
    + intros [Hb [He [Hr Hc]]]. rewrite Hb.
      specialize (Hnf He). subst err. rewrite Hr. unfold commit. rewrite Hc.
      reflexivity.
Qed.

End MigrationFacts.

(** ** The evaluator beside the API, and two evaluators *)

Section InterleavingFacts.
Context {rt : GoRuntime}.

(** evaluateRule is its reads followed by its writes on the same table. *)
Lemma evaluateRule_reads_then_writes : forall env rule db,
  evaluateRule env rule db = carry_out env rule (decision_of env rule db) db.
Proof.
  intros env rule db. unfold evaluateRule, decision_of, carry_out.
  destruct (query_row env (buildQuery rule (build_now env))) as [v| |e];
    try reflexivity.
  destruct (GetAlerts (get_alerts_fail env) (active_filter (rule_ID rule)) db)
    as [activeAlerts [e|]];
    destruct (float64_ge v (Threshold rule)); try reflexivity.
  destruct (List.length activeAlerts =? 0)%nat; reflexivity.
Qed.

Lemma api_op_active_le : forall op db rule_id,
  is_api op = true ->
  (List.length (active_alerts rule_id (run_op op db))
   <= List.length (active_alerts rule_id db))%nat.
Proof.
  intros [env rule|get_rules envs|db_err now id|db_err now id] db rule_id Hapi;
    simpl in Hapi; try discriminate; simpl.
  - apply ResolveAlert_active_le.
  - apply AcknowledgeAlert_active_le.
Qed.

Lemma api_ops_active_le : forall ops db rule_id,
  (forall op, In op ops -> is_api op = true) ->
  (List.length (active_alerts rule_id (run_ops ops db))
   <= List.length (active_alerts rule_id db))%nat.
Proof.
  induction ops as [|op ops IH]; intros db rule_id Hapi; simpl; [lia|].
  unfold run_ops in *. simpl.
  specialize (IH (run_op op db) rule_id
                (fun o Ho => Hapi o (or_intror Ho))).
  pose proof (api_op_active_le op db rule_id (Hapi op (or_introl eq_refl))).
  lia.
Qed.

Lemma decision_create_no_active : forall env rule db v,
  decision_of env rule db = DCreate v ->
  active_alerts (rule_ID rule) db = [].
Proof.
  intros env rule db v. unfold decision_of.
  destruct (query_row env (buildQuery rule (build_now env))) as [r| |e];
    try discriminate.
  destruct (get_alerts_fail env) as [e|] eqn:Hget; [discriminate|].
  rewrite GetAlerts_active, order_created_desc_length.
  destruct (float64_ge r (Threshold rule)); [|discriminate].
  destruct (active_alerts (rule_ID rule) db) as [|a l]; [reflexivity|].
  simpl. discriminate.
Qed.

(** X1.  One evaluator beside the API: when calls of ResolveAlert and
    AcknowledgeAlert reach the table between the reads of an evaluation
    and its writes, the table still holds at most one active alert per
    rule after the writes. *)
Theorem api_calls_between_reads_and_writes : forall env rule db api,
  one_active_per_rule db ->
  (forall op, In op api -> is_api op = true) ->
  one_active_per_rule
    (snd (fst (carry_out env rule (decision_of env rule db) (run_ops api db)))).
Proof.
  intros env rule db api Hinv Hapi.
  assert (Hinv2 : one_active_per_rule (run_ops api db)).
  { intro rule_id. pose proof (api_ops_active_le api db rule_id Hapi).
    specialize (Hinv rule_id). lia. }
  destruct (decision_of env rule db) as [|e|v|l] eqn:Hd; simpl.
  - exact Hinv2.
  - exact Hinv2.
  - apply decision_create_no_active in Hd.
    pose proof (api_ops_active_le api db (rule_ID rule) Hapi) as Hle.
    rewrite Hd in Hle. simpl in Hle.
    unfold CreateAlert. destruct (create_fail env) as [e|]; [exact Hinv2|].
    change (ID (new_alert env rule v) =? 0)%N with true. cbv iota. cbn [fst snd].
    intro rule_id.
    rewrite (active_alerts_app rule_id (rows (run_ops api db)) _ _
               (next_id (run_ops api db))), table_eta.
    rewrite new_alert_active_for, length_app.
    destruct (rule_ID rule =? rule_id)%N eqn:Heq; simpl.
    + apply N.eqb_eq in Heq. subst rule_id. lia.
    + specialize (Hinv2 rule_id). lia.
  - intro rule_id.
    pose proof (resolve_each_active_le env rule_id l (run_ops api db)) as Hle.
    destruct (resolve_each env l (run_ops api db)) as [db' lg]. simpl in *.
    specialize (Hinv2 rule_id). lia.
Qed.

End InterleavingFacts.

(** ** Evaluations one after the other, and two at once *)

Section RepeatedEvaluationFacts.
Context {rt : GoRuntime}.

Lemma carry_out_create : forall env rule v db,
  create_fail env = None ->
  carry_out env rule (DCreate v) db =
    (None, with_created env rule v db, [LInfo "Alert created" (rule_ID rule)]).
Proof.
  intros env rule v db Hc. unfold carry_out, CreateAlert. rewrite Hc.
  change (ID (new_alert env rule v) =? 0)%N with true. reflexivity.
Qed.

Lemma decision_create : forall env rule db v,
  query_row env (buildQuery rule (build_now env)) = QValue v ->
  float64_ge v (Threshold rule) = true ->
  get_alerts_fail env = None ->
  active_alerts (rule_ID rule) db = [] ->
  decision_of env rule db = DCreate v.
Proof.
  intros env rule db v Hq Hge Hget Hnone. unfold decision_of.
  rewrite Hq, Hget, GetAlerts_active, order_created_desc_length, Hnone, Hge.
  reflexivity.
Qed.

Lemma active_alerts_with_created : forall env rule v db rule_id,
  active_alerts rule_id (with_created env rule v db) =
  active_alerts rule_id db ++
  (if (rule_ID rule =? rule_id)%N then [created_alert env rule v db] else []).
Proof.
  intros env rule v db rule_id. unfold with_created.
  rewrite (active_alerts_app rule_id (rows db) _ _ (next_id db)), table_eta.
  unfold created_alert. rewrite new_alert_active_for. reflexivity.
Qed.

(** X2.  The check-then-create sequence of evaluateRule is not atomic:
    when two evaluations of one rule overlap, so that both read the
    table before either writes, and both find the value at or above the
    threshold and no active alert, both insert: the table ends with two
    active alerts of the rule and the invariant is lost. *)
Theorem overlapping_evaluations_duplicate : forall env1 env2 rule db v1 v2,
  query_row env1 (buildQuery rule (build_now env1)) = QValue v1 ->
  float64_ge v1 (Threshold rule) = true ->
  get_alerts_fail env1 = None -> create_fail env1 = None ->
  query_row env2 (buildQuery rule (build_now env2)) = QValue v2 ->
  float64_ge v2 (Threshold rule) = true ->
  get_alerts_fail env2 = None -> create_fail env2 = None ->
  active_alerts (rule_ID rule) db = [] ->
  let d1 := decision_of env1 rule db in
  let d2 := decision_of env2 rule db in
  let db1 := snd (fst (carry_out env1 rule d1 db)) in
  let db2 := snd (fst (carry_out env2 rule d2 db1)) in
  d1 = DCreate v1 /\ d2 = DCreate v2 /\
  active_alerts (rule_ID rule) db2 =
    [created_alert env1 rule v1 db; created_alert env2 rule v2 db1] /\
  ~ one_active_per_rule db2.
Proof.
  intros env1 env2 rule db v1 v2 Hq1 Hge1 Hget1 Hc1 Hq2 Hge2 Hget2 Hc2 Hnone.
  cbv zeta.
  rewrite (decision_create env1 rule db v1 Hq1 Hge1 Hget1 Hnone).
  rewrite (decision_create env2 rule db v2 Hq2 Hge2 Hget2 Hnone).
  rewrite (carry_out_create env1 rule v1 db Hc1). cbn [fst snd].
  rewrite (carry_out_create env2 rule v2 _ Hc2). cbn [fst snd].
  assert (Hact : active_alerts (rule_ID rule)
            (with_created env2 rule v2 (with_created env1 rule v1 db)) =
          [created_alert env1 rule v1 db;
           created_alert env2 rule v2 (with_created env1 rule v1 db)]).
  { rewrite !active_alerts_with_created, Hnone, N.eqb_refl. reflexivity. }
  split; [reflexivity|]. split; [reflexivity|]. split; [exact Hact|].
  intro H. specialize (H (rule_ID rule)). rewrite Hact in H. simpl in H. lia.
Qed.

(** X8.  While the condition stays at or above the threshold, only the
    first evaluation acts: a second evaluation of the rule, whatever
    value at or above the threshold it reads, returns nil, writes nothing
    and logs nothing, because the rule has an active alert by then. *)
Theorem repeated_evaluation_creates_once : forall env1 env2 rule db v1 v2,
  query_row env1 (buildQuery rule (build_now env1)) = QValue v1 ->
  float64_ge v1 (Threshold rule) = true ->
  get_alerts_fail env1 = None -> create_fail env1 = None ->
  query_row env2 (buildQuery rule (build_now env2)) = QValue v2 ->
  float64_ge v2 (Threshold rule) = true ->
  get_alerts_fail env2 = None ->
  let db1 := snd (fst (evaluateRule env1 rule db)) in
  evaluateRule env2 rule db1 = (None, db1, []) /\
  active_alerts (rule_ID rule) db1 <> [] /\
  (List.length (rows db1) <= S (List.length (rows db)))%nat /\
  (active_alerts (rule_ID rule) db <> [] -> db1 = db).
Proof.
  intros env1 env2 rule db v1 v2 Hq1 Hge1 Hget1 Hc1 Hq2 Hge2 Hget2. cbv zeta.
  destruct (active_alerts (rule_ID rule) db) as [|a l] eqn:Hact.
  - rewrite (evaluateRule_create env1 rule db v1 Hq1 Hge1 Hget1 Hc1 Hact).
    cbn [fst snd].
    assert (Hne : active_alerts (rule_ID rule) (with_created env1 rule v1 db) <> []).
    { rewrite (active_with_created env1 rule db v1 Hact). discriminate. }
    split; [apply (evaluateRule_keep env2 rule _ v2 Hq2 Hge2 Hget2 Hne)|].
    split; [exact Hne|]. split.
    + simpl. rewrite length_app. simpl. lia.
    + intro H. contradiction H. reflexivity.
  - assert (Hne : active_alerts (rule_ID rule) db <> [])
      by (rewrite Hact; discriminate).
    rewrite (evaluateRule_keep env1 rule db v1 Hq1 Hge1 Hget1 Hne).
    cbn [fst snd].
    split; [apply (evaluateRule_keep env2 rule db v2 Hq2 Hge2 Hget2 Hne)|].
    split; [exact Hne|]. split; [lia | reflexivity].
Qed.

Lemma one_active_singleton : forall rule_id db a,
  one_active_per_rule db ->
  In a (rows db) -> is_active_for rule_id a = true ->
  active_alerts rule_id db = [a].
Proof.
  intros rule_id db a Hinv Hin Hact.
  assert (Hina : In a (active_alerts rule_id db))
    by (apply filter_In; split; assumption).
  specialize (Hinv rule_id).
  destruct (active_alerts rule_id db) as [|b [|c l]]; simpl in *.
  - contradiction.
  - destruct Hina as [H|[]]. subst. reflexivity.
  - lia.
Qed.

(** X9.  Acknowledging the active alert of a rule re-arms the rule: the
    acknowledged alert stays in the table but no longer counts as
    active, so the next evaluation that finds the value at or above the
    threshold inserts a second alert for the same condition. *)
Theorem acknowledged_alert_rearms_rule : forall env rule db a now v,
  one_active_per_rule db ->
  In a (rows db) -> is_active_for (rule_ID rule) a = true ->
  query_row env (buildQuery rule (build_now env)) = QValue v ->
  float64_ge v (Threshold rule) = true ->
  get_alerts_fail env = None -> create_fail env = None ->
  let db1 := snd (AcknowledgeAlert None now (ID a) db) in
  let db2 := snd (fst (evaluateRule env rule db1)) in
  active_alerts (rule_ID rule) db1 = [] /\
  evaluateRule env rule db1 =
    (None, with_created env rule v db1, [LInfo "Alert created" (rule_ID rule)]) /\
  In (acknowledge_row now a) (rows db2) /\
  active_alerts (rule_ID rule) db2 = [created_alert env rule v db1] /\
  List.length (rows db2) = S (List.length (rows db)).
Proof.
  intros env rule db a now v Hinv Hin Hact Hq Hge Hget Hc. cbv zeta.
  pose proof (one_active_singleton _ _ _ Hinv Hin Hact) as Hone.
  cbn [AcknowledgeAlert snd].
  assert (Hnone : active_alerts (rule_ID rule)
                    (update_where_id (ID a) (acknowledge_row now) db) = []).
  { unfold active_alerts, update_where_id. cbn [rows].
    apply filter_none. intros b Hb. apply in_map_iff in Hb.
    destruct Hb as [c [Hc' Hinc]]. subst b.
    destruct (ID c =? ID a)%N eqn:Hid.
    - apply acknowledge_row_not_active.
    - destruct (is_active_for (rule_ID rule) c) eqn:Hca; [|reflexivity].
      assert (Hcin : In c (active_alerts (rule_ID rule) db))
        by (apply filter_In; split; assumption).
      rewrite Hone in Hcin. destruct Hcin as [Heq|[]]. subst c.
      rewrite N.eqb_refl in Hid. discriminate. }
  split; [exact Hnone|].
  rewrite (evaluateRule_create env rule _ v Hq Hge Hget Hc Hnone).
  split; [reflexivity|]. cbn [fst snd]. split; [|split].
  - unfold with_created, update_where_id. cbn [rows].
    apply in_or_app. left. apply in_map_iff. exists a.
    rewrite N.eqb_refl. split; [reflexivity | exact Hin].
  - apply active_with_created. exact Hnone.
  - unfold with_created, update_where_id. cbn [rows].
    rewrite length_app, length_map. simpl. lia.
Qed.

End RepeatedEvaluationFacts.

(** ** The history of the alerts table *)

Section HistoryFacts.
Context {rt : GoRuntime}.

Lemma same_identity_refl : forall a, same_identity a a.
Proof. intro a. repeat split. Qed.

Lemma keeps_history_refl : forall db, keeps_history db db.
Proof.
  intros db i a H. exists a. split; [exact H|].
  split; [apply same_identity_refl | reflexivity].
Qed.

Lemma keeps_history_trans : forall db1 db2 db3,
  keeps_history db1 db2 -> keeps_history db2 db3 -> keeps_history db1 db3.
Proof.
  intros db1 db2 db3 H12 H23 i a Hi.
  destruct (H12 i a Hi) as [a2 [Hi2 [Hid2 Hact2]]].
  destruct (H23 i a2 Hi2) as [a3 [Hi3 [Hid3 Hact3]]].
  exists a3. split; [exact Hi3|]. split.
  - destruct Hid2 as [? [? [? [? [? ?]]]]].
    destruct Hid3 as [? [? [? [? [? ?]]]]].
    repeat split; congruence.
  - intro Hs. specialize (Hact3 Hs). subst a3. apply Hact2. exact Hs.
Qed.

Lemma keeps_history_map : forall (f : Alert -> Alert) db n,
  (forall b, same_identity b (f b) /\ (Status (f b) = "active"%string -> f b = b)) ->
  keeps_history db {| rows := map f (rows db); next_id := n |}.
Proof.
  intros f db n Hf i a Hi. exists (f a). split.
  - simpl. apply map_nth_error. exact Hi.
  - apply Hf.
Qed.

Lemma keeps_history_app : forall db l n,
  keeps_history db {| rows := rows db ++ l; next_id := n |}.
Proof.
  intros db l n i a Hi. exists a. split.
  - simpl. rewrite nth_error_app1; [exact Hi|].
    apply nth_error_Some. congruence.
  - split; [apply same_identity_refl | reflexivity].
Qed.

Lemma resolve_row_history : forall now b,
  same_identity b (resolve_row now b) /\
  (Status (resolve_row now b) = "active"%string -> resolve_row now b = b).
Proof. intros now b. split; [repeat split | simpl; discriminate]. Qed.

Lemma acknowledge_row_history : forall now b,
  same_identity b (acknowledge_row now b) /\
  (Status (acknowledge_row now b) = "active"%string -> acknowledge_row now b = b).
Proof. intros now b. split; [repeat split | simpl; discriminate]. Qed.

Lemma update_where_id_history : forall id upd db,
  (forall b, same_identity b (upd b) /\
             (Status (upd b) = "active"%string -> upd b = b)) ->
  keeps_history db (update_where_id id upd db).
Proof.
  intros id upd db Hupd. unfold update_where_id. apply keeps_history_map.
  intro b. destruct (ID b =? id)%N; [apply Hupd|].
  split; [apply same_identity_refl | reflexivity].
Qed.

Lemma evaluateRule_history : forall env rule db,
  keeps_history db (snd (fst (evaluateRule env rule db))).
Proof.
  intros env rule db.
  destruct (evaluateRule_shape env rule db) as [H|[[v [_ H]]|[l [_ H]]]];
    rewrite H.
  - apply keeps_history_refl.
  - apply keeps_history_app.
  - apply keeps_history_map. intro b. unfold resolved_by.
    destruct (existsb _ l); [apply resolve_row_history|].
    split; [apply same_identity_refl | reflexivity].
Qed.

Lemma check_rules_history : forall envs rules i db,
  keeps_history db (fst (check_rules envs i rules db)).
Proof.
  intros envs rules. induction rules as [|rule rest IH]; intros i db; simpl.
  - apply keeps_history_refl.
  - destruct (negb (Enabled rule)); [apply IH|].
    pose proof (evaluateRule_history (envs i) rule db) as H1.
    destruct (evaluateRule (envs i) rule db) as [[err db'] lg]. simpl in H1.
    specialize (IH (S i) db').
    destruct (check_rules envs (S i) rest db') as [db'' lg'']. simpl in *.
    eapply keeps_history_trans; eassumption.
Qed.

Lemma run_op_history : forall op db, keeps_history db (run_op op db).
Proof.
  intros [env rule|get_rules envs|db_err now id|db_err now id] db; simpl.
  - apply evaluateRule_history.
  - unfold CheckAlertRules. destruct get_rules as [rules [e|]]; simpl.
    + apply keeps_history_refl.
    + pose proof (check_rules_history envs rules 0 db) as H.
      destruct (check_rules envs 0 rules db) as [db' lg]. exact H.
  - unfold ResolveAlert. destruct db_err; simpl; [apply keeps_history_refl|].
    apply update_where_id_history. intro b. apply resolve_row_history.
  - unfold AcknowledgeAlert. destruct db_err; simpl; [apply keeps_history_refl|].
    apply update_where_id_history. intro b. apply acknowledge_row_history.
Qed.

(** X7.  No operation of the evaluator or of the API deletes an alert or
    rewrites what it was created with: after any sequence of operations
    every row is still at its place with its id, rule, message, severity,
    value and creation time, and a row that is active afterwards is the
    row as it was (no alert is ever set back to active). *)
Theorem alert_history_is_kept : forall ops db,
  keeps_history db (run_ops ops db) /\
  (List.length (rows db) <= List.length (rows (run_ops ops db)))%nat.
Proof.
  assert (Hk : forall ops db, keeps_history db (run_ops ops db)).
  { induction ops as [|op ops IH]; intro db.
    - apply keeps_history_refl.
    - unfold run_ops in *. simpl.
      eapply keeps_history_trans; [apply run_op_history | apply IH]. }
  intros ops db. split; [apply Hk|].
  destruct (Nat.le_gt_cases (List.length (rows db))
              (List.length (rows (run_ops ops db)))) as [H|H]; [exact H|].
  exfalso.
  destruct (nth_error (rows db) (List.length (rows (run_ops ops db))))
    as [a|] eqn:Ha.
  - destruct (Hk ops db _ a Ha) as [a' [Ha' _]].
    assert (Hn : nth_error (rows (run_ops ops db))
                   (List.length (rows (run_ops ops db))) = None)
      by (apply nth_error_None; lia).
    congruence.
  - apply nth_error_None in Ha. lia.
Qed.

End HistoryFacts.

(** ** What the read operations of the repository return *)

Section ReadFacts.
Context {rt : GoRuntime}.

(** *** Keys and statuses in the tables the operations produce *)

Lemma update_where_id_well_keyed : forall id upd db,
  (forall b, ID (upd b) = ID b) ->
  well_keyed db -> well_keyed (update_where_id id upd db).
Proof.
  intros id upd db Hupd [Hnd Hlt].
  assert (Hid : forall b, ID (if (ID b =? id)%N then upd b else b) = ID b)
    by (intro b; destruct (ID b =? id)%N; [apply Hupd | reflexivity]).
  split.
  - unfold update_where_id. cbn [rows]. rewrite map_map.
    rewrite (map_ext _ ID Hid). exact Hnd.
  - intros a Ha. unfold update_where_id in *. cbn [rows next_id] in *.
    apply in_map_iff in Ha. destruct Ha as [b [Hb Hin]]. subst a.
    rewrite Hid. apply Hlt. exact Hin.
Qed.

Lemma run_op_well_keyed : forall op db, well_keyed db -> well_keyed (run_op op db).
Proof.
  intros [env rule|get_rules envs|db_err now id|db_err now id] db Hwk; simpl.
  - apply evaluateRule_well_keyed. exact Hwk.
  - unfold CheckAlertRules. destruct get_rules as [rules [e|]]; simpl; [exact Hwk|].
    pose proof (check_rules_well_keyed envs rules 0 db Hwk) as H.
    destruct (check_rules envs 0 rules db) as [db' lg]. exact H.
  - unfold ResolveAlert. destruct db_err; simpl; [exact Hwk|].
    apply update_where_id_well_keyed; [reflexivity | exact Hwk].
  - unfold AcknowledgeAlert. destruct db_err; simpl; [exact Hwk|].
    apply update_where_id_well_keyed; [reflexivity | exact Hwk].
Qed.

Lemma update_where_id_statuses : forall id upd db,
  (forall b, valid_status (upd b)) ->
  statuses_valid db -> statuses_valid (update_where_id id upd db).
Proof.
  intros id upd db Hupd Hv. unfold statuses_valid, update_where_id in *.
  cbn [rows]. apply Forall_forall. intros a Ha.
  apply in_map_iff in Ha. destruct Ha as [b [Hb Hin]]. subst a.
  destruct (ID b =? id)%N; [apply Hupd|].
  rewrite Forall_forall in Hv. apply Hv. exact Hin.
Qed.

Lemma evaluateRule_statuses : forall env rule db,
  statuses_valid db -> statuses_valid (snd (fst (evaluateRule env rule db))).
Proof.
  intros env rule db Hv.
  destruct (evaluateRule_shape env rule db) as [H|[[v [_ H]]|[l [_ H]]]];
    rewrite H.
  - exact Hv.
  - unfold statuses_valid, with_created. cbn [rows]. apply Forall_app.
    split; [exact Hv|]. constructor; [|constructor]. left. reflexivity.
  - unfold statuses_valid in *. cbn [rows]. apply Forall_forall. intros a Ha.
    apply in_map_iff in Ha. destruct Ha as [b [Hb Hin]]. subst a.
    unfold resolved_by. destruct (existsb _ l).
    + right. left. reflexivity.
    + rewrite Forall_forall in Hv. apply Hv. exact Hin.
Qed.

Lemma check_rules_statuses : forall envs rules i db,
  statuses_valid db -> statuses_valid (fst (check_rules envs i rules db)).
Proof.
  intros envs rules. induction rules as [|rule rest IH]; intros i db Hv; simpl.
  - exact Hv.
  - destruct (negb (Enabled rule)); [apply IH; exact Hv|].
    pose proof (evaluateRule_statuses (envs i) rule db Hv) as H1.
    destruct (evaluateRule (envs i) rule db) as [[err db'] lg]. simpl in H1.
    specialize (IH (S i) db' H1).
    destruct (check_rules envs (S i) rest db') as [db'' lg'']. exact IH.
Qed.

Lemma run_op_statuses : forall op db,
  statuses_valid db -> statuses_valid (run_op op db).
Proof.
  intros [env rule|get_rules envs|db_err now id|db_err now id] db Hv; simpl.
  - apply evaluateRule_statuses. exact Hv.
  - unfold CheckAlertRules. destruct get_rules as [rules [e|]]; simpl; [exact Hv|].
    pose proof (check_rules_statuses envs rules 0 db Hv) as H.
    destruct (check_rules envs 0 rules db) as [db' lg]. exact H.
  - unfold ResolveAlert. destruct db_err; simpl; [exact Hv|].
    apply update_where_id_statuses; [|exact Hv].
    intro b. right. left. reflexivity.
  - unfold AcknowledgeAlert. destruct db_err; simpl; [exact Hv|].
    apply update_where_id_statuses; [|exact Hv].
    intro b. right. right. reflexivity.
Qed.

Lemma reachable_well_keyed : forall db, reachable db -> well_keyed db.
Proof.
  intros db H. induction H as [|op db _ IH].
  - split; [constructor | intros a []].
  - apply run_op_well_keyed. exact IH.
Qed.

Lemma reachable_statuses : forall db, reachable db -> statuses_valid db.
Proof.
  intros db H. induction H as [|op db _ IH].
  - constructor.
  - apply run_op_statuses. exact IH.
Qed.

(** *** GetAlerts *)

Lemma insert_desc_perm : forall a l, Permutation (insert_desc a l) (a :: l).
Proof.
  intros a l. induction l as [|b l IH]; simpl; [reflexivity|].
  destruct (CreatedAt b <? CreatedAt a); [reflexivity|].
  rewrite IH. apply perm_swap.
Qed.

Lemma order_created_desc_perm : forall l, Permutation (order_created_desc l) l.
Proof.
  induction l as [|a l IH]; simpl; [reflexivity|].
  rewrite insert_desc_perm. constructor. exact IH.
Qed.

Lemma insert_desc_sorted : forall a l,
  StronglySorted not_newer l -> StronglySorted not_newer (insert_desc a l).
Proof.
  intros a l H. induction H as [|b l Hs IH Hall]; simpl.
  - constructor; constructor.
  - destruct (CreatedAt b <? CreatedAt a) eqn:Hlt.
    + apply Z.ltb_lt in Hlt. constructor; [constructor; assumption|].
      constructor; [unfold not_newer; lia|].
      rewrite Forall_forall in *. intros c Hc. specialize (Hall c Hc).
      unfold not_newer in *. lia.
    + apply Z.ltb_ge in Hlt. constructor; [exact IH|].
      rewrite Forall_forall in *. intros c Hc.
      apply insert_desc_In in Hc. destruct Hc as [Hc|Hc].
      * subst c. unfold not_newer. lia.
      * apply Hall. exact Hc.
Qed.

Lemma order_created_desc_sorted : forall l,
  StronglySorted not_newer (order_created_desc l).
Proof.
  induction l as [|a l IH]; simpl; [constructor|].
  apply insert_desc_sorted. exact IH.
Qed.

Lemma In_firstn_to_In : forall n (l : list Alert) x, In x (firstn n l) -> In x l.
Proof.
  induction n as [|n IH]; intros l x H; simpl in H; [contradiction|].
  destruct l as [|b l]; [contradiction|].
  destruct H as [H|H]; [left; exact H | right; apply IH; exact H].
Qed.

Lemma firstn_sorted : forall n (l : list Alert),
  StronglySorted not_newer l -> StronglySorted not_newer (firstn n l).
Proof.
  induction n as [|n IH]; intros l H; simpl; [constructor|].
  destruct H as [|b l Hs Hall]; [constructor|].
  constructor; [apply IH; exact Hs|].
  rewrite Forall_forall in *. intros c Hc. apply Hall.
  eapply (In_firstn_to_In). exact Hc.
Qed.

Lemma skipn_sorted : forall n (l : list Alert),
  StronglySorted not_newer l -> StronglySorted not_newer (skipn n l).
Proof.
  induction n as [|n IH]; intros l H; simpl; [exact H|].
  destruct H as [|b l Hs Hall]; [constructor|].
  apply IH. exact Hs.
Qed.

Lemma paginate_sorted : forall limit offset l,
  StronglySorted not_newer l -> StronglySorted not_newer (paginate limit offset l).
Proof.
  intros limit offset l H. unfold paginate.
  assert (Hs : StronglySorted not_newer
            match offset with
            | Some m => if 0 <? m then skipn (Z.to_nat m) l else l
            | None => l
            end).
  { destruct offset as [m|]; [|exact H].
    destruct (0 <? m); [apply skipn_sorted|]; exact H. }
  destruct limit as [n|]; [|exact Hs].
  destruct (0 <=? n); [apply firstn_sorted|]; exact Hs.
Qed.

Lemma In_skipn_to_In : forall n (l : list Alert) x, In x (skipn n l) -> In x l.
Proof.
  induction n as [|n IH]; intros l x H; simpl in H; [exact H|].
  destruct l as [|b l]; [contradiction|]. right. apply IH. exact H.
Qed.

Lemma paginate_In : forall limit offset l x,
  In x (paginate limit offset l) -> In x l.
Proof.
  intros limit offset l x H. unfold paginate in H.
  assert (Hsk : forall y,
            In y match offset with
                 | Some m => if 0 <? m then skipn (Z.to_nat m) l else l
                 | None => l
                 end -> In y l).
  { intros y Hy. destruct offset as [m|]; [|exact Hy].
    destruct (0 <? m); [eapply In_skipn_to_In|]; exact Hy. }
  apply Hsk. destruct limit as [n|]; [|exact H].
  destruct (0 <=? n); [eapply In_firstn_to_In|]; exact H.
Qed.

(** X10.  What a successful GetAlerts returns for a filter whose status
    and severity, when set, are literals of the ENUM columns (active,
    resolved, acknowledged; low, medium, high, critical): only rows of
    the table that satisfy every filter field that is set, newest first;
    with no limit and no offset all of them, each as often as the table
    holds it; with a limit n >= 0 at most n of them. *)
Theorem GetAlerts_result : forall f db l,
  literal_filter f = true ->
  GetAlerts None f db = (l, None) ->
  StronglySorted not_newer l /\
  (forall a, In a l -> In a (rows db) /\ matches f a = true) /\
  (f_Limit f = None -> f_Offset f = None ->
     Permutation l (filter (matches f) (rows db))) /\
  (forall n, f_Limit f = Some n -> 0 <= n ->
     (List.length l <= Z.to_nat n)%nat).
Proof.
  intros f db l _ H. unfold GetAlerts in H. injection H as H. subst l.
  split; [|split; [|split]].
  - apply paginate_sorted, order_created_desc_sorted.
  - intros a Ha. apply paginate_In in Ha.
    apply (proj1 (order_created_desc_In _ _)) in Ha.
    apply filter_In in Ha. exact Ha.
  - intros Hl Ho. rewrite Hl, Ho. unfold paginate.
    apply order_created_desc_perm.
  - intros n Hl Hn. rewrite Hl. unfold paginate.
    apply Z.leb_le in Hn. rewrite Hn. apply firstn_le_length.
Qed.

(** *** GetAlertByID *)

Lemma find_id_none : forall id (l : list Alert),
  (forall a, In a l -> ID a <> id) ->
  find (fun a => (ID a =? id)%N) l = None.
Proof.
  intros id l H. induction l as [|b l IH]; simpl; [reflexivity|].
  destruct (ID b =? id)%N eqn:Hb.
  - apply N.eqb_eq in Hb. exfalso. apply (H b); [left; reflexivity | exact Hb].
  - apply IH. intros a Ha. apply H. right. exact Ha.
Qed.

Lemma find_snoc : forall (p : Alert -> bool) l x,
  find p (l ++ [x]) =
  match find p l with
  | Some a => Some a
  | None => if p x then Some x else None
  end.
Proof.
  intros p l x. induction l as [|b l IH]; simpl; [reflexivity|].
  destruct (p b); [reflexivity | exact IH].
Qed.

(** X11.  An alert inserted by CreateAlert is read back by GetAlertByID
    under the AUTO_INCREMENT id it was given, as it was stored; every
    other id reads as before the insert; and an id no row has gives
    gorm.ErrRecordNotFound. *)
Theorem CreateAlert_then_GetAlertByID : forall db now alert,
  well_keyed db -> ID alert = 0%N ->
  let id := next_id db in
  let db' := snd (CreateAlert None now alert db) in
  fst (CreateAlert None now alert db) = None /\
  GetAlertByID None id db = (None, Some ErrRecordNotFound) /\
  GetAlertByID None id db' = (Some (insert_row id now alert), None) /\
  (forall other, other <> id ->
     GetAlertByID None other db' = GetAlertByID None other db) /\
  well_keyed db'.
Proof.
  intros db now alert [Hnd Hlt] Hzero. cbv zeta.
  unfold CreateAlert. rewrite Hzero. change (0 =? 0)%N with true.
  cbn [fst snd].
  assert (Hfresh : find (fun a => (ID a =? next_id db)%N) (rows db) = None).
  { apply find_id_none. intros a Ha Heq. specialize (Hlt a Ha). lia. }
  split; [reflexivity|]. split; [|split; [|split]].
  - unfold GetAlertByID. rewrite Hfresh. reflexivity.
  - unfold GetAlertByID. cbn [rows]. rewrite find_snoc, Hfresh.
    cbn [insert_row ID]. rewrite N.eqb_refl. reflexivity.
  - intros other Hother. unfold GetAlertByID. cbn [rows].
    rewrite find_snoc. cbn [insert_row ID].
    destruct (find (fun a => (ID a =? other)%N) (rows db)); [reflexivity|].
    destruct (next_id db =? other)%N eqn:Heq; [|reflexivity].
    apply N.eqb_eq in Heq. congruence.
  - split; cbn [rows next_id].
    + rewrite map_app. simpl. apply NoDup_snoc; [exact Hnd|].
      intro Hin. apply in_map_iff in Hin. destruct Hin as [b [Hb Hin]].
      specialize (Hlt b Hin). lia.
    + intros a Ha. apply in_app_or in Ha. destruct Ha as [Ha|[Ha|[]]].
      * specialize (Hlt a Ha). lia.
      * subst a. simpl. lia.
Qed.

(** *** GetActiveAlerts *)

Lemma filter_length_pos : forall (p : Alert -> bool) l b,
  In b l -> p b = true -> (1 <= List.length (filter p l))%nat.
Proof.
  intros p l b Hin Hp.
  assert (H : In b (filter p l)) by (apply filter_In; split; assumption).
  destruct (filter p l); [contradiction | simpl; lia].
Qed.

Lemma active_rules_NoDup : forall l,
  (forall r, (List.length (filter (is_active_for r) l) <= 1)%nat) ->
  NoDup (map RuleID (filter (has_status "active") l)).
Proof.
  induction l as [|a l IH]; intro H; simpl; [constructor|].
  assert (Hl : forall r, (List.length (filter (is_active_for r) l) <= 1)%nat).
  { intro r. specialize (H r). simpl in H.
    destruct (is_active_for r a); simpl in H; lia. }
  destruct (has_status "active" a) eqn:Ha; [|apply IH; exact Hl].
  simpl. constructor; [|apply IH; exact Hl].
  intro Hin. apply in_map_iff in Hin. destruct Hin as [b [Hb Hin]].
  apply filter_In in Hin. destruct Hin as [Hin Hbact].
  specialize (H (RuleID a)). simpl in H.
  assert (Haa : is_active_for (RuleID a) a = true).
  { unfold is_active_for. rewrite N.eqb_refl. exact Ha. }
  assert (Hba : is_active_for (RuleID a) b = true).
  { unfold is_active_for. rewrite Hb, N.eqb_refl. exact Hbact. }
  rewrite Haa in H. simpl in H.
  pose proof (filter_length_pos _ l b Hin Hba). lia.
Qed.

(** X12.  In a table with at most one active alert per rule (every table
    the operations reach), a successful GetActiveAlerts returns exactly
    the active rows, newest first, and no two of them are of the same
    rule. *)
Theorem GetActiveAlerts_one_per_rule : forall db l,
  one_active_per_rule db ->
  GetActiveAlerts None db = (l, None) ->
  NoDup (map RuleID l) /\
  StronglySorted not_newer l /\
  (forall a, In a l <-> In a (rows db) /\ Status a = "active"%string).
Proof.
  intros db l Hinv H. unfold GetActiveAlerts in H. injection H as H. subst l.
  split; [|split].
  - eapply Permutation_NoDup.
    + apply Permutation_map. symmetry. apply order_created_desc_perm.
    + apply (active_rules_NoDup (rows db)). exact Hinv.
  - apply order_created_desc_sorted.
  - intro a. rewrite order_created_desc_In, filter_In.
    rewrite String.eqb_eq. reflexivity.
Qed.

(** *** GetAlertStats *)

Lemma status_partition : forall l,
  Forall valid_status l ->
  List.length l =
  (List.length (filter (has_status "active") l) +
   List.length (filter (has_status "resolved") l) +
   List.length (filter (has_status "acknowledged") l))%nat.
Proof.
  intros l H. induction H as [|a l Ha _ IH]; [reflexivity|].
  unfold has_status in *. simpl.
  destruct Ha as [Ha|[Ha|Ha]]; rewrite Ha; simpl; lia.
Qed.

Lemma severity_disjoint : forall l,
  (List.length (filter (has_severity "critical") l) +
   List.length (filter (has_severity "high") l) +
   List.length (filter (has_severity "medium") l) +
   List.length (filter (has_severity "low") l) <= List.length l)%nat.
Proof.
  induction l as [|a l IH]; [simpl; lia|].
  unfold has_severity in *. simpl.
  destruct (String.eqb (Severity a) "critical") eqn:H1.
  - apply String.eqb_eq in H1. rewrite H1. simpl. lia.
  - destruct (String.eqb (Severity a) "high") eqn:H2.
    + apply String.eqb_eq in H2. rewrite H2. simpl. lia.
    + destruct (String.eqb (Severity a) "medium") eqn:H3.
      * apply String.eqb_eq in H3. rewrite H3. simpl. lia.
      * destruct (String.eqb (Severity a) "low"); simpl; lia.
Qed.

(** X13.  The counts of GetAlertStats over a table the operations reach,
    when no write falls between its seven queries: the total is the
    number of active, resolved and acknowledged alerts together
    (acknowledged alerts are in the total but have no count of their
    own), and the four severity counts together do not exceed the
    total.  When a count query fails, the call fails with the error of
    the first query that fails, in the order of the seven queries. *)
Theorem GetAlertStats_accounting : forall db query_err,
  reachable db ->
  match GetAlertStats query_err (fun _ => db) with
  | (Some stats, None) =>
    (forall k, (k < 7)%nat -> query_err k = None) /\
    TotalAlerts stats = Z.of_nat (List.length (rows db)) /\
    TotalAlerts stats =
      ActiveAlerts stats + ResolvedAlerts stats +
      count_where (has_status "acknowledged") db /\
    CriticalAlerts stats + HighAlerts stats + MediumAlerts stats +
      LowAlerts stats <= TotalAlerts stats
  | (None, Some e) =>
    exists k, (k < 7)%nat /\ query_err k = Some e /\
      forall j, (j < k)%nat -> query_err j = None
  | _ => False
  end.
Proof.
  intros db query_err Hr. unfold GetAlertStats.
  assert (Hbelow : forall k,
            (forall j, (j < k)%nat -> query_err j = None) ->
            query_err k = None ->
            forall j, (j < S k)%nat -> query_err j = None).
  { intros k Hk Hnone j Hj.
    destruct (Nat.eq_dec j k) as [->|Hne]; [exact Hnone | apply Hk; lia]. }
  assert (Hb0 : forall j, (j < 0)%nat -> query_err j = None)
    by (intros j Hj; lia).
  destruct (query_err 0%nat) as [e|] eqn:H0;
    [exists 0%nat; split; [lia|split; [exact H0|exact Hb0]]|].
  pose proof (Hbelow _ Hb0 H0) as Hb1.
  destruct (query_err 1%nat) as [e|] eqn:H1;
    [exists 1%nat; split; [lia|split; [exact H1|exact Hb1]]|].
  pose proof (Hbelow _ Hb1 H1) as Hb2.
  destruct (query_err 2%nat) as [e|] eqn:H2;
    [exists 2%nat; split; [lia|split; [exact H2|exact Hb2]]|].
  pose proof (Hbelow _ Hb2 H2) as Hb3.
  destruct (query_err 3%nat) as [e|] eqn:H3;
    [exists 3%nat; split; [lia|split; [exact H3|exact Hb3]]|].
  pose proof (Hbelow _ Hb3 H3) as Hb4.
  destruct (query_err 4%nat) as [e|] eqn:H4;
    [exists 4%nat; split; [lia|split; [exact H4|exact Hb4]]|].
  pose proof (Hbelow _ Hb4 H4) as Hb5.
  destruct (query_err 5%nat) as [e|] eqn:H5;
    [exists 5%nat; split; [lia|split; [exact H5|exact Hb5]]|].
  pose proof (Hbelow _ Hb5 H5) as Hb6.
  destruct (query_err 6%nat) as [e|] eqn:H6;
    [exists 6%nat; split; [lia|split; [exact H6|exact Hb6]]|].
  cbn [TotalAlerts ActiveAlerts ResolvedAlerts CriticalAlerts HighAlerts
       MediumAlerts LowAlerts].
  unfold count_where.
  assert (Hall : filter (fun _ : Alert => true) (rows db) = rows db)
    by (apply filter_all; reflexivity).
  rewrite Hall.
  pose proof (status_partition (rows db) (reachable_statuses db Hr)) as Hp.
  pose proof (severity_disjoint (rows db)) as Hs.
  split; [|split; [reflexivity|split; lia]].
  exact (Hbelow _ Hb6 H6).
Qed.

End ReadFacts.

(** ** The periodic checker *)

Section CheckerFacts.
Context {rt : GoRuntime}.

Lemma checker_loop_ticks : forall ticks rest db,
  forallb is_tick ticks = true ->
  fst (fst (checker_loop (ticks ++ rest) db)) =
    fst (fst (checker_loop rest (run_ops (cycles_of ticks) db))) /\
  snd (checker_loop (ticks ++ rest) db) =
    snd (checker_loop rest (run_ops (cycles_of ticks) db)) /\
  exists lg, snd (fst (checker_loop (ticks ++ rest) db)) =
    (lg ++ snd (fst (checker_loop rest (run_ops (cycles_of ticks) db))))%list /\
    forall rules e envs, In (Tick (rules, Some e) envs) ticks ->
      In (LError "Failed to check alert rules"
            (wrap_error "failed to get alert rules" e) 0%N) lg.
Proof.
  induction ticks as [|ev ticks IH]; intros rest db Hticks.
  - simpl. split; [reflexivity|]. split; [reflexivity|].
    exists []. split; [reflexivity|]. intros rules e envs [].
  - destruct ev as [get_rules envs|]; [|discriminate].
    simpl in Hticks.
    destruct (IH rest (run_op (OpCheckRules get_rules envs) db) Hticks)
      as [Hdb [Hret [lg [Hlg Herr]]]].
    change (cycles_of (Tick get_rules envs :: ticks))
      with (OpCheckRules get_rules envs :: cycles_of ticks).
    change (run_ops (OpCheckRules get_rules envs :: cycles_of ticks) db)
      with (run_ops (cycles_of ticks) (run_op (OpCheckRules get_rules envs) db)).
    simpl app. cbn [checker_loop].
    cbn [run_op] in *.
    destruct (CheckAlertRules get_rules envs db) as [[err db1] lg1] eqn:Hcycle.
    cbn [fst snd] in *.
    destruct (checker_loop (ticks ++ rest) db1) as [[db2 lg2] ret2].
    cbn [fst snd] in *.
    split; [exact Hdb|]. split; [exact Hret|].
    exists ((match err with
             | Some e => lg1 ++ [LError "Failed to check alert rules" e 0%N]
             | None => lg1
             end) ++ lg)%list.
    split; [rewrite Hlg; apply app_assoc|].
    intros rules e envs' [Hin|Hin].
    + injection Hin as Hg He. subst get_rules envs'.
      unfold CheckAlertRules in Hcycle. injection Hcycle as Herr' _ Hlg1.
      subst err lg1. apply in_or_app. left. left. reflexivity.
    + apply in_or_app. right. eapply Herr. exact Hin.
Qed.

(** X14.  StartAlertChecker runs one cycle per tick until the context
    ends: a cycle that fails (the rules cannot be read) is logged and
    the next tick starts a cycle all the same; when the context ends the
    function returns, and no event after that is looked at.  The table
    it leaves is the one the cycles leave one after the other, with at
    most one active alert per rule if it started so. *)
Theorem StartAlertChecker_runs_until_done : forall ticks later db,
  forallb is_tick ticks = true ->
  let run := StartAlertChecker (ticks ++ CtxDone :: later) db in
  snd run = true /\
  fst (fst run) = run_ops (cycles_of ticks) db /\
  run = StartAlertChecker (ticks ++ [CtxDone]) db /\
  (forall rules e envs, In (Tick (rules, Some e) envs) ticks ->
     In (LError "Failed to check alert rules"
           (wrap_error "failed to get alert rules" e) 0%N) (snd (fst run))) /\
  last (snd (fst run)) (LInfo "" 0%N) = LInfo "Alert checker stopped" 0%N /\
  (one_active_per_rule db -> one_active_per_rule (fst (fst run))) /\
  snd (StartAlertChecker ticks db) = false.
Proof.
  intros ticks later db Hticks. cbv zeta.
  destruct (checker_loop_ticks ticks (CtxDone :: later) db Hticks)
    as [Hdb [Hret [lg [Hlg Herr]]]].
  destruct (checker_loop_ticks ticks [CtxDone] db Hticks)
    as [Hdb1 [Hret1 [lg1 [Hlg1 Herr1]]]].
  destruct (checker_loop_ticks ticks [] db Hticks) as [_ [Hret0 _]].
  rewrite app_nil_r in Hret0.
  unfold StartAlertChecker.
  destruct (checker_loop (ticks ++ CtxDone :: later) db) as [[db' lg'] ret'] eqn:E.
  destruct (checker_loop (ticks ++ [CtxDone]) db) as [[db1 lg1'] ret1] eqn:E1.
  destruct (checker_loop ticks db) as [[db0 lg0] ret0] eqn:E0.
  cbn [checker_loop fst snd] in *.
  subst db' ret' lg' db1 ret1 ret0.
  split; [reflexivity|]. split; [reflexivity|]. split; [|split; [|split; [|split]]].
  - f_equal. f_equal. f_equal.
    assert (Hsame : forall ticks' db',
              forallb is_tick ticks' = true ->
              snd (fst (checker_loop (ticks' ++ CtxDone :: later) db')) =
              snd (fst (checker_loop (ticks' ++ [CtxDone]) db'))).
    { induction ticks' as [|ev t IHt]; intros db' Ht; [reflexivity|].
      destruct ev as [g en|]; [|discriminate]. simpl in Ht.
      simpl app. cbn [checker_loop].
      destruct (CheckAlertRules g en db') as [[err d1] l1].
      specialize (IHt d1 Ht).
      destruct (checker_loop (t ++ CtxDone :: later) d1) as [[d2 l2] r2].
      destruct (checker_loop (t ++ [CtxDone]) d1) as [[d3 l3] r3].
      cbn [fst snd] in *. subst l3. reflexivity. }
    specialize (Hsame ticks db Hticks). rewrite E, E1 in Hsame.
    cbn [fst snd] in Hsame. rewrite <- Hsame. reflexivity.
  - intros rules e envs Hin. right. apply in_or_app. left.
    eapply Herr. exact Hin.
  - change (LInfo "Alert checker started" 0%N ::
              lg ++ [LInfo "Alert checker stopped" 0%N])%list
      with (([LInfo "Alert checker started" 0%N] ++ lg) ++
              [LInfo "Alert checker stopped" 0%N])%list.
    apply last_last.
  - intro Hinv. clear -Hinv.
    revert db Hinv. induction (cycles_of ticks) as [|op ops IH]; intros db Hinv.
    + exact Hinv.
    + unfold run_ops in *. simpl. apply IH. apply run_op_preserves. exact Hinv.
  - reflexivity.
Qed.

End CheckerFacts.

(** ** The alert endpoints one after the other *)

Section EndpointFacts.

Lemma find_update_where_id : forall id other upd db,
  (forall b, ID (upd b) = ID b) ->
  find (fun a => (ID a =? other)%N) (rows (update_where_id id upd db)) =
  option_map (fun a => if (ID a =? id)%N then upd a else a)
    (find (fun a => (ID a =? other)%N) (rows db)).
Proof.
  intros id other upd db Hupd. unfold update_where_id. cbn [rows].
  induction (rows db) as [|b l IH]; [reflexivity|]. simpl.
  assert (Hid : ID (if (ID b =? id)%N then upd b else b) = ID b)
    by (destruct (ID b =? id)%N; [apply Hupd | reflexivity]).
  rewrite Hid. destruct (ID b =? other)%N; [reflexivity | exact IH].
Qed.

Lemma find_id_found : forall id (l : list Alert) a,
  find (fun a => (ID a =? id)%N) l = Some a -> ID a = id.
Proof.
  intros id l a H. apply find_some in H. destruct H as [_ H].
  apply N.eqb_eq. exact H.
Qed.

(** X15.  Through the HTTP endpoints: after POST resolve (or
    acknowledge) of an id has answered 200, GET of the same id answers
    200 with the alert as it was but for its status, the resolution (or
    acknowledgement) time and updated_at; if the id has no row, the POST
    answers 200 all the same and the GET answers 404. *)
Theorem resolve_then_get_by_id : forall idStr id now db,
  GoStrings.ParseUint idStr 32 = Some id ->
  let after_resolve := snd (fst (Handlers.ResolveAlert idStr None now db)) in
  let after_ack := snd (fst (Handlers.AcknowledgeAlert idStr None now db)) in
  Handlers.code (fst (fst (Handlers.ResolveAlert idStr None now db))) = 200 /\
  Handlers.code (fst (fst (Handlers.AcknowledgeAlert idStr None now db))) = 200 /\
  (forall a, fst (Alerts.GetAlertByID None id db) = Some a ->
     Handlers.GetAlertByID idStr None after_resolve =
       (200, inl (Some (resolve_row now a)), []) /\
     Handlers.GetAlertByID idStr None after_ack =
       (200, inl (Some (acknowledge_row now a)), [])) /\
  (fst (Alerts.GetAlertByID None id db) = None ->
     Handlers.GetAlertByID idStr None after_resolve =
       (404, inr "Alert not found"%string,
        [LError "Failed to get alert" ErrRecordNotFound id]) /\
     Handlers.GetAlertByID idStr None after_ack =
       (404, inr "Alert not found"%string,
        [LError "Failed to get alert" ErrRecordNotFound id])).
Proof.
  intros idStr id now db Hparse. cbv zeta.
  unfold Handlers.ResolveAlert, Handlers.AcknowledgeAlert, Handlers.GetAlertByID.
  rewrite Hparse. cbn [Alerts.ResolveAlert Alerts.AcknowledgeAlert fst snd].
  split; [reflexivity|]. split; [reflexivity|].
  unfold Alerts.GetAlertByID.
  rewrite !find_update_where_id by reflexivity.
  destruct (find (fun a => (ID a =? id)%N) (rows db)) as [b|] eqn:Hfind;
    cbn [fst option_map].
  - split; [|discriminate]. intros a Ha. injection Ha as Ha. subst b.
    apply find_id_found in Hfind. rewrite Hfind, N.eqb_refl.
    split; reflexivity.
  - split; [discriminate|]. intros _. split; reflexivity.
Qed.

End EndpointFacts.

(** ** Ids the endpoints cannot name *)

Section IdRangeFacts.

Lemma ParseUint_range : forall s bitSize n,
  GoStrings.ParseUint s bitSize = Some n -> (n < 2 ^ bitSize)%N.
Proof.
  intros s bitSize n H. unfold GoStrings.ParseUint in H.
  destruct s as [|c s]; [discriminate|].
  destruct (GoStrings.parse_digits (String c s) 0) as [m|]; [|discriminate].
  destruct (m <? 2 ^ bitSize)%N eqn:Hlt; [|discriminate].
  injection H as H. subst m. apply N.ltb_lt. exact Hlt.
Qed.

Lemma update_where_id_other : forall id upd db a,
  In a (rows db) -> ID a <> id -> In a (rows (update_where_id id upd db)).
Proof.
  intros id upd db a Hin Hne. unfold update_where_id. cbn [rows].
  apply in_map_iff. exists a. split; [|exact Hin].
  apply N.eqb_neq in Hne. rewrite Hne. reflexivity.
Qed.

(** X26.  The resolve, acknowledge and get endpoints parse the id with
    32 bits, while the id column is 64 bits wide: an alert whose id is
    2^32 or more is left as it is by every call of the resolve and the
    acknowledge endpoint, whatever id text is sent, and is never the
    alert the get endpoint answers with. *)
Theorem endpoints_cannot_reach_large_ids : forall idStr db_err now db a,
  In a (rows db) -> (2 ^ 32 <= ID a)%N ->
  In a (rows (snd (fst (Handlers.ResolveAlert idStr db_err now db)))) /\
  In a (rows (snd (fst (Handlers.AcknowledgeAlert idStr db_err now db)))) /\
  snd (fst (Handlers.GetAlertByID idStr db_err db)) <> inl (Some a).
Proof.
  intros idStr db_err now db a Hin Hbig.
  unfold Handlers.ResolveAlert, Handlers.AcknowledgeAlert, Handlers.GetAlertByID.
  destruct (GoStrings.ParseUint idStr 32) as [id|] eqn:Hparse.
  - apply ParseUint_range in Hparse.
    assert (Hne : ID a <> id) by lia.
    unfold Alerts.ResolveAlert, Alerts.AcknowledgeAlert, Alerts.GetAlertByID.
    destruct db_err as [e|]; cbn [fst snd].
    + split; [exact Hin|]. split; [exact Hin | discriminate].
    + split; [apply update_where_id_other; assumption|].
      split; [apply update_where_id_other; assumption|].
      destruct (find (fun x => (ID x =? id)%N) (rows db)) as [b|] eqn:Hfind;
        cbn [fst snd]; [|discriminate].
      intro Heq. injection Heq as Heq. subst b.
      apply find_id_found in Hfind. contradiction.
  - cbn [fst snd]. split; [exact Hin|]. split; [exact Hin | discriminate].
Qed.

End IdRangeFacts.

(** ** The batch insert, and the consumer under any order of events *)

Section BatchInsertFacts.
Import Logs.

Lemma chunk_fuel_concat : forall fuel size (l : list Log),
  (0 < size)%nat -> (List.length l <= fuel)%nat ->
  List.concat (chunk_fuel fuel size l) = l.
Proof.
  induction fuel as [|fuel IH]; intros size l Hsize Hlen.
  - destruct l; [reflexivity | simpl in Hlen; lia].
  - destruct l as [|a l]; [reflexivity|].
    change (List.concat (chunk_fuel (S fuel) size (a :: l)))
      with (firstn size (a :: l) ++
            List.concat (chunk_fuel fuel size (skipn size (a :: l))))%list.
    rewrite IH; [apply firstn_skipn | exact Hsize |].
    rewrite length_skipn. cbn [List.length] in *. lia.
Qed.

Lemma chunk_fuel_sizes : forall fuel size (l : list Log),
  (0 < size)%nat ->
  Forall (fun c => (1 <= List.length c <= size)%nat) (chunk_fuel fuel size l).
Proof.
  induction fuel as [|fuel IH]; intros size l Hsize; [constructor|].
  destruct l as [|a l]; [constructor|].
  change (chunk_fuel (S fuel) size (a :: l))
    with (firstn size (a :: l) :: chunk_fuel fuel size (skipn size (a :: l))).
  constructor; [|apply IH; exact Hsize].
  rewrite length_firstn. simpl List.length. lia.
Qed.

Lemma chunk_fuel_count : forall fuel size (l : list Log),
  (0 < size)%nat -> (List.length l <= fuel)%nat ->
  List.length (chunk_fuel fuel size l) = ((List.length l + size - 1) / size)%nat.
Proof.
  induction fuel as [|fuel IH]; intros size l Hsize Hlen.
  - destruct l; [|simpl in Hlen; lia]. simpl.
    symmetry. apply Nat.div_small. lia.
  - destruct l as [|a l].
    + simpl. symmetry. apply Nat.div_small. lia.
    + change (chunk_fuel (S fuel) size (a :: l))
        with (firstn size (a :: l) :: chunk_fuel fuel size (skipn size (a :: l))).
      cbn [List.length]. rewrite IH; [|exact Hsize|].
      * rewrite length_skipn. cbn [List.length].
        destruct (Nat.le_gt_cases (S (List.length l)) size) as [Hle|Hgt].
        -- replace (S (List.length l) - size)%nat with 0%nat by lia.
           replace ((0 + size - 1) / size)%nat with 0%nat
             by (symmetry; apply Nat.div_small; lia).
           apply (Nat.div_unique _ _ 1 (List.length l)); lia.
        -- replace (S (List.length l) + size - 1)%nat
             with ((S (List.length l) - size + size - 1) + 1 * size)%nat by lia.
           rewrite Nat.div_add by lia. lia.
      * rewrite length_skipn. cbn [List.length] in *. lia.
Qed.

(** X16.  CreateLogBatch: an empty slice is no call of the driver and
    returns nil; a failing insert stores nothing and returns the wrapped
    error; a succeeding one adds the logs to the table in their order,
    none lost and none twice, in ceil(n/100) INSERT statements of 1 to
    100 rows each. *)
Theorem CreateLogBatch_rows : forall db_err logs db,
  match CreateLogBatch db_err logs db with
  | (None, db') =>
    exists inserts,
      db' = (db ++ inserts)%list /\
      List.concat inserts = logs /\
      Forall (fun c => (1 <= List.length c <= 100)%nat) inserts /\
      List.length inserts = ((List.length logs + 99) / 100)%nat /\
      (logs <> [] -> db_err = None)
  | (Some e, db') =>
    db' = db /\ logs <> [] /\
    exists cause, db_err = Some cause /\
                  e = wrap_error "failed to create log batch" cause
  end.
Proof.
  intros db_err logs db. unfold CreateLogBatch.
  destruct logs as [|a logs].
  - simpl. exists []. rewrite app_nil_r.
    repeat split; try reflexivity; [constructor | intro H; contradiction H; reflexivity].
  - cbn [List.length Nat.eqb].
    destruct db_err as [cause|].
    + split; [reflexivity|]. split; [discriminate|].
      exists cause. split; reflexivity.
    + exists (CreateInBatches (a :: logs) 100). unfold CreateInBatches.
      split; [reflexivity|]. split; [apply chunk_fuel_concat; lia|].
      split; [apply chunk_fuel_sizes; lia|]. split; [|reflexivity].
      rewrite chunk_fuel_count by lia.
      replace (List.length (a :: logs) + 100 - 1)%nat
        with (List.length (a :: logs) + 99)%nat by lia.
      reflexivity.
Qed.

End BatchInsertFacts.

Section ConsumerOrderFacts.
Context {rt : GoRuntime}.
Import Logs Consumers.

Variable batchSize : Z.
Variable flush_fail : nat -> option error.
Hypothesis batchSize_pos : 0 < batchSize.

Lemma succeeded_app : forall l1 l2 k,
  succeeded flush_fail k (l1 ++ l2) =
  (succeeded flush_fail k l1 ++ succeeded flush_fail (k + List.length l1) l2)%list.
Proof.
  induction l1 as [|b l1 IH]; intros l2 k; simpl.
  - rewrite Nat.add_0_r. reflexivity.
  - rewrite IH. replace (k + S (List.length l1))%nat
      with (S k + List.length l1)%nat by lia.
    destruct (flush_fail k); reflexivity.
Qed.

Lemma processBatch_rows : forall db what st,
  batch st <> [] ->
  log_rows (logs_db st) =
    (log_rows db ++ List.concat (succeeded flush_fail 0 (flush_calls st)))%list ->
  log_rows (logs_db (processBatch flush_fail what st)) =
    (log_rows db ++
     List.concat (succeeded flush_fail 0 (flush_calls st ++ [batch st])))%list.
Proof.
  intros db what st Hne Hrows. unfold processBatch, HandleLogBatch.
  pose proof (CreateLogBatch_rows (flush_fail (List.length (flush_calls st)))
                (batch st) (logs_db st)) as H.
  rewrite succeeded_app. cbn [succeeded Nat.add].
  destruct (CreateLogBatch (flush_fail (List.length (flush_calls st)))
              (batch st) (logs_db st)) as [[e|] db'].
  - destruct H as [Hdb [_ [cause [Hcause _]]]]. subst db'. cbn [logs_db].
    rewrite Hcause, Hrows. simpl. rewrite app_nil_r. reflexivity.
  - destruct H as [inserts [Hdb [Hconcat [_ [_ Hok]]]]]. subst db'.
    cbn [logs_db]. rewrite (Hok Hne). unfold log_rows in *.
    rewrite concat_app, Hrows, Hconcat, concat_app. simpl.
    rewrite app_nil_r, app_assoc. reflexivity.
Qed.

Lemma on_message_settled : forall db recs vals value t1 t2 st,
  settled batchSize flush_fail db recs vals st ->
  settled batchSize flush_fail db (recs ++ records_of [Message value t1 t2]) (vals ++ [value])
    (on_message batchSize flush_fail value t1 t2 st).
Proof.
  intros db recs vals value t1 t2 st [Hlt [Hcalls [Hrecs [Hmarked Hrows]]]].
  unfold on_message. simpl records_of.
  destruct (json_Unmarshal_Log value) as [log|].
  - cbv zeta.
    set (st1 := {| batch := batch st ++ [stamp log t1 t2];
                   marked := marked st ++ [value];
                   flush_calls := flush_calls st; logs_db := logs_db st;
                   out := out st |}).
    assert (Hlen1 : Z.of_nat (List.length (batch st1)) =
                    Z.of_nat (List.length (batch st)) + 1).
    { simpl. rewrite length_app. simpl. lia. }
    destruct (batchSize <=? Z.of_nat (List.length (batch st1))) eqn:Hfull.
    + apply Z.leb_le in Hfull.
      assert (Hne : batch st1 <> []).
      { simpl. destruct (batch st); discriminate. }
      pose proof (processBatch_rows db "Failed to process batch"%string st1 Hne Hrows)
        as Hrows1.
      unfold settled, clear. cbn [batch marked flush_calls logs_db].
      rewrite processBatch_calls. split; [simpl; lia|]. split; [|split; [|split]].
      * intros b Hb. apply in_app_or in Hb. destruct Hb as [Hb|[Hb|[]]].
        -- apply Hcalls. exact Hb.
        -- subst b. split; [exact Hne | lia].
      * rewrite app_nil_r, concat_app. simpl. rewrite app_nil_r.
        rewrite <- Hrecs. rewrite app_assoc. reflexivity.
      * unfold processBatch.
        destruct (HandleLogBatch _ _ _) as [[err db'] lg]. simpl.
        rewrite Hmarked. reflexivity.
      * exact Hrows1.
    + apply Z.leb_gt in Hfull. unfold settled. simpl.
      split; [simpl in Hfull; exact Hfull|]. split; [exact Hcalls|].
      split; [rewrite <- Hrecs, app_assoc; reflexivity|].
      split; [rewrite Hmarked; reflexivity | exact Hrows].
  - unfold settled. simpl. rewrite app_nil_r.
    split; [exact Hlt|]. split; [exact Hcalls|]. split; [exact Hrecs|].
    split; [rewrite Hmarked; reflexivity | exact Hrows].
Qed.

Lemma flush_settled : forall db recs vals what st,
  settled batchSize flush_fail db recs vals st -> batch st <> [] ->
  let st' := processBatch flush_fail what st in
  (forall b, In b (flush_calls st') ->
     b <> [] /\ Z.of_nat (List.length b) <= batchSize) /\
  List.concat (flush_calls st') = recs /\
  marked st' = vals /\
  log_rows (logs_db st') =
    (log_rows db ++ List.concat (succeeded flush_fail 0 (flush_calls st')))%list.
Proof.
  intros db recs vals what st [Hlt [Hcalls [Hrecs [Hmarked Hrows]]]] Hne.
  cbv zeta. rewrite processBatch_calls.
  split; [|split; [|split]].
  - intros b Hb. apply in_app_or in Hb. destruct Hb as [Hb|[Hb|[]]].
    + apply Hcalls. exact Hb.
    + subst b. split; [exact Hne | lia].
  - rewrite concat_app. simpl. rewrite app_nil_r. exact Hrecs.
  - unfold processBatch.
    destruct (HandleLogBatch _ _ _) as [[err db'] lg]. exact Hmarked.
  - apply processBatch_rows; assumption.
Qed.

Lemma on_timer_settled : forall db recs vals st,
  settled batchSize flush_fail db recs vals st ->
  settled batchSize flush_fail db recs vals (on_timer flush_fail st).
Proof.
  intros db recs vals st Hs. unfold on_timer.
  destruct (0 <? List.length (batch st))%nat eqn:Hpos; [|exact Hs].
  apply Nat.ltb_lt in Hpos.
  assert (Hne : batch st <> []) by (destruct (batch st); [simpl in Hpos; lia | discriminate]).
  destruct (flush_settled db recs vals "Failed to process batch on timeout"%string
              st Hs Hne) as [Hcalls [Hrecs [Hmarked Hrows]]].
  unfold settled, clear. cbn [batch marked flush_calls logs_db].
  split; [simpl; lia|]. split; [exact Hcalls|].
  split; [rewrite app_nil_r; exact Hrecs|]. split; assumption.
Qed.

Lemma consume_settled : forall events db recs vals st,
  forallb (fun e => negb (is_done e)) events = true ->
  settled batchSize flush_fail db recs vals st ->
  snd (consume batchSize flush_fail events st) = false /\
  settled batchSize flush_fail db (recs ++ records_of events) (vals ++ values_of events)
    (fst (consume batchSize flush_fail events st)).
Proof.
  induction events as [|ev events IH]; intros db recs vals st Hev Hs.
  - simpl. rewrite !app_nil_r. split; [reflexivity | exact Hs].
  - simpl in Hev. apply andb_true_iff in Hev. destruct Hev as [Hone Hev].
    destruct ev as [value t1 t2| |]; [| |discriminate].
    + cbn [consume].
      pose proof (on_message_settled db recs vals value t1 t2 st Hs) as H1.
      destruct (IH db _ _ _ Hev H1) as [Hret Hs'].
      split; [exact Hret|].
      change (values_of (Message value t1 t2 :: events))
        with (value :: values_of events).
      replace (recs ++ records_of (Message value t1 t2 :: events))%list
        with ((recs ++ records_of [Message value t1 t2]) ++ records_of events)%list.
      * replace (vals ++ value :: values_of events)%list
          with ((vals ++ [value]) ++ values_of events)%list
          by (rewrite <- app_assoc; reflexivity).
        exact Hs'.
      * rewrite <- app_assoc. f_equal. simpl.
        destruct (json_Unmarshal_Log value); reflexivity.
    + cbn [consume].
      pose proof (on_timer_settled db recs vals st Hs) as H1.
      destruct (IH db _ _ _ Hev H1) as [Hret Hs'].
      split; [exact Hret | exact Hs'].
Qed.

Lemma consume_until_done : forall events later st,
  forallb (fun e => negb (is_done e)) events = true ->
  consume batchSize flush_fail (events ++ ContextDone :: later) st =
  (on_done flush_fail (fst (consume batchSize flush_fail events st)), true).
Proof.
  induction events as [|ev events IH]; intros later st Hev; [reflexivity|].
  simpl in Hev. apply andb_true_iff in Hev. destruct Hev as [Hone Hev].
  destruct ev as [value t1 t2| |]; [| |discriminate]; simpl; apply IH; exact Hev.
Qed.

(** X17.  Whatever the order of messages and timer ticks, when the
    session ends every record that decoded has been handed to
    processBatch exactly once, in arrival order, in batches of 1 to
    batchSize records; every message, decodable or not, has been marked
    in arrival order; and the table holds exactly the batches whose
    insert did not fail: the records of a failed batch are lost, never
    retried and never duplicated.  Events after the end of the session
    are not consumed. *)
Theorem consume_any_order : forall events later db,
  forallb (fun e => negb (is_done e)) events = true ->
  let run := ConsumeClaim batchSize flush_fail (events ++ ContextDone :: later) db in
  let st := fst run in
  snd run = true /\
  List.concat (flush_calls st) = records_of events /\
  (forall b, In b (flush_calls st) ->
     b <> [] /\ Z.of_nat (List.length b) <= batchSize) /\
  marked st = values_of events /\
  log_rows (logs_db st) =
    (log_rows db ++ List.concat (succeeded flush_fail 0 (flush_calls st)))%list.
Proof.
  intros events later db Hev. cbv zeta. unfold ConsumeClaim.
  rewrite (consume_until_done events later _ Hev). cbn [fst snd].
  assert (H0 : settled batchSize flush_fail db [] [] (init_state db)).
  { unfold settled, init_state. simpl. rewrite app_nil_r.
    split; [lia|]. split; [intros b []|]. repeat split; reflexivity. }
  destruct (consume_settled events db [] [] _ Hev H0) as [_ Hs].
  simpl app in Hs.
  set (st := fst (consume batchSize flush_fail events (init_state db))) in *.
  split; [reflexivity|].
  unfold on_done.
  destruct (0 <? List.length (batch st))%nat eqn:Hpos.
  - apply Nat.ltb_lt in Hpos.
    assert (Hne : batch st <> [])
      by (destruct (batch st); [simpl in Hpos; lia | discriminate]).
    destruct (flush_settled db _ _ "Failed to process final batch" st Hs Hne)
      as [Hcalls [Hrecs [Hmarked Hrows]]].
    repeat split; try assumption; apply Hcalls; assumption.
  - apply Nat.ltb_ge in Hpos.
    assert (Hnil : batch st = []) by (destruct (batch st); [reflexivity | simpl in Hpos; lia]).
    destruct Hs as [_ [Hcalls [Hrecs [Hmarked Hrows]]]].
    rewrite Hnil, app_nil_r in Hrecs.
    repeat split; try assumption; apply Hcalls; assumption.
Qed.

End ConsumerOrderFacts.

(** ** Splitting strings, and the migration files *)

Section SplitFacts.
Import GoStrings.

Lemma Split_not_nil : forall s sep, Split s sep <> [].
Proof.
  intros s sep. destruct s as [|c s]; simpl; [discriminate|].
  destruct (Ascii.eqb c sep); [discriminate|].
  destruct (Split s sep); discriminate.
Qed.

Lemma Split_cons : forall c s sep,
  Ascii.eqb c sep = false ->
  Split (String c s) sep =
  String c (hd EmptyString (Split s sep)) :: tl (Split s sep).
Proof.
  intros c s sep Hc. simpl. rewrite Hc.
  destruct (Split s sep) eqn:E; [|reflexivity].
  exfalso. apply (Split_not_nil s sep). exact E.
Qed.

Lemma hd_Split : forall s sep, hd EmptyString (Split s sep) = before_byte sep s.
Proof.
  induction s as [|c s IH]; intro sep; [reflexivity|].
  destruct (Ascii.eqb c sep) eqn:Hc.
  - simpl. rewrite Hc. reflexivity.
  - rewrite (Split_cons c s sep Hc). simpl. rewrite Hc, IH. reflexivity.
Qed.

Lemma Split_length : forall s sep,
  (List.length (Split s sep) <? 2)%nat = negb (has_byte sep s).
Proof.
  induction s as [|c s IH]; intro sep; [reflexivity|].
  destruct (Ascii.eqb c sep) eqn:Hc.
  - simpl. rewrite Hc. simpl.
    destruct (Split s sep) eqn:E; [|reflexivity].
    exfalso. apply (Split_not_nil s sep). exact E.
  - rewrite (Split_cons c s sep Hc). simpl has_byte. rewrite Hc. simpl orb.
    rewrite <- IH.
    destruct (Split s sep) eqn:E; [|reflexivity].
    exfalso. apply (Split_not_nil s sep). exact E.
Qed.

Lemma Split_no_sep : forall s sep,
  Forall (fun part => has_byte sep part = false) (Split s sep).
Proof.
  induction s as [|c s IH]; intro sep; [repeat constructor|].
  destruct (Ascii.eqb c sep) eqn:Hc.
  - simpl. rewrite Hc. constructor; [reflexivity | apply IH].
  - rewrite (Split_cons c s sep Hc). specialize (IH sep).
    destruct (Split s sep) as [|h t] eqn:E.
    + exfalso. apply (Split_not_nil s sep). exact E.
    + inversion IH as [|? ? Hh Ht]; subst. simpl.
      constructor; [simpl; rewrite Hc; exact Hh | exact Ht].
Qed.

Lemma Split_keeps_absent : forall s sep c,
  has_byte c s = false ->
  Forall (fun part => has_byte c part = false) (Split s sep).
Proof.
  induction s as [|a s IH]; intros sep c Hs; [repeat constructor|].
  simpl in Hs. apply orb_false_iff in Hs. destruct Hs as [Ha Hs].
  specialize (IH sep c Hs).
  destruct (Ascii.eqb a sep) eqn:Hc.
  - simpl. rewrite Hc. constructor; [reflexivity | exact IH].
  - rewrite (Split_cons a s sep Hc).
    destruct (Split s sep) as [|h t] eqn:E.
    + exfalso. apply (Split_not_nil s sep). exact E.
    + inversion IH as [|? ? Hh Ht]; subst. simpl.
      constructor; [simpl; rewrite Ha; exact Hh | exact Ht].
Qed.

Lemma Join_Split : forall s sep,
  Join (Split s sep) (String sep EmptyString) = s.
Proof.
  unfold Join. induction s as [|c s IH]; intro sep; [reflexivity|].
  destruct (Ascii.eqb c sep) eqn:Hc.
  - simpl. rewrite Hc. apply Ascii.eqb_eq in Hc. subst c.
    specialize (IH sep).
    destruct (Split s sep) as [|h t] eqn:E.
    + exfalso. apply (Split_not_nil s sep). exact E.
    + simpl in *. rewrite IH. reflexivity.
  - rewrite (Split_cons c s sep Hc). specialize (IH sep).
    destruct (Split s sep) as [|h t] eqn:E.
    + exfalso. apply (Split_not_nil s sep). exact E.
    + simpl in *. destruct t; simpl in *; rewrite IH; reflexivity.
Qed.

Lemma before_byte_absent : forall c s, has_byte c (before_byte c s) = false.
Proof.
  intros c s. induction s as [|a s IH]; [reflexivity|]. simpl.
  destruct (Ascii.eqb a c) eqn:Ha; [reflexivity|].
  simpl. rewrite Ha. exact IH.
Qed.

Lemma before_byte_prefix : forall c s,
  has_byte c s = true ->
  exists rest, s = (before_byte c s ++ String c rest)%string.
Proof.
  intros c s. induction s as [|a s IH]; intro H; [discriminate|].
  simpl in *. destruct (Ascii.eqb a c) eqn:Ha.
  - apply Ascii.eqb_eq in Ha. subst a. exists s. reflexivity.
  - destruct (IH H) as [rest Hrest]. exists rest. simpl. rewrite <- Hrest.
    reflexivity.
Qed.

End SplitFacts.

Section LoadFacts.
Import GoStrings Migration.

Variable sort_Slice :
  list Migration -> (Migration -> Migration -> bool) -> list Migration.
Hypothesis sort_Slice_permutation : forall l less,
  Permutation (sort_Slice l less) l.
Hypothesis sort_Slice_sorted : forall l,
  StronglySorted id_not_after (sort_Slice l id_less).

Lemma load_files_taken : forall file,
  (file_IsDir file || negb (HasSuffix (file_Name file) ".sql"))%bool = false ->
  (List.length (Split (file_Name file) underscore) <? 2)%nat = false ->
  is_migration_file file = true.
Proof.
  intros file H1 H2. unfold is_migration_file.
  apply orb_false_iff in H1. destruct H1 as [Hd Hs].
  rewrite Split_length in H2. rewrite Hd. apply negb_false_iff in Hs, H2.
  rewrite Hs, H2. reflexivity.
Qed.

Lemma load_files_skipped : forall file,
  (file_IsDir file || negb (HasSuffix (file_Name file) ".sql"))%bool = true \/
  (List.length (Split (file_Name file) underscore) <? 2)%nat = true ->
  is_migration_file file = false.
Proof.
  intros file [H|H]; unfold is_migration_file.
  - apply orb_true_iff in H. destruct H as [H|H].
    + rewrite H. reflexivity.
    + apply negb_true_iff in H. rewrite H, andb_false_r. reflexivity.
  - rewrite Split_length in H. apply negb_true_iff in H. rewrite H.
    apply andb_false_r.
Qed.

Lemma load_files_result : forall files acc,
  match load_files files acc with
  | (ms, None) =>
    ms = (acc ++ map migration_of (filter is_migration_file files))%list /\
    (forall file, In file files -> is_migration_file file = true ->
       read_err file = None)
  | (ms, Some e) =>
    ms = [] /\
    exists before file after cause,
      files = (before ++ file :: after)%list /\
      is_migration_file file = true /\
      read_err file = Some cause /\
      (forall f, In f before -> is_migration_file f = true -> read_err f = None) /\
      e = wrap_error
            ("failed to read migration file " ++ file_Name file)%string cause
  end.
Proof.
  induction files as [|file rest IH]; intro acc.
  - simpl. rewrite app_nil_r. split; [reflexivity | intros f []].
  - cbn [load_files].
    destruct (file_IsDir file || negb (HasSuffix (file_Name file) ".sql"))%bool
      eqn:H1.
    { pose proof (load_files_skipped file (or_introl H1)) as Hskip.
      specialize (IH acc). cbn [filter]. rewrite Hskip.
      destruct (load_files rest acc) as [ms [e|]].
      - destruct IH as [Hms [before [f [after [cause [Hf [Hacc [Herr [Hbefore He]]]]]]]]].
        split; [exact Hms|].
        exists (file :: before), f, after, cause. subst rest.
        repeat split; try assumption.
        intros g [Hg|Hg] Hgm; [subst g; congruence | apply Hbefore; assumption].
      - destruct IH as [Hms Hall]. split; [exact Hms|].
        intros g [Hg|Hg] Hgm; [subst g; congruence | apply Hall; assumption]. }
    destruct (List.length (Split (file_Name file) underscore) <? 2)%nat eqn:H2.
    { pose proof (load_files_skipped file (or_intror H2)) as Hskip.
      specialize (IH acc). cbn [filter]. rewrite Hskip.
      destruct (load_files rest acc) as [ms [e|]].
      - destruct IH as [Hms [before [f [after [cause [Hf [Hacc [Herr [Hbefore He]]]]]]]]].
        split; [exact Hms|].
        exists (file :: before), f, after, cause. subst rest.
        repeat split; try assumption.
        intros g [Hg|Hg] Hgm; [subst g; congruence | apply Hbefore; assumption].
      - destruct IH as [Hms Hall]. split; [exact Hms|].
        intros g [Hg|Hg] Hgm; [subst g; congruence | apply Hall; assumption]. }
    pose proof (load_files_taken file H1 H2) as Htaken.
    destruct (read_err file) as [cause|] eqn:Hread.
    { split; [reflexivity|].
      exists [], file, rest, cause.
      repeat split; try assumption; try reflexivity. intros f []. }
    rewrite hd_Split. fold (migration_of file).
    specialize (IH (acc ++ [migration_of file])%list).
    cbn [filter]. rewrite Htaken.
    destruct (load_files rest (acc ++ [migration_of file])) as [ms [e|]].
    + destruct IH as [Hms [before [f [after [cause [Hf [Hacc [Herr [Hbefore He]]]]]]]]].
      split; [exact Hms|].
      exists (file :: before), f, after, cause. subst rest.
      repeat split; try assumption.
      intros g [Hg|Hg] Hgm; [subst g; exact Hread | apply Hbefore; assumption].
    + destruct IH as [Hms Hall]. split.
      * rewrite Hms, <- app_assoc. reflexivity.
      * intros g [Hg|Hg] Hgm; [subst g; exact Hread | apply Hall; assumption].
Qed.

(** X18.  What LoadMigrations returns for a directory it can list.  With
    every migration file readable: one migration per entry that is not a
    directory and whose name ends in .sql and has an underscore, and
    none for any other entry; the id is the text of the name before its
    first underscore; the result is ordered by id (as byte strings).
    With an unreadable migration file: no migration at all and the
    error of the first such file, named in the message. *)
Theorem LoadMigrations_result : forall files,
  match LoadMigrations sort_Slice (files, None) with
  | (ms, None) =>
    StronglySorted id_not_after ms /\
    Permutation ms (map migration_of (filter is_migration_file files)) /\
    (forall file, In file files -> is_migration_file file = true ->
       read_err file = None) /\
    (forall m, In m ms ->
       has_byte underscore (mig_ID m) = false /\
       HasSuffix (Filename m) ".sql" = true /\
       exists rest,
         Filename m = (mig_ID m ++ String underscore rest)%string)
  | (ms, Some e) =>
    ms = [] /\
    exists before file after cause,
      files = (before ++ file :: after)%list /\
      is_migration_file file = true /\
      read_err file = Some cause /\
      (forall f, In f before -> is_migration_file f = true -> read_err f = None) /\
      e = wrap_error
            ("failed to read migration file " ++ file_Name file)%string cause
  end.
Proof.
  intro files. unfold LoadMigrations.
  pose proof (load_files_result files []) as H.
  destruct (load_files files []) as [ms [e|]].
  - destruct H as [_ H]. split; [reflexivity | exact H].
  - destruct H as [Hms Hall]. simpl in Hms. subst ms.
    split; [apply sort_Slice_sorted|]. split; [apply sort_Slice_permutation|].
    split; [exact Hall|].
    intros m Hm.
    apply (Permutation_in _ (sort_Slice_permutation _ _)) in Hm.
    apply in_map_iff in Hm. destruct Hm as [file [Hfile Hin]]. subst m.
    apply filter_In in Hin. destruct Hin as [_ Hacc].
    unfold is_migration_file in Hacc.
    apply andb_true_iff in Hacc. destruct Hacc as [Hacc Hus].
    apply andb_true_iff in Hacc. destruct Hacc as [_ Hsql].
    unfold migration_of. cbn [mig_ID Filename].
    split; [apply before_byte_absent|]. split; [exact Hsql|].
    apply before_byte_prefix. exact Hus.
Qed.

End LoadFacts.

(** ** The statements of a migration file *)

Section StatementFacts.
Import GoStrings Migration.

Lemma has_byte_Join : forall c sep l,
  has_byte c sep = false ->
  Forall (fun part => has_byte c part = false) l ->
  has_byte c (Join l sep) = false.
Proof.
  intros c sep l Hsep Hl. unfold Join.
  induction Hl as [|p l Hp Hl IH]; [reflexivity|].
  destruct l as [|q l]; [exact Hp|].
  change (String.concat sep (p :: q :: l))
    with (p ++ sep ++ String.concat sep (q :: l))%string.
  rewrite !has_byte_append, Hp, Hsep, IH. reflexivity.
Qed.

Lemma Forall_TrimSpace_filter : forall c (keep : string -> bool) l,
  Forall (fun part => has_byte c part = false) l ->
  Forall (fun part => has_byte c part = false) (filter keep (map TrimSpace l)).
Proof.
  intros c keep l H. apply Forall_forall. intros s Hs.
  apply filter_In in Hs. destruct Hs as [Hs _].
  apply in_map_iff in Hs. destruct Hs as [p [Hp Hin]]. subst s.
  apply has_byte_TrimSpace. rewrite Forall_forall in H. apply H. exact Hin.
Qed.

(** X21.  Every statement splitSQLStatements returns is not empty, has
    no white space at either end, is on one line and has no semicolon:
    the content is cut at every semicolon, also at one inside a string
    literal or after the comment marker on a line that does not start
    with it. *)
Theorem splitSQLStatements_statements : forall content,
  Forall (fun statement =>
            statement <> EmptyString /\
            TrimSpace statement = statement /\
            has_byte newline statement = false /\
            has_byte semicolon statement = false)
    (splitSQLStatements content).
Proof.
  intro content.
  pose proof (splitSQLStatements_trimmed content) as Htr.
  assert (Hnl : Forall (fun part => has_byte newline part = false)
                  (splitSQLStatements content)).
  { unfold splitSQLStatements, keep_nonempty_trimmed.
    apply Forall_TrimSpace_filter, Split_keeps_absent, has_byte_Join;
      [reflexivity|].
    apply Forall_TrimSpace_filter, Split_no_sep. }
  assert (Hsc : Forall (fun part => has_byte semicolon part = false)
                  (splitSQLStatements content)).
  { unfold splitSQLStatements, keep_nonempty_trimmed.
    apply Forall_TrimSpace_filter, Split_no_sep. }
  rewrite Forall_forall in *. intros s Hs.
  destruct (Htr s Hs) as [Ht Hne].
  split; [intro H; subst s; discriminate|]. split; [exact Ht|].
  split; [apply Hnl | apply Hsc]; exact Hs.
Qed.

End StatementFacts.

(** ** A run of the migrations *)

Section RunFacts.
Context {rt : GoRuntime}.
Import GoStrings Migration.

(** What one ApplyMigration does to the tracking table. *)
Lemma ApplyMigration_rows : forall env m h,
  let '(err, h') := ApplyMigration env m h in
  (tracking h' = tracking h /\ (err = None -> is_bootstrap (mig_ID m) = true)) \/
  (err = None /\ is_bootstrap (mig_ID m) = false /\
   tracking h' = (tracking h ++ [record_of m])%list).
Proof.
  intros env m h.
  pose proof (exec_statements_kinds env (mig_ID m)
                (splitSQLStatements (Content m)) 0) as [Hd Ht].
  unfold ApplyMigration, is_bootstrap.
  destruct (begin_err env) as [e|]; [left; split; [reflexivity|discriminate]|].
  destruct (exec_statements env (mig_ID m) 0 (splitSQLStatements (Content m)))
    as [[err d] t].
  simpl in Hd, Ht.
  destruct err as [e|].
  { left. split; [apply tracking_rolled_back; exact Hd | discriminate]. }
  assert (Hc : forall tx,
            let '(err, h') := commit env (mig_ID m) (h ++ d) tx in
            (err <> None /\ tracking h' = tracking h) \/
            (err = None /\ tracking h' = (tracking h ++ records_of_tx tx)%list)).
  { intro tx. unfold commit. destruct (commit_err env) as [e|].
    - left. split; [discriminate | apply tracking_rolled_back; exact Hd].
    - right. split; [reflexivity | apply tracking_committed; exact Hd]. }
  destruct (String.eqb (mig_ID m) "000") eqn:H0.
  { specialize (Hc t). destruct (commit env (mig_ID m) (h ++ d) t) as [err h'].
    left. destruct Hc as [[_ Hc]|[_ Hc]]; (split; [|reflexivity]).
    - exact Hc.
    - rewrite Hc, (records_of_exec t Ht). apply app_nil_r. }
  destruct (String.eqb (mig_ID m) "001") eqn:H1.
  { specialize (Hc t). destruct (commit env (mig_ID m) (h ++ d) t) as [err h'].
    left. destruct Hc as [[_ Hc]|[_ Hc]]; (split; [|reflexivity]).
    - exact Hc.
    - rewrite Hc, (records_of_exec t Ht). apply app_nil_r. }
  destruct (record_err env) as [e|].
  { left. split; [apply tracking_rolled_back; exact Hd | discriminate]. }
  specialize (Hc (t ++ [TxRecord (mig_ID m) (Filename m)
                          (generateChecksum (Content m))])%list).
  destruct (commit env (mig_ID m) (h ++ d) _) as [err h'].
  destruct Hc as [[Hne Hc]|[He Hc]].
  - left. split; [exact Hc | intro; contradiction].
  - right. split; [exact He|]. split; [reflexivity|].
    rewrite Hc, records_of_tx_app, (records_of_exec t Ht). reflexivity.
Qed.

Lemma is_applied_app : forall l1 l2 id,
  is_applied (l1 ++ l2) id = is_applied l1 id || is_applied l2 id.
Proof. intros. unfold is_applied. apply existsb_app. Qed.

Lemma pending_same_rows : forall h h' m,
  tracking h' = tracking h -> pending h' m = pending h m.
Proof. intros h h' m H. unfold pending, applied_ids. rewrite H. reflexivity. Qed.

Lemma pending_other_row : forall h h' m m',
  tracking h' = (tracking h ++ [record_of m])%list ->
  mig_ID m' <> mig_ID m ->
  pending h' m' = pending h m'.
Proof.
  intros h h' m m' H Hne. unfold pending, applied_ids.
  rewrite H, map_app, is_applied_app. simpl.
  apply String.eqb_neq in Hne. rewrite Hne. simpl.
  rewrite orb_false_r. reflexivity.
Qed.

Lemma filter_pending_ext : forall h h' (l : list Migration),
  (forall m, In m l -> pending h' m = pending h m) ->
  filter (pending h') l = filter (pending h) l.
Proof.
  intros h h' l H. apply filter_ext_in. exact H.
Qed.

Lemma run_pending_rows : forall ms env i applied h,
  NoDup (map mig_ID ms) ->
  applied_is_current applied h ms ->
  let '(err, h') := run_pending env i ms applied h in
  exists done later,
    filter (pending h) ms = (done ++ later)%list /\
    tracking h' = (tracking h ++ map record_of done)%list /\
    (err = None -> later = []).
Proof.
  induction ms as [|m rest IH]; intros env i applied h Hnd Hcur.
  - simpl. exists [], []. rewrite !app_nil_r. repeat split.
  - inversion Hnd as [|? ? Hnotin Hnd']; subst.
    assert (Hother : forall m', In m' rest -> mig_ID m' <> mig_ID m).
    { intros m' Hin Heq. apply Hnotin. rewrite <- Heq.
      apply in_map. exact Hin. }
    cbn [run_pending].
    (* the step on a migration that is applied *)
    assert (Hstep : forall applied',
      applied_is_current applied' h rest ->
      (is_bootstrap (mig_ID m) = false ->
       is_applied (applied_ids h) (mig_ID m) = false) ->
      forall (wrap : error -> error) (reconnect : option error),
      let '(err, h') :=
        match ApplyMigration (mig_env env i) m h with
        | (Some e, h') => (Some (wrap e), h')
        | (None, h') =>
          match reconnect with
          | Some e => (Some e, h')
          | None => run_pending env (S i) rest applied' h'
          end
        end in
      exists done later,
        filter (pending h) (m :: rest) = (done ++ later)%list /\
        tracking h' = (tracking h ++ map record_of done)%list /\
        (err = None -> later = [])).
    { intros applied' Hcur' Hnew wrap reconnect.
      pose proof (ApplyMigration_rows (mig_env env i) m h) as Happly.
      destruct (ApplyMigration (mig_env env i) m h) as [[e|] h1].
      - destruct Happly as [[Hrows _]|[Habs _]]; [|discriminate].
        exists [], (filter (pending h) (m :: rest)).
        split; [reflexivity|]. split; [rewrite Hrows, app_nil_r; reflexivity|].
        discriminate.
      - destruct Happly as [[Hrows Hboot]|[_ [Hboot Hrows]]].
        + specialize (Hboot eq_refl).
          assert (Hpm : pending h m = false)
            by (unfold pending; rewrite Hboot; reflexivity).
          destruct reconnect as [e|].
          { exists [], (filter (pending h) (m :: rest)).
            split; [reflexivity|].
            split; [rewrite Hrows, app_nil_r; reflexivity | discriminate]. }
          assert (Hcur1 : applied_is_current applied' h1 rest).
          { destruct Hcur' as [Hnil|Hagree]; [left; exact Hnil|].
            right. intros m' Hm'. unfold applied_ids. rewrite Hrows.
            apply Hagree. exact Hm'. }
          specialize (IH env (S i) applied' h1 Hnd' Hcur1).
          destruct (run_pending env (S i) rest applied' h1) as [err h'].
          destruct IH as [done [later [Hf [Ht Hl]]]].
          exists done, later. cbn [filter]. rewrite Hpm.
          rewrite <- (filter_pending_ext h h1 rest)
            by (intros; apply pending_same_rows; exact Hrows).
          split; [exact Hf|]. split; [rewrite Ht, Hrows; reflexivity | exact Hl].
        + assert (Hpm : pending h m = true)
            by (unfold pending; rewrite Hboot, (Hnew Hboot); reflexivity).
          destruct reconnect as [e|].
          { exists [m], (filter (pending h) rest). cbn [filter]. rewrite Hpm.
            split; [reflexivity|]. split; [exact Hrows | discriminate]. }
          assert (Hcur1 : applied_is_current applied' h1 rest).
          { destruct Hcur' as [Hnil|Hagree]; [left; exact Hnil|].
            right. intros m' Hm'. rewrite (Hagree m' Hm').
            unfold applied_ids. rewrite Hrows, map_app, is_applied_app.
            simpl. specialize (Hother m' Hm').
            apply String.eqb_neq in Hother. rewrite Hother. simpl.
            rewrite orb_false_r. reflexivity. }
          specialize (IH env (S i) applied' h1 Hnd' Hcur1).
          destruct (run_pending env (S i) rest applied' h1) as [err h'].
          destruct IH as [done [later [Hf [Ht Hl]]]].
          exists (m :: done), later. cbn [filter]. rewrite Hpm.
          rewrite <- (filter_pending_ext h h1 rest)
            by (intros m' Hm'; apply (pending_other_row h h1 m m' Hrows);
                apply Hother; exact Hm').
          split; [simpl; rewrite Hf; reflexivity|].
          split; [|exact Hl].
          rewrite Ht, Hrows, <- app_assoc. reflexivity. }
    assert (Hrest : applied_is_current applied h rest).
    { destruct Hcur as [Hnil|Hagree]; [left; exact Hnil|].
      right. intros m' Hm'. apply Hagree. right. exact Hm'. }
    destruct ((i <=? 1)%nat && is_bootstrap (mig_ID m))%bool eqn:Hfirst.
    + apply andb_true_iff in Hfirst. destruct Hfirst as [_ Hboot].
      assert (Hnew : is_bootstrap (mig_ID m) = false ->
                     is_applied (applied_ids h) (mig_ID m) = false)
        by (intro Hb; congruence).
      destruct ((i =? 0)%nat && String.eqb (mig_ID m) "000")%bool.
      * pose proof (Hstep applied Hrest Hnew
                      (wrap_error ("failed to apply migration " ++ mig_ID m)%string)
                      (option_map (wrap_error "failed to reconnect to database")
                         (reconnect_err env))) as H.
        destruct (ApplyMigration (mig_env env i) m h) as [[e|] h1]; [exact H|].
        destruct (reconnect_err env) as [e|]; exact H.
      * pose proof (Hstep applied Hrest Hnew
                      (wrap_error ("failed to apply migration " ++ mig_ID m)%string)
                      None) as H.
        destruct (ApplyMigration (mig_env env i) m h) as [[e|] h1]; exact H.
    + (* the set is read again when it is empty *)
      assert (Hfetch :
        forall applied',
          applied_is_current applied' h rest ->
          is_applied applied' (mig_ID m) = is_applied (applied_ids h) (mig_ID m) ->
          let '(err, h') :=
            if is_applied applied' (mig_ID m) then
              run_pending env (S i) rest applied' h
            else
              match ApplyMigration (mig_env env i) m h with
              | (Some e, h') =>
                (Some (wrap_error
                         ("failed to apply migration " ++ mig_ID m)%string e), h')
              | (None, h') => run_pending env (S i) rest applied' h'
              end in
          exists done later,
            filter (pending h) (m :: rest) = (done ++ later)%list /\
            tracking h' = (tracking h ++ map record_of done)%list /\
            (err = None -> later = [])).
      { intros applied' Hcur' Hsame.
        destruct (is_applied applied' (mig_ID m)) eqn:Hin.
        - assert (Hpm : pending h m = false).
          { unfold pending. rewrite <- Hsame. apply andb_false_r. }
          specialize (IH env (S i) applied' h Hnd' Hcur').
          destruct (run_pending env (S i) rest applied' h) as [err h'].
          destruct IH as [done [later [Hf [Ht Hl]]]].
          exists done, later. cbn [filter]. rewrite Hpm.
          split; [exact Hf|]. split; [exact Ht | exact Hl].
        - pose proof (Hstep applied' Hcur' (fun _ => eq_sym Hsame)
                        (wrap_error ("failed to apply migration " ++ mig_ID m)%string)
                        None) as H.
          destruct (ApplyMigration (mig_env env i) m h) as [[e|] h1]; exact H. }
      destruct applied as [|id applied].
      * cbn [List.length Nat.eqb]. unfold GetAppliedMigrations.
        destruct (applied_err env (S i)) as [e|].
        -- exists [], (filter (pending h) (m :: rest)).
           split; [reflexivity|]. split; [rewrite app_nil_r; reflexivity|].
           discriminate.
        -- apply Hfetch; [right; intros; reflexivity | reflexivity].
      * cbn [List.length Nat.eqb].
        destruct Hcur as [Hnil|Hagree]; [discriminate|].
        apply Hfetch; [exact Hrest | apply Hagree; left; reflexivity].
Qed.

(** X19.  RunMigrations records the pending migrations in order, each
    once.  For a list of migrations with distinct ids, on every path
    (whatever call fails): the rows added to the tracking table are
    those of a first part of the pending migrations of the list (the
    ones whose id is not 000 or 001 and not yet in the table), in the
    order of the list; the rows the table had are kept; and when the
    run returns nil all the pending migrations have been recorded. *)
Theorem RunMigrations_records_pending : forall env ms h,
  NoDup (map mig_ID ms) ->
  let '(err, h') := RunMigrations env (ms, None) h in
  exists done later,
    filter (pending h) ms = (done ++ later)%list /\
    tracking h' = (tracking h ++ map record_of done)%list /\
    (err = None -> later = []).
Proof.
  intros env ms h Hnd. unfold RunMigrations.
  destruct ms as [|first rest].
  - exists [], []. simpl. rewrite !app_nil_r. repeat split.
  - destruct (is_bootstrap (mig_ID first)).
    + apply run_pending_rows; [exact Hnd | left; reflexivity].
    + unfold GetAppliedMigrations. destruct (applied_err env 0) as [e|].
      * exists [], (filter (pending h) (first :: rest)).
        split; [reflexivity|]. split; [rewrite app_nil_r; reflexivity|].
        discriminate.
      * apply run_pending_rows; [exact Hnd | right; intros; reflexivity].
Qed.

Lemma recorded_not_pending : forall (done : list Migration) h h' m,
  tracking h' = (tracking h ++ map record_of done)%list ->
  (pending h m = false \/ In m done) ->
  pending h' m = false.
Proof.
  intros done h h' m Hrows H. unfold pending, applied_ids in *.
  rewrite Hrows, map_app, is_applied_app.
  destruct (is_bootstrap (mig_ID m)); [reflexivity|]. simpl in *.
  destruct H as [H|H].
  - apply negb_false_iff in H. rewrite H. reflexivity.
  - assert (Hin : is_applied (map (fun row => fst (fst row)) (map record_of done))
                    (mig_ID m) = true).
    { unfold is_applied. apply existsb_exists. exists (mig_ID m).
      split; [|apply String.eqb_refl].
      rewrite map_map. apply in_map_iff. exists m. split; [reflexivity|exact H]. }
    rewrite Hin, orb_true_r. reflexivity.
Qed.

(** X20.  Running the migrations again records nothing: after a run
    that returned nil, a second run over the same list (distinct ids)
    leaves the tracking table as it is, whatever fails in it, and
    ShowStatus then reports APPLIED for every migration of the list
    that is in the table and PENDING for the others, among them the
    migrations 000 and 001, which are never recorded, when the table
    had no row for them. *)
Theorem RunMigrations_again : forall env env2 ms h,
  NoDup (map mig_ID ms) ->
  fst (RunMigrations env (ms, None) h) = None ->
  let h1 := snd (RunMigrations env (ms, None) h) in
  tracking (snd (RunMigrations env2 (ms, None) h1)) = tracking h1 /\
  (forall m, In m ms -> is_bootstrap (mig_ID m) = false ->
     is_applied (applied_ids h1) (mig_ID m) = true) /\
  ((forall id, is_bootstrap id = true -> is_applied (applied_ids h) id = false) ->
   ShowStatus (ms, None) None None h1 =
   (None,
    map (fun m => (mig_ID m, Filename m,
                   if is_bootstrap (mig_ID m)
                   then "PENDING"%string else "APPLIED"%string)) ms)).
Proof.
  intros env env2 ms h Hnd Hok. cbv zeta.
  assert (Hrun : forall env0 h0,
            let '(err, h') := RunMigrations env0 (ms, None) h0 in
            exists done later,
              filter (pending h0) ms = (done ++ later)%list /\
              tracking h' = (tracking h0 ++ map record_of done)%list /\
              (err = None -> later = [])).
  { intros env0 h0. unfold RunMigrations.
    destruct ms as [|first rest].
    - exists [], []. simpl. rewrite !app_nil_r. repeat split.
    - destruct (is_bootstrap (mig_ID first)).
      + apply run_pending_rows; [exact Hnd | left; reflexivity].
      + unfold GetAppliedMigrations. destruct (applied_err env0 0) as [e|].
        * exists [], (filter (pending h0) (first :: rest)).
          split; [reflexivity|]. split; [rewrite app_nil_r; reflexivity|].
          discriminate.
        * apply run_pending_rows; [exact Hnd | right; intros; reflexivity]. }
  pose proof (Hrun env h) as H1.
  destruct (RunMigrations env (ms, None) h) as [err h1]. cbn [fst snd] in *.
  subst err. destruct H1 as [done [later [Hf [Hrows Hl]]]].
  specialize (Hl eq_refl). subst later. rewrite app_nil_r in Hf.
  assert (Hnone : forall m, In m ms -> pending h1 m = false).
  { intros m Hm. apply (recorded_not_pending done h h1 m Hrows).
    destruct (pending h m) eqn:Hp; [right|left; reflexivity].
    rewrite <- Hf. apply filter_In. split; assumption. }
  split; [|split].
  - pose proof (Hrun env2 h1) as H2.
    destruct (RunMigrations env2 (ms, None) h1) as [err2 h2]. cbn [snd].
    destruct H2 as [done2 [later2 [Hf2 [Hrows2 _]]]].
    assert (Hempty : filter (pending h1) ms = []).
    { clear -Hnone. induction ms as [|m l IHl]; [reflexivity|].
      simpl. rewrite (Hnone m (or_introl eq_refl)).
      apply IHl. intros m' Hm'. apply Hnone. right. exact Hm'. }
    rewrite Hempty in Hf2. symmetry in Hf2. apply app_eq_nil in Hf2.
    destruct Hf2 as [Hd _]. subst done2. rewrite Hrows2. apply app_nil_r.
  - intros m Hm Hboot. specialize (Hnone m Hm). unfold pending in Hnone.
    rewrite Hboot in Hnone. simpl in Hnone. apply negb_false_iff in Hnone.
    exact Hnone.
  - intro Hclean. unfold ShowStatus, GetAppliedMigrations. f_equal.
    apply map_ext_in. intros m Hm.
    destruct (is_bootstrap (mig_ID m)) eqn:Hboot.
    + assert (Hno : is_applied (applied_ids h1) (mig_ID m) = false).
      { unfold applied_ids. rewrite Hrows, map_app, is_applied_app.
        fold (applied_ids h). rewrite (Hclean _ Hboot). simpl.
        unfold is_applied. rewrite map_map.
        destruct (existsb (String.eqb (mig_ID m))
                    (map (fun x => fst (fst (record_of x))) done)) eqn:Hex;
          [|reflexivity].
        apply existsb_exists in Hex. destruct Hex as [id [Hin Heq]].
        apply String.eqb_eq in Heq. subst id.
        apply in_map_iff in Hin. destruct Hin as [m' [Hid Hm']].
        cbn [record_of fst] in Hid.
        assert (Hp : pending h m' = true).
        { rewrite <- Hf in Hm'. apply filter_In in Hm'. apply Hm'. }
        unfold pending in Hp. rewrite Hid, Hboot in Hp. discriminate. }
      rewrite Hno. reflexivity.
    + specialize (Hnone m Hm). unfold pending in Hnone.
      rewrite Hboot in Hnone. simpl in Hnone. apply negb_false_iff in Hnone.
      rewrite Hnone. reflexivity.
Qed.

End RunFacts.

(** ** The log query endpoint *)

Section LogQueryFacts.
Import Logs.

Variable sql_eq : string -> string -> bool.
Variable match_against : string -> string -> bool.
Variable time_Parse : string -> option Time.

Lemma insert_newest_first_perm : forall l logs,
  Permutation (insert_newest_first l logs) (l :: logs).
Proof.
  intros l logs. induction logs as [|b logs IH]; simpl; [reflexivity|].
  destruct (Timestamp b <? Timestamp l); [reflexivity|].
  rewrite IH. apply perm_swap.
Qed.

Lemma order_timestamp_desc_perm : forall logs,
  Permutation (order_timestamp_desc logs) logs.
Proof.
  induction logs as [|l logs IH]; simpl; [reflexivity|].
  rewrite insert_newest_first_perm. constructor. exact IH.
Qed.

Lemma insert_newest_first_sorted : forall l logs,
  StronglySorted not_later logs ->
  StronglySorted not_later (insert_newest_first l logs).
Proof.
  intros l logs H. induction H as [|b logs Hs IH Hall]; simpl.
  - constructor; constructor.
  - destruct (Timestamp b <? Timestamp l) eqn:Hlt.
    + apply Z.ltb_lt in Hlt. constructor; [constructor; assumption|].
      constructor; [unfold not_later; lia|].
      rewrite Forall_forall in *. intros c Hc. specialize (Hall c Hc).
      unfold not_later in *. lia.
    + apply Z.ltb_ge in Hlt. constructor; [exact IH|].
      rewrite Forall_forall in *. intros c Hc.
      apply (Permutation_in _ (insert_newest_first_perm l logs)) in Hc.
      destruct Hc as [Hc|Hc].
      * subst c. unfold not_later. lia.
      * apply Hall. exact Hc.
Qed.

Lemma order_timestamp_desc_sorted : forall logs,
  StronglySorted not_later (order_timestamp_desc logs).
Proof.
  induction logs as [|l logs IH]; simpl; [constructor|].
  apply insert_newest_first_sorted. exact IH.
Qed.

Lemma sorted_firstn : forall n (logs : list Log),
  StronglySorted not_later logs -> StronglySorted not_later (firstn n logs).
Proof.
  induction n as [|n IH]; intros logs H; simpl; [constructor|].
  destruct H as [|b logs Hs Hall]; [constructor|].
  constructor; [apply IH; exact Hs|].
  rewrite Forall_forall in *. intros c Hc. apply Hall.
  revert Hc. clear. revert logs. induction n as [|n IH]; intros logs Hc.
  - destruct Hc.
  - destruct logs as [|d logs]; [destruct Hc|].
    destruct Hc as [Hc|Hc]; [left; exact Hc | right; apply IH; exact Hc].
Qed.

Lemma sorted_skipn : forall n (logs : list Log),
  StronglySorted not_later logs -> StronglySorted not_later (skipn n logs).
Proof.
  induction n as [|n IH]; intros logs H; simpl; [exact H|].
  destruct H as [|b logs Hs Hall]; [constructor|].
  apply IH. exact Hs.
Qed.

Lemma incl_firstn : forall n (logs : list Log) x,
  In x (firstn n logs) -> In x logs.
Proof.
  induction n as [|n IH]; intros logs x H; [destruct H|].
  destruct logs as [|d logs]; [destruct H|].
  destruct H as [H|H]; [left; exact H | right; apply IH; exact H].
Qed.

Lemma incl_skipn : forall n (logs : list Log) x,
  In x (skipn n logs) -> In x logs.
Proof.
  induction n as [|n IH]; intros logs x H; [exact H|].
  destruct logs as [|d logs]; [destruct H|]. right. apply IH. exact H.
Qed.

(** The limit of the filter, by the [limit] parameter of the request. *)
Lemma parse_filter_limit : forall query,
  let limit := lf_Limit (LogHandler.parse_filter time_Parse query) in
  (query "limit"%string = EmptyString -> limit = 100) /\
  (forall n, GoStrings.Atoi (query "limit"%string) = Some n -> 0 < n ->
     limit = n) /\
  (query "limit"%string <> EmptyString ->
   (forall n, GoStrings.Atoi (query "limit"%string) = Some n -> n <= 0) ->
   limit = 0).
Proof.
  intro query. cbv zeta. unfold LogHandler.parse_filter. cbn [lf_Limit].
  split; [|split].
  - intro H. rewrite H. reflexivity.
  - intros n Hn Hpos.
    destruct (query "limit"%string) as [|c s] eqn:Hq; [discriminate|].
    cbn [GoStrings.is_empty]. rewrite Hn.
    apply Z.ltb_lt in Hpos. rewrite Hpos. reflexivity.
  - intros Hne Hbad.
    destruct (query "limit"%string) as [|c s] eqn:Hq; [contradiction Hne; reflexivity|].
    cbn [GoStrings.is_empty].
    destruct (GoStrings.Atoi (String c s)) as [n|]; [|reflexivity].
    specialize (Hbad n eq_refl).
    destruct (0 <? n) eqn:Hlt; [apply Z.ltb_lt in Hlt; lia | reflexivity].
Qed.

(** X22.  The log query endpoint with a repository call that succeeds
    answers 200 with logs that are rows of the table matching the
    filter, newest first, and with their number as count.  Without a
    [limit] parameter at most 100 logs are returned; with limit=n for
    n > 0 at most n, however large n is; and with a limit parameter that
    is not a number or is not positive the filter carries the limit 0,
    for which the repository sets no LIMIT: without an offset the answer
    then holds every matching row of the table. *)
Theorem GetLogs_limit : forall query db,
  let f := LogHandler.parse_filter time_Parse query in
  exists logs,
    LogHandler.GetLogs sql_eq match_against time_Parse query None db =
      (200,
       inl {| LogHandler.body_logs := logs;
              LogHandler.body_count := Z.of_nat (List.length logs);
              LogHandler.body_filter := f |}, []) /\
    StronglySorted not_later logs /\
    (forall l, In l logs ->
       In l (log_rows db) /\ log_matches sql_eq match_against f l = true) /\
    (query "limit"%string = EmptyString -> (List.length logs <= 100)%nat) /\
    (forall n, GoStrings.Atoi (query "limit"%string) = Some n -> 0 < n ->
       (List.length logs <= Z.to_nat n)%nat) /\
    (query "limit"%string <> EmptyString ->
     (forall n, GoStrings.Atoi (query "limit"%string) = Some n -> n <= 0) ->
     query "offset"%string = EmptyString ->
     Permutation logs
       (filter (log_matches sql_eq match_against f) (log_rows db))).
Proof.
  intros query db. cbv zeta.
  destruct (parse_filter_limit query) as [Hdefault [Hgiven Hbad]].
  set (f := LogHandler.parse_filter time_Parse query) in *.
  unfold LogHandler.GetLogs, GetLogs. fold f.
  set (found := order_timestamp_desc
                  (filter (log_matches sql_eq match_against f) (log_rows db))).
  set (skipped := if 0 <? lf_Offset f
                  then skipn (Z.to_nat (lf_Offset f)) found else found).
  assert (Hfound : StronglySorted not_later found)
    by apply order_timestamp_desc_sorted.
  assert (Hskipped : StronglySorted not_later skipped).
  { unfold skipped. destruct (0 <? lf_Offset f); [apply sorted_skipn|]; exact Hfound. }
  assert (Hin : forall l, In l skipped -> In l found).
  { unfold skipped. intros l Hl.
    destruct (0 <? lf_Offset f); [eapply incl_skipn|]; exact Hl. }
  eexists. split; [reflexivity|].
  split; [|split; [|split; [|split]]].
  - destruct (0 <? lf_Limit f); [apply sorted_firstn|]; exact Hskipped.
  - intros l Hl.
    assert (Hl' : In l found).
    { apply Hin. destruct (0 <? lf_Limit f); [eapply incl_firstn|]; exact Hl. }
    unfold found in Hl'.
    apply (Permutation_in _ (order_timestamp_desc_perm _)) in Hl'.
    apply filter_In in Hl'. exact Hl'.
  - intro Hq. rewrite (Hdefault Hq). simpl (0 <? 100).
    cbv iota. etransitivity; [apply firstn_le_length|].
    vm_compute. apply Nat.le_refl.
  - intros n Hn Hpos. rewrite (Hgiven n Hn Hpos).
    apply Z.ltb_lt in Hpos. rewrite Hpos. apply firstn_le_length.
  - intros Hne Hnum Hoff. rewrite (Hbad Hne Hnum). simpl (0 <? 0). cbv iota.
    unfold skipped.
    assert (Hzero : lf_Offset f = 0).
    { unfold f, LogHandler.parse_filter. cbn [lf_Offset]. rewrite Hoff.
      reflexivity. }
    rewrite Hzero. simpl (0 <? 0). cbv iota.
    apply order_timestamp_desc_perm.
Qed.

End LogQueryFacts.

(** ** Lists from the environment *)

Section ConfigFacts.
Import GoStrings Config.

Lemma Split_at_sep : forall c s sep,
  Ascii.eqb c sep = true ->
  Split (String c s) sep = EmptyString :: Split s sep.
Proof. intros c s sep H. simpl. rewrite H. reflexivity. Qed.

Lemma Split_count : forall s sep,
  List.length (Split s sep) = S (count_byte sep s).
Proof.
  induction s as [|c s IH]; intro sep; [reflexivity|].
  destruct (Ascii.eqb c sep) eqn:Hc.
  - rewrite (Split_at_sep c s sep Hc). cbn [List.length count_byte].
    rewrite Hc, IH. reflexivity.
  - rewrite (Split_cons c s sep Hc). cbn [List.length count_byte].
    rewrite Hc. cbn [Nat.add]. rewrite <- IH.
    destruct (Split s sep) eqn:E; [|reflexivity].
    exfalso. apply (Split_not_nil s sep). exact E.
Qed.

Lemma no_space_suffix : forall s1 s2,
  no_space (s1 ++ s2) = true -> no_space s2 = true.
Proof.
  induction s1 as [|a s1 IH]; intros s2 H; [exact H|].
  simpl in H. apply andb_true_iff in H. apply IH, H.
Qed.

Lemma no_space_prefix : forall s1 s2,
  no_space (s1 ++ s2) = true -> no_space s1 = true.
Proof.
  induction s1 as [|a s1 IH]; intros s2 H; [reflexivity|].
  change (String a s1 ++ s2)%string with (String a (s1 ++ s2)) in H.
  cbn [no_space] in H |- *.
  apply andb_true_iff in H. destruct H as [Hs H].
  apply andb_true_iff. split; [|exact (IH s2 H)].
  apply negb_true_iff in Hs. apply negb_true_iff.
  destruct (starts_with_space space2 space3 (String a s1)) eqn:E; [|reflexivity].
  apply (starts_with_space_app _ _ _ s2) in E.
  change (String a s1 ++ s2)%string with (String a (s1 ++ s2)) in E.
  rewrite E in Hs. discriminate.
Qed.

Lemma no_space_starts : forall s,
  no_space s = true -> starts_with_space space2 space3 s = false.
Proof.
  intros [|a s] H; [reflexivity|].
  cbn [no_space] in H. apply andb_true_iff in H. destruct H as [H _].
  apply negb_true_iff in H. exact H.
Qed.

(** A string in which no white-space rune occurs is left as it is. *)
Lemma TrimSpace_no_space : forall s, no_space s = true -> TrimSpace s = s.
Proof.
  intros s H. unfold TrimSpace.
  assert (Hl : trim_left s = s)
    by (apply trim_start_of_clean, no_space_starts; exact H).
  rewrite Hl. unfold trim_right.
  rewrite trim_start_of_clean; [apply string_rev_involutive|].
  pose proof (string_rev_involutive s) as Hrev.
  destruct (string_rev s) as [|z [|y [|x r]]]; [reflexivity| | |].
  - simpl in Hrev. subst s. apply no_space_starts in H. exact H.
  - simpl in Hrev. subst s.
    pose proof (no_space_starts _ H) as Hyz.
    pose proof (no_space_starts _ (no_space_suffix (String y "") _ H)) as Hz.
    simpl in Hyz, Hz |- *.
    rewrite orb_false_r in Hz. rewrite Hz.
    apply orb_false_iff in Hyz. destruct Hyz as [_ Hyz].
    rewrite orb_false_r in Hyz. rewrite Hyz. reflexivity.
  - cbn [string_rev] in Hrev. rewrite !string_append_assoc in Hrev.
    rewrite <- Hrev in H. apply no_space_suffix in H.
    pose proof (no_space_starts _ H) as Hxyz.
    pose proof (no_space_starts _ (no_space_suffix (String x "") _ H)) as Hyz.
    pose proof (no_space_starts _
                  (no_space_suffix (String x (String y "")) _ H)) as Hz.
    simpl in Hxyz, Hyz, Hz |- *.
    rewrite orb_false_r in Hz. rewrite Hz.
    apply orb_false_iff in Hyz. destruct Hyz as [_ Hyz].
    rewrite orb_false_r in Hyz. rewrite Hyz.
    apply orb_false_iff in Hxyz. destruct Hxyz as [_ Hxyz].
    apply orb_false_iff in Hxyz. destruct Hxyz as [_ Hxyz].
    rewrite Hxyz. reflexivity.
Qed.

Lemma Split_hd_prefix : forall s sep,
  exists rest, s = (hd EmptyString (Split s sep) ++ rest)%string.
Proof.
  induction s as [|a s IH]; intro sep; [exists EmptyString; reflexivity|].
  destruct (Ascii.eqb a sep) eqn:Hc.
  - rewrite (Split_at_sep a s sep Hc). exists (String a s). reflexivity.
  - rewrite (Split_cons a s sep Hc). destruct (IH sep) as [rest Hr].
    exists rest. simpl. rewrite <- Hr. reflexivity.
Qed.

Lemma Split_no_space : forall s sep,
  no_space s = true ->
  Forall (fun part => no_space part = true) (Split s sep).
Proof.
  induction s as [|a s IH]; intros sep Hs; [repeat constructor|].
  assert (Hs' : no_space s = true)
    by (apply (no_space_suffix (String a "")); exact Hs).
  specialize (IH sep Hs').
  destruct (Ascii.eqb a sep) eqn:Hc.
  - rewrite (Split_at_sep a s sep Hc). constructor; [reflexivity | exact IH].
  - rewrite (Split_cons a s sep Hc).
    destruct (Split_hd_prefix s sep) as [rest Hrest].
    destruct (Split s sep) as [|h t] eqn:E.
    + exfalso. apply (Split_not_nil s sep). exact E.
    + pose proof (Forall_inv_tail IH) as Ht. simpl in Hrest |- *.
      constructor; [|exact Ht].
      apply (no_space_prefix (String a h) rest).
      simpl. rewrite <- Hrest. exact Hs.
Qed.

(** X23.  getEnvAsSlice on a variable that is set: one entry per
    comma-separated field, so one more than there are commas, also for
    an empty field (a comma at the end gives an empty last entry); every
    entry has no comma and no white space at either end; and for a
    value in which no white-space character of unicode.IsSpace occurs,
    the entries are the fields as they are, and joining them with commas
    gives the value back.  An unset or empty variable gives the
    default. *)
Theorem getEnvAsSlice_entries : forall getenv key defaultValue,
  let value := getenv key in
  let entries := getEnvAsSlice getenv key defaultValue in
  (value = EmptyString -> entries = defaultValue) /\
  (value <> EmptyString ->
     List.length entries = S (count_byte comma value) /\
     Forall (fun entry => TrimSpace entry = entry /\
                          has_byte comma entry = false) entries /\
     (no_space value = true ->
        entries = Split value comma /\
        Join entries (String comma EmptyString) = value)).
Proof.
  intros getenv key defaultValue. cbv zeta. unfold getEnvAsSlice.
  destruct (getenv key) as [|c s] eqn:Hv.
  - split; [reflexivity | intro H; contradiction H; reflexivity].
  - cbn [is_empty]. split; [discriminate|]. intros _.
    split; [rewrite length_map; apply Split_count|]. split.
    + apply Forall_forall. intros entry He.
      apply in_map_iff in He. destruct He as [part [Hp Hin]]. subst entry.
      split; [apply TrimSpace_idem|].
      apply has_byte_TrimSpace.
      pose proof (Split_no_sep (String c s) comma) as Hns.
      rewrite Forall_forall in Hns. apply Hns. exact Hin.
    + intro Hclean.
      assert (Hsame : map TrimSpace (Split (String c s) comma)
                      = Split (String c s) comma).
      { pose proof (Split_no_space (String c s) comma Hclean) as Hall.
        induction Hall as [|p l Hp Hl IHl]; [reflexivity|].
        simpl. rewrite (TrimSpace_no_space p Hp), IHl. reflexivity. }
      rewrite Hsame. split; [reflexivity | apply Join_Split].
Qed.

End ConfigFacts.

(** ** A rule that is disabled *)

Section DisabledRuleFacts.
Context {rt : GoRuntime}.

Lemma check_rules_leaves_out : forall envs rules i db rule_id,
  well_keyed db ->
  (forall rule, In rule rules -> rule_ID rule = rule_id -> Enabled rule = false) ->
  active_alerts rule_id (fst (check_rules envs i rules db))
  = active_alerts rule_id db.
Proof.
  intros envs rules. induction rules as [|rule rest IH];
    intros i db rule_id Hwk Hout; simpl; [reflexivity|].
  assert (Hrest : forall r, In r rest -> rule_ID r = rule_id -> Enabled r = false)
    by (intros r Hr; apply Hout; right; exact Hr).
  destruct (Enabled rule) eqn:Hen; simpl; [|apply IH; assumption].
  assert (Hne : rule_ID rule <> rule_id).
  { intro Heq. specialize (Hout rule (or_introl eq_refl) Heq). congruence. }
  pose proof (evaluateRule_well_keyed (envs i) rule db Hwk) as Hwk'.
  pose proof (evaluateRule_frame (envs i) rule db rule_id Hwk Hne) as Hfr.
  destruct (evaluateRule (envs i) rule db) as [[err db'] lg];
    simpl in Hwk', Hfr.
  specialize (IH (S i) db' rule_id Hwk' Hrest).
  destruct (check_rules envs (S i) rest db') as [db'' lg''].
  simpl in *. congruence.
Qed.

(** X24.  An alert outlives the disabling of its rule: through any
    number of evaluation cycles in which the rule with the id [rule_id]
    is disabled, the active alerts of that id stay exactly as they are;
    the evaluator never resolves them. *)
Theorem disabled_rule_alert_stays_active : forall cycles db rule_id,
  well_keyed db ->
  (forall op, In op cycles -> disabled_in rule_id op) ->
  active_alerts rule_id (run_ops cycles db) = active_alerts rule_id db /\
  well_keyed (run_ops cycles db).
Proof.
  induction cycles as [|op cycles IH]; intros db rule_id Hwk Hout.
  - split; [reflexivity | exact Hwk].
  - assert (Hop : disabled_in rule_id op) by (apply Hout; left; reflexivity).
    assert (Hrest : forall o, In o cycles -> disabled_in rule_id o)
      by (intros o Ho; apply Hout; right; exact Ho).
    assert (Hstep : active_alerts rule_id (run_op op db) = active_alerts rule_id db).
    { destruct op as [env rule|[rules err] envs|db_err now id|db_err now id];
        try contradiction.
      simpl in Hop. destruct Hop as [_ Hop]. simpl. unfold CheckAlertRules.
      destruct err as [e|]; [reflexivity|].
      pose proof (check_rules_leaves_out envs rules 0 db rule_id Hwk Hop) as H.
      destruct (check_rules envs 0 rules db) as [db' lg]. exact H. }
    pose proof (run_op_well_keyed op db Hwk) as Hwk'.
    destruct (IH (run_op op db) rule_id Hwk' Hrest) as [Hact Hwk''].
    unfold run_ops in *. simpl. split; [congruence | exact Hwk''].
Qed.

End DisabledRuleFacts.

(** ** Resolutions that fail *)

Section FailedResolutionFacts.
Context {rt : GoRuntime}.

Lemma resolve_each_logs_failure : forall env l db a e,
  In a l -> resolve_fail env (ID a) = Some e ->
  In (LError "Failed to resolve alert" e (ID a)) (snd (resolve_each env l db)).
Proof.
  intros env l. induction l as [|b l IH]; intros db a e Hin Hfail; [destruct Hin|].
  simpl. unfold ResolveAlert.
  destruct Hin as [Hin|Hin].
  - subst b. rewrite Hfail.
    destruct (resolve_each env l db) as [db' lg]. left. reflexivity.
  - destruct (resolve_fail env (ID b)) as [e'|].
    + specialize (IH db a e Hin Hfail).
      destruct (resolve_each env l db) as [db' lg]. right. exact IH.
    + specialize (IH (update_where_id (ID b)
                        (resolve_row (resolve_now env (ID b))) db) a e Hin Hfail).
      destruct (resolve_each env l _) as [db' lg]. right. exact IH.
Qed.

Lemma existsb_filter : forall (p q : Alert -> bool) l,
  existsb p (filter q l) = existsb (fun a => q a && p a) l.
Proof.
  intros p q l. induction l as [|a l IH]; [reflexivity|]. simpl.
  destruct (q a); simpl; rewrite IH; reflexivity.
Qed.

Lemma failed_resolution_cases : forall env rule_id db b,
  NoDup (map ID (rows db)) -> In b (rows db) ->
  let b' :=
    resolved_by env
      (filter (resolve_ok env) (order_created_desc (active_alerts rule_id db))) b in
  (is_active_for rule_id b = true /\ resolve_ok env b = true /\
   b' = resolve_row (resolve_now env (ID b)) b) \/
  (is_active_for rule_id b = true /\ resolve_ok env b = false /\ b' = b) \/
  (is_active_for rule_id b = false /\ b' = b).
Proof.
  intros env rule_id db b Hnd Hin. cbv zeta. unfold resolved_by.
  rewrite existsb_filter, existsb_order_created_desc.
  destruct (existsb (fun a => resolve_ok env a && (ID a =? ID b)%N)
              (active_alerts rule_id db)) eqn:Hex.
  - left. apply existsb_exists in Hex. destruct Hex as [a [Ha Hab]].
    apply andb_true_iff in Hab. destruct Hab as [Hok Hid].
    apply N.eqb_eq in Hid. apply filter_In in Ha. destruct Ha as [Ha Hact].
    assert (Heq : a = b) by (apply (NoDup_ID_inj (rows db)); assumption).
    subst a. repeat split; assumption.
  - destruct (is_active_for rule_id b) eqn:Hact; [|right; right; split; reflexivity].
    right. left. split; [reflexivity|]. split; [|reflexivity].
    destruct (resolve_ok env b) eqn:Hok; [|reflexivity].
    exfalso.
    assert (Htrue : existsb (fun a => resolve_ok env a && (ID a =? ID b)%N)
                      (active_alerts rule_id db) = true).
    { apply existsb_exists. exists b. split.
      - apply filter_In. split; assumption.
      - rewrite Hok, N.eqb_refl. reflexivity. }
    congruence.
Qed.

Lemma failed_resolutions_active : forall env rule_id db l,
  NoDup (map ID (rows db)) -> (forall b, In b l -> In b (rows db)) ->
  filter (is_active_for rule_id)
    (map (resolved_by env
            (filter (resolve_ok env)
               (order_created_desc (active_alerts rule_id db)))) l)
  = filter (fun a => negb (resolve_ok env a)) (filter (is_active_for rule_id) l).
Proof.
  intros env rule_id db l Hnd. induction l as [|b l IH]; intro Hall;
    [reflexivity|].
  assert (Hrest : forall c, In c l -> In c (rows db))
    by (intros c Hc; apply Hall; right; exact Hc).
  specialize (IH Hrest). cbn [map filter].
  destruct (failed_resolution_cases env rule_id db b Hnd
              (Hall b (or_introl eq_refl)))
    as [[Hact [Hok Hb]]|[[Hact [Hok Hb]]|[Hact Hb]]]; rewrite Hb.
  - rewrite resolve_row_not_active, Hact. cbn [filter]. rewrite Hok. exact IH.
  - rewrite Hact. cbn [filter]. rewrite Hok. cbn [negb]. rewrite IH. reflexivity.
  - rewrite Hact. exact IH.
Qed.

(** X25.  Below the threshold, a ResolveAlert call that fails does not
    stop the evaluation and does not fail it: evaluateRule returns nil,
    every active alert of the rule whose call succeeded is resolved,
    every one whose call failed is logged with its error and stays
    active as it was, and the table has no other change to the active
    alerts of the rule. *)
Theorem failed_resolutions_are_skipped : forall env rule db v,
  well_keyed db ->
  query_row env (buildQuery rule (build_now env)) = QValue v ->
  float64_ge v (Threshold rule) = false ->
  get_alerts_fail env = None ->
  exists db' lg,
    evaluateRule env rule db = (None, db', lg) /\
    active_alerts (rule_ID rule) db' =
      filter (fun a => negb (resolve_ok env a)) (active_alerts (rule_ID rule) db) /\
    List.length (rows db') = List.length (rows db) /\
    (forall a e, In a (active_alerts (rule_ID rule) db) ->
       resolve_fail env (ID a) = Some e ->
       In a (rows db') /\
       In (LError "Failed to resolve alert" e (ID a)) lg) /\
    (forall a, In a (active_alerts (rule_ID rule) db) ->
       resolve_fail env (ID a) = None ->
       In (resolve_row (resolve_now env (ID a)) a) (rows db')).
Proof.
  intros env rule db v [Hnd Hlt] Hq Hbelow Hget.
  unfold evaluateRule. rewrite Hq, Hbelow, Hget, GetAlerts_active.
  pose proof (resolve_each_table env
                (order_created_desc (active_alerts (rule_ID rule) db)) db) as Htab.
  pose proof (resolve_each_logs_failure env
                (order_created_desc (active_alerts (rule_ID rule) db)) db) as Hlog.
  destruct (resolve_each env
              (order_created_desc (active_alerts (rule_ID rule) db)) db)
    as [db' lg].
  cbn [fst snd] in *. subst db'.
  exists {| rows := map (resolved_by env
                           (filter (resolve_ok env)
                              (order_created_desc
                                 (active_alerts (rule_ID rule) db)))) (rows db);
            next_id := next_id db |}, lg.
  split; [reflexivity|]. split; [|split; [|split]].
  - unfold active_alerts at 1 2. cbn [rows].
    apply failed_resolutions_active; [exact Hnd | auto].
  - cbn [rows]. apply length_map.
  - intros a e Ha Hfail. split.
    + cbn [rows]. apply in_map_iff. exists a.
      apply filter_In in Ha. destruct Ha as [Hin Hact]. split; [|exact Hin].
      destruct (failed_resolution_cases env (rule_ID rule) db a Hnd Hin)
        as [[_ [Hok _]]|[[_ [_ Hb]]|[_ Hb]]]; try exact Hb.
      unfold resolve_ok in Hok. rewrite Hfail in Hok. discriminate.
    + apply Hlog; [|exact Hfail]. apply order_created_desc_In. exact Ha.
  - intros a Ha Hok. cbn [rows]. apply in_map_iff. exists a.
    apply filter_In in Ha. destruct Ha as [Hin Hact]. split; [|exact Hin].
    destruct (failed_resolution_cases env (rule_ID rule) db a Hnd Hin)
      as [[_ [_ Hb]]|[[_ [Hno _]]|[Hno _]]]; [exact Hb| |congruence].
    unfold resolve_ok in Hno. rewrite Hok in Hno. discriminate.
Qed.

End FailedResolutionFacts.

(** ** A message that does not decode *)

Section MalformedFacts.
Context {rt : GoRuntime}.
Import Logs Consumers.

Variable batchSize : Z.
Variable flush_fail : nat -> option error.

Lemma processBatch_frame : forall what st st',
  same_work st st' ->
  same_work (processBatch flush_fail what st) (processBatch flush_fail what st') /\
  exists lines,
    out (processBatch flush_fail what st) = (out st ++ lines)%list /\
    out (processBatch flush_fail what st') = (out st' ++ lines)%list.
Proof.
  intros what st st' [Hb [Hf Hd]]. unfold processBatch, same_work.
  rewrite Hb, Hf, Hd.
  destruct (HandleLogBatch _ _ _) as [[err db'] lg]. cbn [batch flush_calls logs_db out].
  split; [repeat split|]. eexists. split; reflexivity.
Qed.

(** One event changes the buffer, the flushes and the table by what it
    finds of them, and adds the same marks and the same log lines. *)
Lemma event_frame : forall (step : ClaimState -> ClaimState),
  (exists value t1 t2, step = on_message batchSize flush_fail value t1 t2) \/
  step = on_timer flush_fail \/ step = on_done flush_fail ->
  forall st st', same_work st st' ->
  same_work (step st) (step st') /\
  exists marks lines,
    marked (step st) = (marked st ++ marks)%list /\
    marked (step st') = (marked st' ++ marks)%list /\
    out (step st) = (out st ++ lines)%list /\
    out (step st') = (out st' ++ lines)%list.
Proof.
  intros step Hstep st st' Hsame.
  pose proof Hsame as [Hb [Hf Hd]].
  destruct Hstep as [[value [t1 [t2 Hstep]]]|[Hstep|Hstep]]; subst step.
  - unfold on_message.
    destruct (json_Unmarshal_Log value) as [log|].
    + cbv zeta. cbn [batch]. rewrite Hb.
      set (s1 := {| batch := batch st ++ [stamp log t1 t2];
                    marked := marked st ++ [value];
                    flush_calls := flush_calls st; logs_db := logs_db st;
                    out := out st |}).
      set (s1' := {| batch := batch st ++ [stamp log t1 t2];
                     marked := marked st' ++ [value];
                     flush_calls := flush_calls st'; logs_db := logs_db st';
                     out := out st' |}).
      assert (H1 : same_work s1 s1') by (repeat split; assumption).
      destruct (batchSize <=? _).
      * destruct (processBatch_frame "Failed to process batch" s1 s1' H1)
          as [[Hb' [Hf' Hd']] [lines [Ho Ho']]].
        split; [repeat split; assumption|].
        exists [value], lines. unfold clear. cbn [marked out].
        unfold processBatch in *.
        destruct (HandleLogBatch _ _ (logs_db s1)) as [[e1 d1] l1].
        destruct (HandleLogBatch _ _ (logs_db s1')) as [[e2 d2] l2].
        cbn [marked out] in *. repeat split; assumption.
      * split; [exact H1|]. exists [value], []. cbn [marked out].
        rewrite !app_nil_r. repeat split.
    + split; [repeat split; assumption|].
      exists [value], [LError "Failed to unmarshal log" "invalid JSON"%string 0%N].
      repeat split.
  - unfold on_timer. rewrite Hb.
    destruct (0 <? List.length (batch st))%nat.
    + destruct (processBatch_frame "Failed to process batch on timeout" st st'
                  Hsame) as [[Hb' [Hf' Hd']] [lines [Ho Ho']]].
      split; [repeat split; assumption|].
      exists [], lines. unfold clear. cbn [marked out].
      unfold processBatch in *.
      destruct (HandleLogBatch _ _ (logs_db st)) as [[e1 d1] l1].
      destruct (HandleLogBatch _ _ (logs_db st')) as [[e2 d2] l2].
      cbn [marked out] in *. rewrite !app_nil_r. repeat split; assumption.
    + split; [exact Hsame|]. exists [], []. rewrite !app_nil_r. repeat split.
  - unfold on_done. rewrite Hb.
    destruct (0 <? List.length (batch st))%nat.
    + destruct (processBatch_frame "Failed to process final batch" st st'
                  Hsame) as [[Hb' [Hf' Hd']] [lines [Ho Ho']]].
      split; [repeat split; assumption|].
      exists [], lines.
      unfold processBatch in *.
      destruct (HandleLogBatch _ _ (logs_db st)) as [[e1 d1] l1].
      destruct (HandleLogBatch _ _ (logs_db st')) as [[e2 d2] l2].
      cbn [marked out] in *. rewrite !app_nil_r. repeat split; assumption.
    + split; [exact Hsame|]. exists [], []. rewrite !app_nil_r. repeat split.
Qed.

Lemma consume_frame : forall events st st',
  same_work st st' ->
  same_work (fst (consume batchSize flush_fail events st))
            (fst (consume batchSize flush_fail events st')) /\
  snd (consume batchSize flush_fail events st')
    = snd (consume batchSize flush_fail events st) /\
  exists marks lines,
    marked (fst (consume batchSize flush_fail events st))
      = (marked st ++ marks)%list /\
    marked (fst (consume batchSize flush_fail events st'))
      = (marked st' ++ marks)%list /\
    out (fst (consume batchSize flush_fail events st)) = (out st ++ lines)%list /\
    out (fst (consume batchSize flush_fail events st')) = (out st' ++ lines)%list.
Proof.
  induction events as [|ev events IH]; intros st st' Hsame.
  - simpl. split; [exact Hsame|]. split; [reflexivity|].
    exists [], []. rewrite !app_nil_r. repeat split.
  - destruct ev as [value t1 t2| |].
    + destruct (event_frame (on_message batchSize flush_fail value t1 t2)
                  (or_introl (ex_intro _ value (ex_intro _ t1
                     (ex_intro _ t2 eq_refl)))) st st' Hsame)
        as [H1 [m1 [l1 [Hm [Hm' [Ho Ho']]]]]].
      destruct (IH _ _ H1) as [H2 [Hret [m2 [l2 [Hn [Hn' [Hp Hp']]]]]]].
      simpl. split; [exact H2|]. split; [exact Hret|].
      exists (m1 ++ m2)%list, (l1 ++ l2)%list.
      rewrite Hn, Hn', Hp, Hp', Hm, Hm', Ho, Ho', !app_assoc. repeat split.
    + destruct (event_frame (on_timer flush_fail)
                  (or_intror (or_introl eq_refl)) st st' Hsame)
        as [H1 [m1 [l1 [Hm [Hm' [Ho Ho']]]]]].
      destruct (IH _ _ H1) as [H2 [Hret [m2 [l2 [Hn [Hn' [Hp Hp']]]]]]].
      simpl. split; [exact H2|]. split; [exact Hret|].
      exists (m1 ++ m2)%list, (l1 ++ l2)%list.
      rewrite Hn, Hn', Hp, Hp', Hm, Hm', Ho, Ho', !app_assoc. repeat split.
    + destruct (event_frame (on_done flush_fail)
                  (or_intror (or_intror eq_refl)) st st' Hsame)
        as [H1 [m1 [l1 [Hm [Hm' [Ho Ho']]]]]].
      simpl. split; [exact H1|]. split; [reflexivity|].
      exists m1, l1. repeat split; assumption.
Qed.

Lemma consume_before : forall events rest st,
  forallb (fun e => negb (is_done e)) events = true ->
  consume batchSize flush_fail (events ++ rest) st =
  consume batchSize flush_fail rest
    (fst (consume batchSize flush_fail events st)).
Proof.
  induction events as [|ev events IH]; intros rest st Hev; [reflexivity|].
  simpl in Hev. apply andb_true_iff in Hev. destruct Hev as [Hd Hev].
  destruct ev as [value t1 t2| |]; simpl in Hd; try discriminate;
    simpl; apply IH; exact Hev.
Qed.

(** X4.  A message that does not decode, received at any point before
    the session ends, is logged ("Failed to unmarshal log") and marked
    as consumed, and changes nothing else: the run ends as the run
    without the message does, with the same buffer, the same flushes and
    the same table, and with the same marks and log lines apart from the
    mark and the line of this message. *)
Theorem malformed_message_dropped : forall before after value t1 t2 db,
  json_Unmarshal_Log value = None ->
  forallb (fun e => negb (is_done e)) before = true ->
  let run :=
    ConsumeClaim batchSize flush_fail
      (before ++ Message value t1 t2 :: after) db in
  let run_without := ConsumeClaim batchSize flush_fail (before ++ after) db in
  batch (fst run) = batch (fst run_without) /\
  flush_calls (fst run) = flush_calls (fst run_without) /\
  logs_db (fst run) = logs_db (fst run_without) /\
  snd run = snd run_without /\
  exists marks marks' lines lines',
    marked (fst run) = (marks ++ value :: marks')%list /\
    marked (fst run_without) = (marks ++ marks')%list /\
    out (fst run) =
      (lines ++
       LError "Failed to unmarshal log" "invalid JSON"%string 0%N :: lines')%list /\
    out (fst run_without) = (lines ++ lines')%list.
Proof.
  intros before after value t1 t2 db Hdec Hbefore. cbv zeta.
  unfold ConsumeClaim. rewrite !consume_before by exact Hbefore.
  set (st := fst (consume batchSize flush_fail before (init_state db))).
  cbn [consume].
  assert (Hstep : on_message batchSize flush_fail value t1 t2 st =
            {| batch := batch st; marked := marked st ++ [value];
               flush_calls := flush_calls st; logs_db := logs_db st;
               out := out st ++
                 [LError "Failed to unmarshal log" "invalid JSON"%string 0%N] |})
    by (unfold on_message; rewrite Hdec; reflexivity).
  rewrite Hstep.
  set (st' := {| batch := batch st; marked := marked st ++ [value];
                 flush_calls := flush_calls st; logs_db := logs_db st;
                 out := out st ++
                   [LError "Failed to unmarshal log" "invalid JSON"%string 0%N] |}).
  assert (Hsame : same_work st st') by (repeat split).
  destruct (consume_frame after st st' Hsame)
    as [[Hb [Hf Hd]] [Hret [marks' [lines' [Hm [Hm' [Ho Ho']]]]]]].
  split; [exact Hb|]. split; [exact Hf|]. split; [exact Hd|].
  split; [exact Hret|].
  exists (marked st), marks', (out st), lines'.
  rewrite Hm, Hm', Ho, Ho'. cbn [marked out st'].
  rewrite <- !app_assoc. repeat split.
Qed.

End MalformedFacts.

(** ** Worked examples *)

Section Examples.
Import Samples.

Lemma empty_table_well_keyed : well_keyed empty_table.
Proof. split; [constructor | intros a []]. Qed.

(** Scenario A at the boundary: an aggregate equal to the threshold 5.0
    inserts the alert of the rule. *)
Lemma threshold_boundary_witness :
  @evaluateRule sample_runtime (env_value f64_5) high_error_count empty_table
  = (None,
     {| rows := [@created_alert sample_runtime (env_value f64_5)
                   high_error_count f64_5 empty_table];
        next_id := 2%N |},
     [LInfo "Alert created" 6%N]).
Proof.
  destruct (@evaluateRule_at_or_above_threshold sample_runtime
              (env_value f64_5) high_error_count empty_table f64_5
              eq_refl (or_intror eq_refl) eq_refl eq_refl) as [Hcreate _].
  destruct (Hcreate eq_refl) as [Heval _]. exact Heval.
Defined.

(** Scenario C: the aggregate 3.0 is below the threshold 5.0 and the
    active alert of the rule is resolved. *)
Lemma below_threshold_witness :
  active_alerts 6%N
    (snd (fst (@evaluateRule sample_runtime (env_value f64_3)
                 high_error_count one_active))) = [] /\
  map Status
    (rows (snd (fst (@evaluateRule sample_runtime (env_value f64_3)
                       high_error_count one_active)))) = ["resolved"%string].
Proof.
  destruct (@evaluateRule_below_threshold sample_runtime (env_value f64_3)
              high_error_count one_active f64_3 eq_refl eq_refl eq_refl
              (fun _ => eq_refl))
    as [db' [lg [Heval [Hrows [_ [_ [_ [Hnone _]]]]]]]].
  rewrite Heval. cbn [fst snd]. split; [exact Hnone|].
  rewrite Hrows. reflexivity.
Defined.

(** A window of five minutes. *)
Lemma five_minute_window_witness :
  window_start high_error_count sample_now = sample_now - 5 * Minute.
Proof.
  apply (proj1 (@buildQuery_trailing_window sample_runtime high_error_count
                  sample_now)).
  unfold max_window_minutes. simpl. lia.
Defined.

(** Scenario D: the query of the first rule fails, the second rule still
    gets its alert in the same cycle. *)
Lemma failing_then_succeeding_witness :
  exists db' lg a,
    @CheckAlertRules sample_runtime ([fatal_errors; high_error_count], None)
      envs_fail_then_six empty_table = (None, db', lg) /\
    In (LError "Failed to evaluate alert rule"
          "failed to execute alert query: connection refused"%string 3%N) lg /\
    active_alerts 6%N db' = [a] /\ Value a = f64_6.
Proof.
  destruct (@cycle_failure_isolation sample_runtime envs_fail_then_six
              [] fatal_errors [high_error_count] empty_table
              "failed to execute alert query: connection refused"%string
              eq_refl eq_refl)
    as [db' [lg [Hrun [_ [Herr Hlater]]]]].
  destruct (Hlater [] high_error_count [] f64_6 eq_refl
              empty_table_well_keyed eq_refl eq_refl eq_refl eq_refl eq_refl
              eq_refl)
    as [_ [a [Hact [_ [Hval _]]]]].
  - intros r [Hr|[]]. subst r. discriminate.
  - exists db', lg, a. repeat split; assumption.
Defined.

(** Three records and a batch size of two: two flushes. *)
Lemma three_records_two_flushes_witness :
  Z.of_nat (List.length
              (Consumers.flush_calls
                 (fst (@Consumers.ConsumeClaim sample_runtime 2 never_fails
                         (four_messages ++ [Consumers.ContextDone]) [])))) = 2 /\
  map (map log_Message)
    (Consumers.flush_calls
       (fst (@Consumers.ConsumeClaim sample_runtime 2 never_fails
               (four_messages ++ [Consumers.ContextDone]) [])))
  = [["a"; "b"]; ["c"]]%string.
Proof.
  split.
  - exact (proj1 (@flush_calls_count_and_size sample_runtime 2 never_fails
                    eq_refl four_messages Consumers.ContextDone []
                    eq_refl (or_intror eq_refl))).
  - reflexivity.
Defined.

(** Resolving the id 7, which no alert has, answers 200 and changes
    nothing. *)
Lemma unknown_id_witness :
  Handlers.ResolveAlert "7" None sample_now one_active =
  ({| Handlers.code := 200; Handlers.body_key := "message";
      Handlers.body_text := "Alert resolved successfully" |}, one_active, []).
Proof.
  assert (Habsent : forall a, In a (rows one_active) -> ID a <> 7%N)
    by (intros a [Ha|[]]; subst a; discriminate).
  assert (Hne : "7"%string <> EmptyString) by discriminate.
  exact (proj1 (proj2 (ResolveAlert_unknown_id sample_now 7%N one_active Habsent)
                  "7"%string Hne eq_refl) eq_refl).
Defined.

(** Against C10 as stated: no alert has the id 4294967296 and the
    repository's ResolveAlert returns nil for it, but the endpoint
    answers 400, not success. *)
Lemma unknown_large_id_is_rejected :
  (forall a, In a (rows one_active) -> ID a <> 4294967296%N) /\
  Alerts.ResolveAlert None sample_now 4294967296%N one_active
    = (None, one_active) /\
  Handlers.ResolveAlert "4294967296" None sample_now one_active =
  ({| Handlers.code := 400; Handlers.body_key := "error";
      Handlers.body_text := "Invalid alert ID" |}, one_active, []).
Proof.
  split; [intros a [Ha|[]]; subst a; discriminate|].
  split; reflexivity.
Qed.

(** Against C9 as stated: the migration 002 is applied and recorded, but
    its USE statement went to the connection and is not in the
    transaction that holds the record. *)
Lemma use_statement_outside_the_transaction :
  fst (@Migration.ApplyMigration sample_runtime all_succeed migration_002 [])
    = None /\
  In "use log_analytics"%string
    (Migration.splitSQLStatements (Migration.Content migration_002)) /\
  In (Migration.Direct "use log_analytics")
    (snd (@Migration.ApplyMigration sample_runtime all_succeed migration_002
            [])) /\
  ~ @Migration.recorded_with_statements sample_runtime migration_002
      (snd (@Migration.ApplyMigration sample_runtime all_succeed migration_002
              [])).
Proof.
  split; [reflexivity|]. split; [vm_compute; tauto|].
  split; [vm_compute; tauto|].
  intros [ops [Hin [_ Hall]]].
  assert (Huse : In (Migration.TxExec "use log_analytics") ops)
    by (apply Hall; vm_compute; tauto).
  vm_compute in Hin. destruct Hin as [Hin|[Hin|[]]]; [discriminate|].
  injection Hin as Hops. subst ops.
  simpl in Huse.
  repeat (destruct Huse as [Huse|Huse]; [discriminate|]). exact Huse.
Qed.

(** C4.  The claim fails on the code for a rule with a time window of
    153722868 minutes: the product of the window with [time.Minute]
    wraps around in the 64 bits of a [time.Duration], the window starts
    about 292 years after [now] instead of [time_window] minutes before
    it, and this start is what the filter of the query is built from. *)
Lemma wide_window_starts_in_the_future :
  window_start wide_window_rule sample_now = sample_now + 9223371993709551616 /\
  window_start wide_window_rule sample_now
    <> sample_now - TimeWindow wide_window_rule * Minute /\
  sample_now < window_start wide_window_rule sample_now /\
  @buildQuery sample_runtime wide_window_rule sample_now =
    (select_prefix ++ Condition wide_window_rule ++
     @from_where_suffix sample_runtime
       (sample_now + 9223371993709551616))%string.
Proof.
  split; [vm_compute; reflexivity|].
  split; [vm_compute; discriminate|].
  split; [vm_compute; reflexivity|].
  vm_compute. reflexivity.
Qed.

(** Against C6 as stated: a second ResolveAlert, 30 seconds after the
    first, returns nil but leaves another table: resolved_at has moved. *)
Lemma second_resolve_moves_resolved_at :
  Alerts.ResolveAlert None (sample_now + 30 * Second) 1%N
    (snd (Alerts.ResolveAlert None sample_now 1%N one_active))
  <> (None, snd (Alerts.ResolveAlert None sample_now 1%N one_active)) /\
  map ResolvedAt
    (rows (snd (Alerts.ResolveAlert None sample_now 1%N one_active)))
  = [Some sample_now] /\
  map ResolvedAt
    (rows (snd (Alerts.ResolveAlert None (sample_now + 30 * Second) 1%N
                  (snd (Alerts.ResolveAlert None sample_now 1%N one_active)))))
  = [Some (sample_now + 30 * Second)].
Proof.
  vm_compute. split; [discriminate|]. split; reflexivity.
Qed.

(** Against C8 as stated: the condition of the rule is in the text of the
    query as it was stored, statement separator and comment marker
    included, and the text changes with the condition. *)
Lemma condition_text_reaches_the_query :
  contains "SELECT 1; DROP TABLE alerts; --"
    (@buildQuery sample_runtime injected_rule sample_now) = true /\
  window_start injected_rule sample_now = window_start high_error_count sample_now /\
  @buildQuery sample_runtime injected_rule sample_now
  <> @buildQuery sample_runtime high_error_count sample_now.
Proof.
  vm_compute. split; [reflexivity|]. split; [reflexivity|discriminate].
Qed.

Lemma one_active_table_unique : one_active_per_rule one_active.
Proof.
  intro rule_id. unfold active_alerts. simpl.
  destruct (is_active_for rule_id alert_one); simpl; lia.
Qed.

(** An acknowledgement arrives between the reads and the writes of an
    evaluation that resolves. *)
Lemma acknowledge_in_between_witness :
  one_active_per_rule
    (snd (fst (@carry_out sample_runtime (env_value f64_3) high_error_count
                 (@decision_of sample_runtime (env_value f64_3)
                    high_error_count one_active)
                 (@run_ops sample_runtime
                    [OpAcknowledge None sample_now 1%N] one_active)))).
Proof.
  apply (@api_calls_between_reads_and_writes sample_runtime (env_value f64_3)
           high_error_count one_active [OpAcknowledge None sample_now 1%N]).
  - exact one_active_table_unique.
  - intros op [Hop|[]]. subst op. reflexivity.
Defined.

(** A batch size of one and a failing insert: the record is gone. *)
Lemma failed_flush_witness :
  Consumers.batch
    (@Consumers.on_message sample_runtime 1 always_fails "a" 10 11
       (Consumers.init_state [])) = [] /\
  Consumers.logs_db
    (@Consumers.on_message sample_runtime 1 always_fails "a" 10 11
       (Consumers.init_state [])) = [].
Proof.
  destruct (@failed_flush_clears_buffer sample_runtime 1 always_fails
              "a"%string 10 11 (Consumers.init_state []) (sample_log "a")
              "server has gone away"%string eq_refl
              ltac:(simpl; lia) eq_refl)
    as [Hb [_ [_ [Hdb _]]]].
  split; [exact Hb|exact Hdb].
Defined.

(** A malformed message between a record and two others: the buffer
    and the flushes are those of the three records alone. *)
Lemma malformed_message_witness :
  map log_Message
    (Consumers.batch
       (fst (@Consumers.ConsumeClaim sample_runtime 20 never_fails
               four_messages []))) = ["a"; "b"; "c"]%string /\
  Consumers.flush_calls
    (fst (@Consumers.ConsumeClaim sample_runtime 20 never_fails
            four_messages [])) = [].
Proof.
  destruct (@malformed_message_dropped sample_runtime 20 never_fails
              [Consumers.Message "a" 10 11]
              [Consumers.Message "b" 30 31; Consumers.Message "c" 40 41]
              "{"%string 20 21 [] eq_refl eq_refl) as [Hb [Hf _]].
  change ([Consumers.Message "a" 10 11] ++
          Consumers.Message "{" 20 21 ::
          [Consumers.Message "b" 30 31; Consumers.Message "c" 40 41])%list
    with four_messages in Hb, Hf.
  rewrite Hb, Hf. split; reflexivity.
Defined.

Example malformed_message_marked_and_logged :
  Consumers.marked
    (fst (@Consumers.ConsumeClaim sample_runtime 20 never_fails
            four_messages [])) = ["a"; "{"; "b"; "c"]%string /\
  Consumers.out
    (fst (@Consumers.ConsumeClaim sample_runtime 20 never_fails
            four_messages []))
  = [LError "Failed to unmarshal log" "invalid JSON"%string 0%N].
Proof. split; reflexivity. Qed.

(** Three records, the default batch size of 20, then the timer. *)
Lemma timer_flush_witness :
  map (map log_Message)
    (Consumers.flush_calls
       (fst (@Consumers.ConsumeClaim sample_runtime Consumers.DefaultBatchSize
               never_fails (four_messages ++ [Consumers.TimerFired]) [])))
  = [["a"; "b"; "c"]]%string.
Proof.
  destruct (@timer_flushes_partial_batch sample_runtime
              Consumers.DefaultBatchSize never_fails eq_refl four_messages []
              eq_refl ltac:(discriminate) eq_refl) as [Hcalls _].
  rewrite Hcalls. reflexivity.
Defined.

(** The bootstrap migration and a later one on the same content. *)
Example apply_000 :
  @Migration.ApplyMigration sample_runtime all_succeed migration_000 [] =
  (None,
   [Migration.Direct "use log_analytics";
    Migration.Committed
      [Migration.TxExec "CREATE TABLE t (id INT)";
       Migration.TxExec "INSERT INTO t VALUES (1)"]]).
Proof. reflexivity. Qed.

Example apply_002 :
  Migration.tracking
    (snd (@Migration.ApplyMigration sample_runtime all_succeed migration_002 []))
  = [("002", "002_initial_schema.sql", ("sha256:" ++ sample_content))]%string.
Proof. reflexivity. Qed.

Example executed_000 :
  Migration.executed
    (snd (@Migration.ApplyMigration sample_runtime all_succeed migration_000 []))
  = ["use log_analytics"; "CREATE TABLE t (id INT)";
     "INSERT INTO t VALUES (1)"]%string /\
  Migration.tracking
    (snd (@Migration.ApplyMigration sample_runtime all_succeed migration_000 []))
  = [].
Proof. split; reflexivity. Qed.

(** Scenario A, then an acknowledgement, then scenario C: a reachable
    table. *)
Example reachable_after_three_operations :
  @reachable sample_runtime
    (@run_op sample_runtime (OpEvaluate (env_value f64_3) high_error_count)
       (@run_op sample_runtime (OpAcknowledge None sample_now 1%N)
          (@run_op sample_runtime (OpEvaluate (env_value f64_6) high_error_count)
             empty_table))).
Proof. repeat apply reachable_step. apply reachable_empty. Qed.

Example boundary_is_inclusive : float64_ge f64_5 f64_5 = true.
Proof. reflexivity. Qed.

Example parse_uint_examples :
  GoStrings.ParseUint "4294967295" 32 = Some 4294967295%N /\
  GoStrings.ParseUint "4294967296" 32 = None /\
  GoStrings.ParseUint "-1" 32 = None /\
  GoStrings.ParseUint "" 32 = None.
Proof. repeat split. Qed.

(** Two evaluations of the rule read the empty table before either
    writes. *)
Lemma overlapping_evaluations_witness :
  List.length
    (active_alerts 6%N
       (snd (fst (@carry_out sample_runtime (env_value f64_6) high_error_count
                    (@decision_of sample_runtime (env_value f64_6)
                       high_error_count empty_table)
                    (snd (fst (@carry_out sample_runtime (env_value f64_6)
                                 high_error_count
                                 (@decision_of sample_runtime (env_value f64_6)
                                    high_error_count empty_table)
                                 empty_table))))))) = 2%nat.
Proof.
  pose proof (@overlapping_evaluations_duplicate sample_runtime
                (env_value f64_6) (env_value f64_6) high_error_count
                empty_table f64_6 f64_6 eq_refl eq_refl eq_refl eq_refl
                eq_refl eq_refl eq_refl eq_refl eq_refl) as H.
  cbv zeta in H. destruct H as [_ [_ [Hact _]]].
  exact (f_equal (@List.length Alert) Hact).
Defined.

(** Scenario B: the value 6 twice; the second evaluation writes nothing. *)
Lemma second_evaluation_witness :
  @evaluateRule sample_runtime (env_value f64_5) high_error_count
    (snd (fst (@evaluateRule sample_runtime (env_value f64_6)
                 high_error_count empty_table)))
  = (None,
     snd (fst (@evaluateRule sample_runtime (env_value f64_6)
                 high_error_count empty_table)), []).
Proof.
  exact (proj1 (@repeated_evaluation_creates_once sample_runtime
                  (env_value f64_6) (env_value f64_5) high_error_count
                  empty_table f64_6 f64_5 eq_refl eq_refl eq_refl eq_refl
                  eq_refl eq_refl eq_refl)).
Defined.

(** The alert 1 is acknowledged and the rule fires again: two rows, the
    new one active. *)
Lemma acknowledge_then_evaluate_witness :
  map Status
    (rows (snd (fst (@evaluateRule sample_runtime (env_value f64_6)
                       high_error_count
                       (snd (Alerts.AcknowledgeAlert None sample_now 1%N
                               one_active))))))
  = ["acknowledged"; "active"]%string.
Proof.
  pose proof (@acknowledged_alert_rearms_rule sample_runtime (env_value f64_6)
                high_error_count one_active alert_one sample_now f64_6
                one_active_table_unique (or_introl eq_refl) eq_refl
                eq_refl eq_refl eq_refl eq_refl) as H.
  cbv zeta in H. destruct H as [_ [Heval _]].
  change (ID alert_one) with 1%N in Heval. rewrite Heval. reflexivity.
Defined.

(** The active alerts of rule 6 in the table of scenario A. *)
Lemma get_alerts_witness :
  StronglySorted not_newer [alert_one] /\
  Permutation [alert_one]
    (filter (matches (active_filter 6%N)) (rows one_active)).
Proof.
  destruct (GetAlerts_result (active_filter 6%N) one_active [alert_one]
              eq_refl eq_refl) as [Hsorted [_ [Hall _]]].
  split; [exact Hsorted | exact (Hall eq_refl eq_refl)].
Defined.

(** A second alert is inserted into the table of scenario A and read
    back under the id 2. *)
Lemma create_then_get_witness :
  option_map ID
    (fst (GetAlertByID None 2%N
            (snd (CreateAlert None sample_now
                    (@new_alert sample_runtime (env_value f64_6) fatal_errors f64_6)
                    one_active)))) = Some 2%N /\
  GetAlertByID None 2%N one_active = (None, Some ErrRecordNotFound).
Proof.
  assert (Hwk : well_keyed one_active).
  { split.
    - simpl. constructor; [intros [] | constructor].
    - intros a [Ha|[]]. subst a. reflexivity. }
  pose proof (CreateAlert_then_GetAlertByID one_active sample_now
                (@new_alert sample_runtime (env_value f64_6) fatal_errors f64_6)
                Hwk eq_refl) as H.
  cbv zeta in H. destruct H as [_ [Hmiss [Hget _]]].
  split; [|exact Hmiss].
  change (next_id one_active) with 2%N in Hget. rewrite Hget. reflexivity.
Defined.

(** The active alerts of the table of scenario A. *)
Lemma get_active_alerts_witness : NoDup (map RuleID [alert_one]).
Proof.
  exact (proj1 (GetActiveAlerts_one_per_rule one_active [alert_one]
                  one_active_table_unique eq_refl)).
Defined.

(** The counts after scenario A, an acknowledgement and scenario C: one
    alert, acknowledged and then resolved, so one of the total and one
    of the resolved. *)
Lemma alert_stats_witness :
  match
    GetAlertStats never_fails
      (fun _ =>
         @run_op sample_runtime (OpEvaluate (env_value f64_3) high_error_count)
           (@run_op sample_runtime (OpAcknowledge None sample_now 1%N)
              (@run_op sample_runtime
                 (OpEvaluate (env_value f64_6) high_error_count) empty_table)))
  with
  | (Some stats, None) => TotalAlerts stats = 1 /\ ActiveAlerts stats = 0
  | _ => False
  end.
Proof.
  pose proof (@GetAlertStats_accounting sample_runtime _ never_fails
                reachable_after_three_operations) as H.
  vm_compute in H. destruct H as [_ [Htotal _]].
  vm_compute. split; [exact Htotal | reflexivity].
Defined.

(** A cycle that cannot read the rules, a cycle that raises the alert of
    rule 6, the end of the context, and a tick that comes too late. *)
Lemma checker_witness :
  map Status
    (rows (fst (fst (@StartAlertChecker sample_runtime
                       [Tick ([], Some "connection refused"%string)
                          (fun _ => env_value f64_6);
                        Tick ([high_error_count], None)
                          (fun _ => env_value f64_6);
                        CtxDone;
                        Tick ([fatal_errors], None)
                          (fun _ => env_value f64_6)]
                       empty_table))))
  = ["active"%string].
Proof.
  pose proof (@StartAlertChecker_runs_until_done sample_runtime
                [Tick ([], Some "connection refused"%string)
                   (fun _ => env_value f64_6);
                 Tick ([high_error_count], None) (fun _ => env_value f64_6)]
                [Tick ([fatal_errors], None) (fun _ => env_value f64_6)]
                empty_table eq_refl) as H.
  cbv zeta in H. destruct H as [_ [Hdb _]].
  exact (f_equal (fun db => map Status (rows db)) Hdb).
Defined.

(** POST /alerts/1/resolve, then GET /alerts/1. *)
Lemma resolve_then_get_witness :
  Handlers.GetAlertByID "1" None
    (snd (fst (Handlers.ResolveAlert "1" None sample_now one_active)))
  = (200, inl (Some (resolve_row sample_now alert_one)), []).
Proof.
  pose proof (resolve_then_get_by_id "1" 1%N sample_now one_active eq_refl)
    as H.
  cbv zeta in H. destruct H as [_ [_ [Hfound _]]].
  exact (proj1 (Hfound alert_one eq_refl)).
Defined.

(** A message, the timer, a malformed message, two more messages, the
    end of the session and a message that comes too late, with a batch
    size of two. *)
Lemma any_order_witness :
  map (map log_Message)
    (Consumers.flush_calls
       (fst (@Consumers.ConsumeClaim sample_runtime 2 never_fails
               [Consumers.Message "a" 10 11; Consumers.TimerFired;
                Consumers.Message "{" 20 21; Consumers.Message "b" 30 31;
                Consumers.Message "c" 40 41; Consumers.ContextDone;
                Consumers.Message "d" 50 51] [])))
  = [["a"]; ["b"; "c"]]%string /\
  List.concat
    (Consumers.flush_calls
       (fst (@Consumers.ConsumeClaim sample_runtime 2 never_fails
               [Consumers.Message "a" 10 11; Consumers.TimerFired;
                Consumers.Message "{" 20 21; Consumers.Message "b" 30 31;
                Consumers.Message "c" 40 41; Consumers.ContextDone;
                Consumers.Message "d" 50 51] [])))
  = @Consumers.records_of sample_runtime
      [Consumers.Message "a" 10 11; Consumers.TimerFired;
       Consumers.Message "{" 20 21; Consumers.Message "b" 30 31;
       Consumers.Message "c" 40 41].
Proof.
  split; [reflexivity|].
  pose proof (@consume_any_order sample_runtime 2 never_fails eq_refl
                [Consumers.Message "a" 10 11; Consumers.TimerFired;
                 Consumers.Message "{" 20 21; Consumers.Message "b" 30 31;
                 Consumers.Message "c" 40 41]
                [Consumers.Message "d" 50 51] [] eq_refl) as H.
  cbv zeta in H. destruct H as [_ [Hrecs _]]. exact Hrecs.
Defined.

Lemma insertion_sort_permutation : forall l less,
  Permutation (insertion_sort l less) l.
Proof.
  intros l less. induction l as [|a l IH]; [reflexivity|]. simpl.
  transitivity (a :: insertion_sort l less); [|constructor; exact IH].
  generalize (insertion_sort l less). intro s.
  induction s as [|b s IHs]; simpl; [reflexivity|].
  destruct (less a b); [reflexivity|].
  rewrite IHs. apply perm_swap.
Qed.

Lemma id_less_lt : forall a b,
  Migration.id_less a b = true <->
  String.compare (Migration.mig_ID a) (Migration.mig_ID b) = Lt.
Proof.
  intros a b. unfold Migration.id_less, String.ltb.
  destruct (String.compare (Migration.mig_ID a) (Migration.mig_ID b));
    split; intro H; try reflexivity; discriminate.
Qed.

Lemma id_less_asym : forall a b,
  Migration.id_less a b = true -> Migration.id_less b a = false.
Proof.
  intros a b H. apply id_less_lt in H.
  destruct (Migration.id_less b a) eqn:Hba; [|reflexivity].
  apply id_less_lt in Hba.
  rewrite String.compare_antisym, H in Hba. discriminate.
Qed.

Lemma id_less_trans : forall a b c,
  Migration.id_less a b = true -> Migration.id_less b c = true ->
  Migration.id_less a c = true.
Proof.
  intros a b c Hab Hbc. apply id_less_lt in Hab, Hbc. apply id_less_lt.
  exact (RelationClasses.StrictOrder_Transitive
           (R := String_as_OT.lt) _ _ _ Hab Hbc).
Qed.

Lemma insertion_sort_sorted : forall l,
  StronglySorted Migration.id_not_after (insertion_sort l Migration.id_less).
Proof.
  induction l as [|a l IH]; [constructor|]. simpl.
  revert IH. generalize (insertion_sort l Migration.id_less). intros s Hs.
  induction Hs as [|b s Hs IHs Hall]; simpl.
  - constructor; constructor.
  - destruct (Migration.id_less a b) eqn:Hab.
    + constructor; [constructor; assumption|].
      constructor; [apply id_less_asym; exact Hab|].
      rewrite Forall_forall in *. intros c Hc. specialize (Hall c Hc).
      unfold Migration.id_not_after in *.
      destruct (Migration.id_less c a) eqn:Hca; [|reflexivity].
      rewrite (id_less_trans c a b Hca Hab) in Hall. discriminate.
    + constructor; [exact IHs|].
      rewrite Forall_forall in *. intros c Hc.
      assert (Hin : In c (a :: s)).
      { clear -Hc. induction s as [|d s IHd]; simpl in Hc.
        - destruct Hc as [Hc|[]]. left. exact Hc.
        - destruct (Migration.id_less a d).
          + destruct Hc as [Hc|Hc]; [left; exact Hc | right; exact Hc].
          + destruct Hc as [Hc|Hc]; [right; left; exact Hc|].
            destruct (IHd Hc) as [H|H]; [left; exact H | right; right; exact H]. }
      destruct Hin as [Hin|Hin]; [subst c; exact Hab | apply Hall; exact Hin].
Qed.

(** The two migration files of the directory, by id. *)
Lemma load_migrations_witness :
  map Migration.Filename
    (fst (Migration.LoadMigrations insertion_sort (sample_files, None)))
  = ["000_create_database.sql"; "002_initial_schema.sql"]%string /\
  StronglySorted Migration.id_not_after
    (fst (Migration.LoadMigrations insertion_sort (sample_files, None))).
Proof.
  split; [reflexivity|].
  pose proof (LoadMigrations_result insertion_sort insertion_sort_permutation
                insertion_sort_sorted sample_files) as H.
  destruct (Migration.LoadMigrations insertion_sort (sample_files, None))
    as [ms [e|]].
  - destruct H as [H _]. subst ms. constructor.
  - exact (proj1 H).
Defined.

Lemma two_migrations_distinct :
  NoDup (map Migration.mig_ID [migration_000; migration_002]).
Proof.
  constructor; [intros [H|[]]; discriminate|].
  constructor; [intros []|constructor].
Qed.

(** The first run on a new server records the migration 002 and not the
    migration 000. *)
Lemma first_run_witness :
  map (fun row => fst (fst row))
    (Migration.tracking
       (snd (@Migration.RunMigrations sample_runtime run_all_succeed
               ([migration_000; migration_002], None) [])))
  = ["002"%string].
Proof.
  pose proof (@RunMigrations_records_pending sample_runtime run_all_succeed
                [migration_000; migration_002] [] two_migrations_distinct) as H.
  destruct (@Migration.RunMigrations sample_runtime run_all_succeed
              ([migration_000; migration_002], None) []) as [err h'] eqn:Hrun.
  assert (Herr : err = None)
    by (apply (f_equal fst) in Hrun; vm_compute in Hrun; symmetry; exact Hrun).
  destruct H as [done [later [Hf [Hrows Hl]]]].
  specialize (Hl Herr). subst later. rewrite app_nil_r in Hf.
  cbn [snd]. rewrite Hrows, <- Hf. reflexivity.
Defined.

(** The second run records nothing, and the status of 000 stays
    PENDING. *)
Lemma second_run_witness :
  Migration.tracking
    (snd (@Migration.RunMigrations sample_runtime run_all_succeed
            ([migration_000; migration_002], None)
            (snd (@Migration.RunMigrations sample_runtime run_all_succeed
                    ([migration_000; migration_002], None) []))))
  = Migration.tracking
      (snd (@Migration.RunMigrations sample_runtime run_all_succeed
              ([migration_000; migration_002], None) [])) /\
  snd (Migration.ShowStatus ([migration_000; migration_002], None) None None
         (snd (@Migration.RunMigrations sample_runtime run_all_succeed
                 ([migration_000; migration_002], None) [])))
  = [("000", "000_create_database.sql", "PENDING");
     ("002", "002_initial_schema.sql", "APPLIED")]%string.
Proof.
  pose proof (@RunMigrations_again sample_runtime run_all_succeed
                run_all_succeed [migration_000; migration_002] []
                two_migrations_distinct eq_refl) as H.
  cbv zeta in H. destruct H as [Hsame [_ Hstatus]].
  split; [exact Hsame|].
  rewrite (Hstatus (fun _ _ => eq_refl)). reflexivity.
Defined.

(** The rule 6 is disabled; a cycle in which its query would return 3,
    below its threshold, leaves its active alert as it is. *)
Lemma disabled_rule_witness :
  active_alerts 6%N
    (@run_ops sample_runtime
       [OpCheckRules ([fatal_errors; high_error_count_disabled], None)
          (fun _ => env_value f64_3)]
       one_active)
  = [alert_one].
Proof.
  assert (Hwk : well_keyed one_active).
  { split.
    - simpl. constructor; [intros [] | constructor].
    - intros a [Ha|[]]. subst a. reflexivity. }
  refine (proj1 (@disabled_rule_alert_stays_active sample_runtime
                   [OpCheckRules ([fatal_errors; high_error_count_disabled],
                                  None)
                      (fun _ => env_value f64_3)]
                   one_active 6%N Hwk _)).
  intros op [Hop|[]]. subst op. simpl. split.
  - exists high_error_count_disabled. split; [right; left|]; reflexivity.
  - intros rule [Hr|[Hr|[]]] Hid; subst rule; [discriminate|reflexivity].
Defined.

(** Two brokers and a comma at the end: three entries, the last one
    empty. *)
Example brokers_with_trailing_comma :
  Config.getEnvAsSlice (fun _ => "kafka1:9092, kafka2:9092,"%string)
    "KAFKA_BROKERS" ["localhost:9092"%string]
  = ["kafka1:9092"; "kafka2:9092"; ""]%string.
Proof. reflexivity. Qed.

(** White space beyond ASCII is trimmed as well: a no-break space after
    the comma, and one alone between two semicolons. *)
Example brokers_with_no_break_space :
  Config.getEnvAsSlice
    (fun _ => "kafka1:9092," ++ no_break_space ++ "kafka2:9092")%string
    "KAFKA_BROKERS" ["localhost:9092"%string]
  = ["kafka1:9092"; "kafka2:9092"]%string.
Proof. reflexivity. Qed.

Example statements_with_no_break_space :
  Migration.splitSQLStatements
    ("SELECT 1;" ++ no_break_space ++ ";SELECT 2")%string
  = ["SELECT 1"; "SELECT 2"]%string.
Proof. reflexivity. Qed.

(** A limit that is not a number lifts the limit. *)
Example limit_not_a_number :
  Logs.lf_Limit
    (LogHandler.parse_filter (fun _ => None)
       (fun key => if String.eqb key "limit" then "all" else "")%string) = 0 /\
  Logs.lf_Limit (LogHandler.parse_filter (fun _ => None) (fun _ => ""%string))
  = 100.
Proof. split; reflexivity. Qed.

Example atoi_examples :
  GoStrings.Atoi "42" = Some 42 /\ GoStrings.Atoi "-7" = Some (-7) /\
  GoStrings.Atoi "+" = None /\ GoStrings.Atoi "" = None /\
  GoStrings.Atoi "12a" = None /\
  GoStrings.Atoi "9223372036854775808" = None.
Proof. repeat split. Qed.

(** The value 3 is below the threshold 5 but the ResolveAlert call
    fails: the alert stays active and the evaluation returns nil. *)
Lemma failed_resolution_witness :
  exists db' lg,
    @evaluateRule sample_runtime (env_resolve_fails f64_3) high_error_count
      one_active = (None, db', lg) /\
    active_alerts 6%N db' = [alert_one].
Proof.
  assert (Hwk : well_keyed one_active).
  { split.
    - simpl. constructor; [intros [] | constructor].
    - intros a [Ha|[]]. subst a. reflexivity. }
  destruct (@failed_resolutions_are_skipped sample_runtime
              (env_resolve_fails f64_3) high_error_count one_active f64_3
              Hwk eq_refl eq_refl eq_refl) as [db' [lg [Heval [Hact _]]]].
  exists db', lg. split; [exact Heval | exact Hact].
Defined.

(** POST /alerts/4294967296/resolve answers 400 and the alert with that
    id stays active. *)
Lemma large_id_witness :
  Handlers.code
    (fst (fst (Handlers.ResolveAlert "4294967296" None sample_now far_table)))
  = 400 /\
  In alert_far
    (rows (snd (fst (Handlers.ResolveAlert "4294967296" None sample_now
                       far_table)))).
Proof.
  split; [reflexivity|].
  refine (proj1 (endpoints_cannot_reach_large_ids "4294967296" None sample_now
                   far_table alert_far (or_introl eq_refl) _)).
  apply N.leb_le. reflexivity.
Defined.

End Examples.
